(** * MAcc exit survey: course ranking analysis (src/analysis.py)

    A shallow embedding of [parse_columns], [process_rankings],
    [create_plot] and [main], the properties of the ranking merge and of the
    aggregation that the specification states about them, and further
    properties read off the code: what the parser returns and prints, when
    the aggregator fails, the shape and the bounds of its table, and how
    [main] puts the two together.

    Conventions of the embedding.
    - Python [str] is [string]; [in], [endswith], [find], [rfind] and slicing
      are written out below with Python's conventions (-1 for "not found",
      clamped slice bounds).
    - A Python [dict] is an association list in insertion order: iteration
      order is observable in [process_rankings].
    - The tables spoken of are those of the survey export: every column
      header is a string, and a cell is [NaN] (what [pd.isna] accepts) or
      an integer, the rank a respondent typed in.  On a header that is
      not a string (line 22) or on cells of one respondent that mix text
      and numbers (line 121) Python raises a [TypeError]; such tables have
      no counterpart here, and every statement below is about tables of
      strings and numbers.  On these the exceptions of the code are the
      [KeyError] of line 88 and the [ZeroDivisionError] of line 136.
    - [sum(ranks) / len(ranks)] is the exact quotient, a rational number.
      (Python rounds that quotient to the nearest float; rounding keeps the
      order, so a table that ascends in the quotients ascends in the
      floats.)
    - [process_rankings] receives references to the data table and to the
      metadata map.  The embedding threads both through every operation in a
      state-and-exception monad, so that "the call left them alone" is a
      theorem about the program and not a convention.
    - [DataFrame.sort_values] belongs to pandas.  The statements that hold
      for every sort take it as a parameter with the contract pandas
      documents: the rows come back permuted so that the key column
      ascends.  The statements about the order of rows with equal keys
      are about the sort that line 145 reaches, the default
      [kind='quicksort']: pandas hands the column to numpy's [argsort],
      and numpy's quicksort on an index array is embedded below from
      its scalar C implementation (npysort/quicksort.cpp and
      npysort/heapsort.cpp).  The contract is proved of that embedding,
      not assumed. *)

From Stdlib Require Import List String Ascii ZArith QArith Bool Arith Lia.
From Stdlib Require Import Permutation Sorted.
Import ListNotations.

Open Scope string_scope.
Open Scope Z_scope.

(* ------------------------------------------------------------------ *)
(** * Python strings *)

Module PyStr.

(** [find_from pat s i]: offset of the first occurrence of [pat] in [s],
    counted from [i]. *)
Fixpoint find_from (pat s : string) (i : nat) : option nat :=
  if String.prefix pat s then Some i
  else match s with
       | EmptyString => None
       | String _ s' => find_from pat s' (S i)
       end.

(** [rfind_from pat s i]: offset of the last occurrence. *)
Fixpoint rfind_from (pat s : string) (i : nat) : option nat :=
  match s with
  | EmptyString => if String.prefix pat s then Some i else None
  | String _ s' =>
      match rfind_from pat s' (S i) with
      | Some j => Some j
      | None => if String.prefix pat s then Some i else None
      end
  end.

(** [pat in s] *)
Definition contains (pat s : string) : bool :=
  match find_from pat s 0 with Some _ => true | None => false end.

(** [s.find(pat)] *)
Definition find (s pat : string) : Z :=
  match find_from pat s 0 with Some i => Z.of_nat i | None => -1 end.

(** [s.rfind(pat)] *)
Definition rfind (s pat : string) : Z :=
  match rfind_from pat s 0 with Some i => Z.of_nat i | None => -1 end.

(** [drop n s]: [s[n:]] for a natural [n]. *)
Fixpoint drop (n : nat) (s : string) : string :=
  match n, s with
  | O, _ => s
  | S n', String _ s' => drop n' s'
  | S _, EmptyString => EmptyString
  end.

(** [s.endswith(suf)] *)
Definition endswith (s suf : string) : bool :=
  (String.length suf <=? String.length s)%nat
  && String.eqb (drop (String.length s - String.length suf) s) suf.

(** Normalisation of one slice bound: a negative bound counts from the end,
    and the result is clamped to [0 .. len]. *)
Definition slice_bound (len : nat) (i : Z) : nat :=
  let j := if i <? 0 then i + Z.of_nat len else i in
  if j <? 0 then O
  else if Z.of_nat len <? j then len
  else Z.to_nat j.

(** [s[start:stop]] *)
Definition slice (s : string) (start stop : Z) : string :=
  let n := String.length s in
  let a := slice_bound n start in
  let b := slice_bound n stop in
  String.substring a (b - a) s.

End PyStr.

(* ------------------------------------------------------------------ *)
(** * Python dictionaries with string keys, in insertion order *)

Module Dict.

Section WithValues.
Context {V : Type}.

Definition t := list (string * V).

(** [d[k]], [None] standing for [KeyError]. *)
Fixpoint get (d : t) (k : string) : option V :=
  match d with
  | [] => None
  | (k', v) :: d' => if String.eqb k' k then Some v else get d' k
  end.

(** [k in d] *)
Definition mem (d : t) (k : string) : bool :=
  match get d k with Some _ => true | None => false end.

(** [d[k] = v]: an existing key keeps its place. *)
Fixpoint set (d : t) (k : string) (v : V) : t :=
  match d with
  | [] => [(k, v)]
  | (k', v') :: d' =>
      if String.eqb k' k then (k', v) :: d' else (k', v') :: set d' k v
  end.

Definition keys (d : t) : list string := map fst d.

End WithValues.

Arguments t : clear implicits.

End Dict.

(* ------------------------------------------------------------------ *)
(** * parse_columns *)

Record Meta := mkMeta {
  m_type : string;
  m_category : string;
  m_course : string
}.

Definition ColMap := Dict.t Meta.

Definition rank_categories : list string :=
  ["Most Beneficial"; "Neutral"; "Least Beneficial"].

(** [f" - Ranks - {cat} - "] *)
Definition category_segment (cat : string) : string :=
  " - Ranks - " ++ cat ++ " - ".

Definition rank_suffix : string := " - Rank".

Definition warning (col : string) : string :=
  "Warning: Could not identify category in column: " ++ col.

(** The course type a header announces (lines 22-27). *)
Definition column_type (col : string) : option string :=
  if PyStr.contains "MAcc CORE courses" col then Some "CORE"
  else if PyStr.contains "MAcc Elective courses" col then Some "ELECTIVE"
  else None.

(** The inner [for cat in ...: if ... in col: found_cat = cat; break]
    (lines 38-42). *)
Definition find_category (col : string) : option string :=
  List.find (fun cat => PyStr.contains (category_segment cat) col)
            (rank_categories ++ ["Did not take"])%list.

(** One iteration of the loop over the headers.  The state is the map built
    so far together with the lines printed so far. *)
Definition parse_column (st : ColMap * list string) (col : string)
  : ColMap * list string :=
  let (col_map, out) := st in
  match column_type col with
  | None => st
  | Some c_type =>
      if negb (PyStr.contains " - Ranks - " col) then st
      else if negb (PyStr.endswith col rank_suffix) then st
      else
        match find_category col with
        | None => (col_map, (out ++ [warning col])%list)
        | Some found_cat =>
            if String.eqb found_cat EmptyString
            then (col_map, (out ++ [warning col])%list)
            else
              let prefix := category_segment found_cat in
              let start_idx :=
                PyStr.find col prefix + Z.of_nat (String.length prefix) in
              let end_idx := PyStr.rfind col rank_suffix in
              if (start_idx =? -1) || (end_idx =? -1) then st
              else
                let course_name := PyStr.slice col start_idx end_idx in
                (Dict.set col_map col (mkMeta c_type found_cat course_name),
                 out)
        end
  end.

Definition parse_columns (columns : list string) : ColMap * list string :=
  fold_left parse_column columns ([], []).

(* ------------------------------------------------------------------ *)
(** * The data table, the world and the monad of [process_rankings] *)

(** A cell: [pd.isna(val)] holds of [NaN] only. *)
Inductive cell := NaN | Num (v : Z).

(** One row as [iterrows] yields it: labels with their values.  The labels
    of a table are distinct, as pandas makes them when it reads a sheet. *)
Definition Series := Dict.t cell.

Record DataFrame := mkDataFrame {
  columns : list string;
  values : list (list cell)
}.

(** What the caller shares with [process_rankings]. *)
Record World := mkWorld {
  w_df : DataFrame;
  w_col_map : ColMap
}.

Inductive Exn := KeyError (key : string) | ZeroDivisionError.

Inductive result (A : Type) := Ok (a : A) | Raise (e : Exn).
Arguments Ok {A} a.
Arguments Raise {A} e.

Definition M (A : Type) : Type := World -> result A * World.

Definition ret {A} (a : A) : M A := fun w => (Ok a, w).

Definition raise {A} (e : Exn) : M A := fun w => (Raise e, w).

Definition bind {A B} (m : M A) (f : A -> M B) : M B :=
  fun w =>
    match m w with
    | (Ok a, w') => f a w'
    | (Raise e, w') => (Raise e, w')
    end.

Notation "x <- m ;; k" := (bind m (fun x => k))
  (at level 61, m at next level, right associativity).

(** A [for] loop whose body may raise: the accumulator is what the body
    updates. *)
Fixpoint foldM {A B} (f : B -> A -> M B) (l : list A) (b : B) : M B :=
  match l with
  | [] => ret b
  | a :: l' => b' <- f b a ;; foldM f l' b'
  end.

Definition eval {A} (m : M A) (w : World) : result A := fst (m w).

Fixpoint enumerate_from {A} (n : nat) (l : list A) : list (nat * A) :=
  match l with
  | [] => []
  | a :: l' => (n, a) :: enumerate_from (S n) l'
  end.

Definition enumerate {A} (l : list A) : list (nat * A) := enumerate_from 0 l.

(** [col_map.items()] *)
Definition col_map_items : M (list (string * Meta)) :=
  fun w => (Ok (w_col_map w), w).

(** [col_map[col]] *)
Definition col_map_getitem (col : string) : M Meta :=
  fun w =>
    (match Dict.get (w_col_map w) col with
     | Some meta => Ok meta
     | None => Raise (KeyError col)
     end, w).

(** [df.iterrows()]: each row comes as a fresh [Series]. *)
Definition iterrows : M (list (nat * Series)) :=
  fun w =>
    (Ok (enumerate (map (combine (columns (w_df w))) (values (w_df w)))), w).

(** [row[col]] *)
Definition series_getitem (row : Series) (col : string) : M cell :=
  match Dict.get row col with
  | Some val => ret val
  | None => raise (KeyError col)
  end.

(* ------------------------------------------------------------------ *)
(** * Sorting *)

Section Insertion.
Context {A : Type} (before : A -> A -> bool).

(** [x] goes in front of the first element that is not [before] it. *)
Fixpoint insert (x : A) (l : list A) : list A :=
  match l with
  | [] => [x]
  | y :: l' => if before y x then y :: insert x l' else x :: y :: l'
  end.

Definition insertion_sort (l : list A) : list A := fold_right insert [] l.

End Insertion.

(** A student's rating of one course (lines 113-117). *)
Record Item := mkItem {
  course : string;
  cat_priority : Z;
  rank_val : Z
}.

(** [(x["cat_priority"], x["rank_val"])] compared as Python compares
    tuples. *)
Definition key_lt (a b : Item) : bool :=
  (cat_priority a <? cat_priority b)
  || ((cat_priority a =? cat_priority b) && (rank_val a <? rank_val b)).

(** [list.sort(key=...)].  Python guarantees the sort stable, and a stable
    sort has one possible result: an element moves in front of exactly those
    with a strictly greater key. *)
Definition list_sort (l : list Item) : list Item := insertion_sort key_lt l.

(* ------------------------------------------------------------------ *)
(** * process_rankings *)

Record ResultRow := mkRow {
  Course : string;
  Average_Rank : Q;
  Count : nat
}.

(** Lines 104-110. *)
Definition category_priority (cat : string) : Z :=
  if String.eqb cat "Most Beneficial" then 1
  else if String.eqb cat "Neutral" then 2
  else if String.eqb cat "Least Beneficial" then 3
  else 0.

(** Body of the loop over [type_cols] (lines 87-117). *)
Definition student_courses_step (row : Series) (student_courses : list Item)
    (col : string) : M (list Item) :=
  meta <- col_map_getitem col ;;
  val <- series_getitem row col ;;
  match val with
  | NaN => ret student_courses
  | Num v =>
      let cat := m_category meta in
      let course := m_course meta in
      if String.eqb cat "Did not take" then ret student_courses
      else
        let cat_priority := category_priority cat in
        ret (student_courses ++ [mkItem course cat_priority v])%list
  end.

(** [d[k].append(v)], for a key that is present.  (On an absent key Python
    raises; the only caller has just inserted the key.) *)
Fixpoint append_at (d : Dict.t (list Z)) (k : string) (v : Z)
  : Dict.t (list Z) :=
  match d with
  | [] => []
  | (k', vs) :: d' =>
      if String.eqb k' k then (k', (vs ++ [v])%list) :: d'
      else (k', vs) :: append_at d' k v
  end.

(** Body of the loop over [enumerate(student_courses)] (lines 125-131). *)
Definition rank_step (course_rank_lists : Dict.t (list Z))
    (p : nat * Item) : Dict.t (list Z) :=
  let (i, item) := p in
  let global_rank := Z.of_nat i + 1 in
  let course_name := course item in
  let course_rank_lists :=
    if negb (Dict.mem course_rank_lists course_name)
    then Dict.set course_rank_lists course_name []
    else course_rank_lists in
  append_at course_rank_lists course_name global_rank.

(** Lines 84-117: the ratings of one respondent. *)
Definition student_courses (type_cols : list string) (row : Series)
  : M (list Item) :=
  foldM (student_courses_step row) type_cols [].

(** Body of the loop over the rows (lines 83-131). *)
Definition process_row (type_cols : list string)
    (course_rank_lists : Dict.t (list Z)) (p : nat * Series)
  : M (Dict.t (list Z)) :=
  let (idx, row) := p in
  student_courses <- student_courses type_cols row ;;
  let student_courses := list_sort student_courses in
  ret (fold_left rank_step (enumerate student_courses) course_rank_lists).

Definition py_sum (l : list Z) : Z := fold_left Z.add l 0.

(** [a / n] on integers: the exact quotient, or [ZeroDivisionError]. *)
Definition true_div (a : Z) (n : nat) : M Q :=
  match n with
  | O => raise ZeroDivisionError
  | S _ => ret (a # Pos.of_nat n)
  end.

(** Body of the loop over [course_rank_lists.items()] (lines 136-141). *)
Definition result_step (results : list ResultRow) (p : string * list Z)
  : M (list ResultRow) :=
  let (course, ranks) := p in
  avg_rank <- true_div (py_sum ranks) (List.length ranks) ;;
  ret (results ++ [mkRow course avg_rank (List.length ranks)])%list.

(** [type_cols] (line 74). *)
Definition select_type_cols (items : list (string * Meta))
    (course_type : string) : list string :=
  map fst
      (filter (fun cm => String.eqb (m_type (snd cm)) course_type) items).

Section WithSortValues.

(** [DataFrame.sort_values("Average Rank")] with pandas' default [kind]. *)
Variable sort_values : list ResultRow -> list ResultRow.

Definition process_rankings (course_type : string) : M (list ResultRow) :=
  items <- col_map_items ;;
  let type_cols := select_type_cols items course_type in
  rows <- iterrows ;;
  course_rank_lists <- foldM (process_row type_cols) rows [] ;;
  results <- foldM result_step course_rank_lists [] ;;
  ret (match results with
       | [] => results
       | _ :: _ => sort_values results
       end).

End WithSortValues.

(** ** What pandas promises of [sort_values], and a stable sort *)

Definition avg_le (a b : ResultRow) : Prop :=
  (Average_Rank a <= Average_Rank b)%Q.

Definition sorts_ascending (sort_values : list ResultRow -> list ResultRow)
  : Prop :=
  forall l, Permutation (sort_values l) l
            /\ StronglySorted avg_le (sort_values l).

Definition ties (q : Q) (r : ResultRow) : bool := Qeq_bool (Average_Rank r) q.

(** A stable sort keeps the relative order of the rows with equal keys. *)
Definition stable (sort_values : list ResultRow -> list ResultRow) : Prop :=
  forall l q, filter (ties q) (sort_values l) = filter (ties q) l.

Definition avg_lt (a b : ResultRow) : bool :=
  negb (Qle_bool (Average_Rank b) (Average_Rank a)).

(** [kind='stable']. *)
Definition sort_values_stable : list ResultRow -> list ResultRow :=
  insertion_sort avg_lt.

(* ------------------------------------------------------------------ *)
(** * The sort behind [sort_values]

    [results_df.sort_values("Average Rank")] sorts on one column with the
    default [kind], 'quicksort': pandas passes the column to numpy's
    [argsort] and reorders the rows by the indices that come back.  numpy's
    quicksort on an index array ([aquicksort] in npysort/quicksort.cpp) is
    an introsort: while a segment spans more than [SMALL_QUICKSORT] = 16
    positions it is partitioned around the median of its first, middle and
    last element, the larger part is put on a stack and the smaller one
    partitioned further; a segment that has become small is finished by an
    insertion sort; a segment taken from the stack after the depth budget
    of twice the binary logarithm of the array length is used up is
    heap-sorted.  The index array is modelled by the list of the rows in
    their current order: moving an index moves the row.  A read or a swap
    outside the array, which the C code never does, is modelled as having
    no effect.  This is the scalar code that every build of numpy
    contains; a build that hands a column of floats to a vectorised
    kernel of the processor instead is not modelled. *)

Section Introsort.
Context {A : Type} (less : A -> A -> bool).

Fixpoint set_nth (i : nat) (x : A) (l : list A) : list A :=
  match l, i with
  | [], _ => []
  | _ :: l', O => x :: l'
  | y :: l', S i' => y :: set_nth i' x l'
  end.

(** [INTP_SWAP(tosort[i], tosort[j])] *)
Definition swap (i j : nat) (l : list A) : list A :=
  match nth_error l i, nth_error l j with
  | Some a, Some b => set_nth i b (set_nth j a l)
  | _, _ => l
  end.

(** [less(v[tosort[i]], v[tosort[j]])] *)
Definition less_at (l : list A) (i j : nat) : bool :=
  match nth_error l i, nth_error l j with
  | Some a, Some b => less a b
  | _, _ => false
  end.

(** [if (less(v[b], v[a])) swap(b, a)], on positions of the index array. *)
Definition order2 (a b : nat) (l : list A) : list A :=
  if less_at l b a then swap b a l else l.

(** [do { ++pi; } while (less(v[pi], vp));] *)
Fixpoint scan_up (fuel : nat) (vp : A) (l : list A) (pi : nat) : nat :=
  match fuel with
  | O => S pi
  | S f =>
      match nth_error l (S pi) with
      | Some x => if less x vp then scan_up f vp l (S pi) else S pi
      | None => S pi
      end
  end.

(** [do { --pj; } while (less(vp, v[pj]));] *)
Fixpoint scan_down (fuel : nat) (vp : A) (l : list A) (pj : nat) : nat :=
  match fuel with
  | O => pred pj
  | S f =>
      match nth_error l (pred pj) with
      | Some x => if less vp x then scan_down f vp l (pred pj) else pred pj
      | None => pred pj
      end
  end.

(** The [for (;;)] loop of the partition: both pointers advance, and the
    two elements they stop at are exchanged until the pointers meet. *)
Fixpoint hoare (fuel : nat) (vp : A) (l : list A) (pi pj : nat)
  : list A * nat :=
  let pi := scan_up (List.length l) vp l pi in
  let pj := scan_down (List.length l) vp l pj in
  if (pj <=? pi)%nat then (l, pi)
  else
    match fuel with
    | O => (l, pi)
    | S f => hoare f vp (swap pi pj l) pi pj
    end.

(** One partition of the segment [l] (so [pl] is 0 and [pr] its last
    position): median of three, the pivot parked at [pr - 1], the scan,
    the pivot moved to where the pointers met.  The result is the segment
    and the final position of the pivot. *)
Definition partition (l : list A) : list A * nat :=
  let pr := (List.length l - 1)%nat in
  let pm := (pr / 2)%nat in
  let l := order2 0 pm l in
  let l := order2 pm pr l in
  let l := order2 0 pm l in
  match nth_error l pm with
  | None => (l, O)
  | Some vp =>
      let l := swap pm (pr - 1) l in
      let (l, pi) := hoare (List.length l) vp l 0 (pr - 1) in
      (swap pi (pr - 1) l, pi)
  end.

(** The insertion sort that finishes a small segment: each element in turn
    moves left past the elements of the sorted prefix that are greater
    than it.  The prefix is held with its last element first. *)
Fixpoint shift_in (x : A) (rp : list A) : list A :=
  match rp with
  | [] => [x]
  | y :: rp' => if less x y then y :: shift_in x rp' else x :: rp
  end.

Definition np_insertion (l : list A) : list A :=
  rev (fold_left (fun rp x => shift_in x rp) l []).

(** [a[k]] and [a[k] = x] for the array [a = tosort - 1] of the heap sort,
    whose positions count from 1. *)
Definition at1 (l : list A) (k : nat) : option A := nth_error l (k - 1).

Definition put1 (k : nat) (x : A) (l : list A) : list A :=
  set_nth (k - 1) x l.

(** The inner [for (i = ..., j = ...; j <= n;)] of the heap sort: the hole
    at [i] moves down to the greater child as long as that child is
    greater than [tmp]; then [tmp] fills the hole. *)
Fixpoint sift (fuel : nat) (tmp : A) (l : list A) (i j n : nat) : list A :=
  match fuel with
  | O => put1 i tmp l
  | S f =>
      if (j <=? n)%nat then
        let j :=
          if (j <? n)%nat
             && match at1 l j, at1 l (j + 1) with
                | Some x, Some y => less x y
                | _, _ => false
                end
          then (j + 1)%nat else j in
        match at1 l j with
        | Some aj =>
            if less tmp aj then sift f tmp (put1 i aj l) j (j + j)%nat n
            else put1 i tmp l
        | None => put1 i tmp l
        end
      else put1 i tmp l
  end.

(** [for (l = n >> 1; l > 0; --l)] *)
Fixpoint heapify (k n : nat) (l : list A) : list A :=
  match k with
  | O => l
  | S k' =>
      let l :=
        match at1 l k with
        | Some tmp => sift n tmp l k (2 * k)%nat n
        | None => l
        end in
      heapify k' n l
  end.

(** [for (; n > 1;) { tmp = a[n]; a[n] = a[1]; n -= 1; ... }] *)
Fixpoint extract (n : nat) (l : list A) : list A :=
  match n with
  | O => l
  | S n' =>
      match n' with
      | O => l
      | S _ =>
          match at1 l n, at1 l 1 with
          | Some tmp, Some a1 =>
              extract n' (sift n tmp (put1 n a1 l) 1 2 n')
          | _, _ => l
          end
      end
  end.

Definition np_heapsort (l : list A) : list A :=
  let n := List.length l in
  extract n (heapify (n / 2) n l).

Definition SMALL_QUICKSORT : nat := 16.

(** The sort of one segment.  [popped] tells whether the segment was taken
    from the stack (or is the whole array): only then is the depth budget
    looked at. *)
Fixpoint quicksort_from (fuel : nat) (popped : bool) (cdepth : Z)
    (l : list A) : list A :=
  match fuel with
  | O => l
  | S f =>
      if popped && (cdepth <? 0) then np_heapsort l
      else if (SMALL_QUICKSORT <? List.length l - 1)%nat then
        let (l', pi) := partition l in
        match nth_error l' pi with
        | None => l'
        | Some pivot =>
            let left := firstn pi l' in
            let right := skipn (S pi) l' in
            let cdepth := cdepth - 1 in
            if (pi <? List.length l - 1 - pi)%nat
            then (quicksort_from f false cdepth left
                  ++ pivot :: quicksort_from f true cdepth right)%list
            else (quicksort_from f true cdepth left
                  ++ pivot :: quicksort_from f false cdepth right)%list
        end
      else np_insertion l
  end.

(** [cdepth = npy_get_msb(num) * 2] *)
Definition np_quicksort (l : list A) : list A :=
  quicksort_from (S (List.length l)) true
                 (2 * Z.log2 (Z.of_nat (List.length l))) l.

End Introsort.

(** ** What the proof that it sorts speaks of *)

(** [a] is not after [b] in the order of [less]. *)
Definition not_after {A} (less : A -> A -> bool) (a b : A) : Prop :=
  less b a = false.

(** The heap of the heap sort: the element at position [c] is not after
    the one at position [p]. *)
Definition dominates {A} (less : A -> A -> bool) (l : list A) (p c : nat)
  : Prop :=
  forall x y, at1 l p = Some x -> at1 l c = Some y -> not_after less y x.

(** The node [k] is not before its children, among the first [n]
    positions. *)
Definition node_ok {A} (less : A -> A -> bool) (l : list A) (n k : nat)
  : Prop :=
  ((2 * k <= n)%nat -> dominates less l k (2 * k))
  /\ ((2 * k + 1 <= n)%nat -> dominates less l k (2 * k + 1)).

(** Every node from [lo] on is not before its children. *)
Definition heap_from {A} (less : A -> A -> bool) (l : list A) (lo n : nat)
  : Prop :=
  forall k, (lo <= k)%nat -> node_ok less l n k.

(** The state of the inner loop of the heap sort, with the hole at [i]:
    every node but the hole is in order, and the node above the hole is
    not before [tmp] nor before the children of the hole. *)
Definition sift_inv {A} (less : A -> A -> bool) (tmp : A) (l : list A)
    (lo n i : nat) : Prop :=
  (1 <= lo <= i)%nat /\ (i <= n <= List.length l)%nat
  /\ (forall k, (lo <= k)%nat -> k <> i -> node_ok less l n k)
  /\ forall p, (lo <= p)%nat -> (i = 2 * p \/ i = 2 * p + 1)%nat ->
       (forall x, at1 l p = Some x -> not_after less tmp x)
       /\ ((2 * i <= n)%nat -> dominates less l p (2 * i))
       /\ ((2 * i + 1 <= n)%nat -> dominates less l p (2 * i + 1)).

(** [sort_values("Average Rank")] as the program calls it. *)
Definition sort_values_default : list ResultRow -> list ResultRow :=
  np_quicksort avg_lt.

(** ** A survey of eighteen courses *)

Definition course_numbers : list string :=
  ["01"; "02"; "03"; "04"; "05"; "06"; "07"; "08"; "09";
   "10"; "11"; "12"; "13"; "14"; "15"; "16"; "17"; "18"].

Definition eighteen_columns : list string :=
  map (fun n => "Q5 MAcc CORE courses - Ranks - Most Beneficial - Course "
                ++ n ++ " - Rank")%string
      course_numbers.

(** The first respondent ranks the courses 1 to 18, the second one 18
    to 1: every course has the global ranks [i] and [19 - i]. *)
Definition upward : list cell := map (fun i => Num (Z.of_nat i)) (seq 1 18).

Definition downward : list cell := rev upward.

Definition eighteen_world : World :=
  mkWorld (mkDataFrame eighteen_columns [upward; downward])
          (fst (parse_columns eighteen_columns)).

(** Every course of that survey ends with the average 19/2 over two
    ratings. *)
Definition tied_course (n : string) : ResultRow :=
  mkRow ("Course " ++ n) (19 # 2) 2.

(** The table of [eighteen_world] before the sort, and as the sort leaves
    it.  With eighteen equal keys the segment is partitioned once: the
    median of three exchanges nothing, the pivot (position 8) is parked at
    position 16, the two pointers stop at every position and exchange 1
    with 15, 2 with 14, ..., 7 with 9 until they meet at 8, and the pivot
    comes back to position 8; the two parts, of 8 and 9 rows, are then
    insertion-sorted, which moves nothing. *)
Definition eighteen_first_seen : list ResultRow :=
  map tied_course
      ["01"; "02"; "03"; "04"; "05"; "06"; "07"; "08"; "09";
       "10"; "11"; "12"; "13"; "14"; "15"; "16"; "17"; "18"].

Definition eighteen_sorted : list ResultRow :=
  map tied_course
      ["01"; "16"; "15"; "14"; "13"; "12"; "11"; "10"; "09";
       "08"; "07"; "06"; "05"; "04"; "03"; "02"; "17"; "18"].

(** The same survey with the two respondents exchanged: the courses are
    first seen from 18 down to 01. *)
Definition eighteen_permuted_first_seen : list ResultRow :=
  map tied_course
      ["18"; "17"; "16"; "15"; "14"; "13"; "12"; "11"; "10";
       "09"; "08"; "07"; "06"; "05"; "04"; "03"; "02"; "01"].

Definition eighteen_permuted_sorted : list ResultRow :=
  map tied_course
      ["18"; "03"; "04"; "05"; "06"; "07"; "08"; "09"; "10";
       "11"; "12"; "13"; "14"; "15"; "16"; "17"; "02"; "01"].

(* ------------------------------------------------------------------ *)
(** * Vocabulary of the properties *)

(** The rows of a table, as [iterrows] hands them out. *)
Definition rows_of (df : DataFrame) : list Series :=
  map (combine (columns df)) (values df).

(** The row carries every one of the columns. *)
Definition has_cols (cols : list string) (row : Series) : bool :=
  forallb (Dict.mem row) cols.

(** The rating, if any, that a respondent's cell in column [col] gives
    rise to: none for an empty cell and none for "Did not take". *)
Definition rating (col_map : ColMap) (row : Series) (col : string)
  : list Item :=
  match Dict.get col_map col, Dict.get row col with
  | Some meta, Some (Num v) =>
      if String.eqb (m_category meta) "Did not take" then []
      else [mkItem (m_course meta) (category_priority (m_category meta)) v]
  | _, _ => []
  end.

(** The column holds a non-empty, non-"Did not take" rating in this row. *)
Definition rated (col_map : ColMap) (row : Series) (col : string) : bool :=
  match Dict.get col_map col, Dict.get row col with
  | Some meta, Some (Num _) => negb (String.eqb (m_category meta) "Did not take")
  | _, _ => false
  end.

(** Number of ratings of the given type in one row: the [k] of the
    specification. *)
Definition rated_count (col_map : ColMap) (course_type : string)
    (row : Series) : nat :=
  List.length (filter (rated col_map row)
                      (select_type_cols col_map course_type)).

(** The same, restricted to the columns that name course [c]. *)
Definition rated_for (col_map : ColMap) (row : Series) (c : string)
    (col : string) : bool :=
  rated col_map row col
  && match Dict.get col_map col with
     | Some meta => String.eqb (m_course meta) c
     | None => false
     end.

(** Number of rating entries for course [c] over the whole table. *)
Definition entries (col_map : ColMap) (course_type : string)
    (rows : list Series) (c : string) : nat :=
  list_sum
    (map (fun row =>
            List.length (filter (rated_for col_map row c)
                                (select_type_cols col_map course_type)))
         rows).

Definition row_items (col_map : ColMap) (course_type : string)
    (row : Series) : list Item :=
  flat_map (rating col_map row) (select_type_cols col_map course_type).

(** The (course, global rank) pairs one respondent contributes, in the
    order in which they reach the accumulator. *)
Definition row_events (col_map : ColMap) (course_type : string)
    (row : Series) : list (string * Z) :=
  map (fun p => (course (snd p), Z.of_nat (fst p) + 1))
      (enumerate (list_sort (row_items col_map course_type row))).

Definition events (col_map : ColMap) (course_type : string)
    (rows : list Series) : list (string * Z) :=
  flat_map (row_events col_map course_type) rows.

Definition add_key (seen : list string) (k : string) : list string :=
  if existsb (String.eqb k) seen then seen else (seen ++ [k])%list.

(** The distinct names of a sequence, each at its first occurrence. *)
Definition first_seen (l : list string) : list string :=
  fold_left add_key l [].

(** The ranks recorded for course [c], in order. *)
Definition ranks_of (c : string) (evs : list (string * Z)) : list Z :=
  map snd (filter (fun e => String.eqb (fst e) c) evs).

Definition row_for (evs : list (string * Z)) (c : string) : ResultRow :=
  mkRow c (py_sum (ranks_of c evs) # Pos.of_nat (List.length (ranks_of c evs)))
        (List.length (ranks_of c evs)).

(** The rows of the result before [sort_values]: one per course, in the
    order in which the courses entered the accumulator. *)
Definition unsorted_results (col_map : ColMap) (course_type : string)
    (rows : list Series) : list ResultRow :=
  let evs := events col_map course_type rows in
  map (row_for evs) (first_seen (map fst evs)).

(** Every rank held by the accumulator. *)
Definition all_ranks (d : Dict.t (list Z)) : list Z := List.concat (map snd d).

(** The categories whose delimited segment occurs in a header. *)
Definition category_matches (col : string) : list string :=
  filter (fun cat => PyStr.contains (category_segment cat) col)
         (rank_categories ++ ["Did not take"])%list.

(** The checks of lines 22-33: course type, ranking question, rank field. *)
Definition structural_ok (col : string) : bool :=
  match column_type col with
  | None => false
  | Some _ =>
      PyStr.contains " - Ranks - " col && PyStr.endswith col rank_suffix
  end.

(** No effect on the world: the computation hands back the table and the
    metadata map it was given. *)
Definition readonly {A} (m : M A) : Prop := forall w, snd (m w) = w.

(** What a run yields when its only possible failure is a missing column:
    the value [a] when the columns are there, a [KeyError] otherwise. *)
Definition yields {A} (present : bool) (a : A) (r : result A) : Prop :=
  if present then r = Ok a else exists c, r = Raise (KeyError c).

(** [d[k].append(v)] preceded by the creation of [d[k]] if need be: what
    one turn of the ranking loop does to the accumulator. *)
Definition push (d : Dict.t (list Z)) (e : string * Z) : Dict.t (list Z) :=
  append_at (if negb (Dict.mem d (fst e)) then Dict.set d (fst e) [] else d)
            (fst e) (snd e).

(** [d.get(k, [])] *)
Definition get_list (d : Dict.t (list Z)) (k : string) : list Z :=
  match Dict.get d k with Some l => l | None => [] end.


(* ------------------------------------------------------------------ *)
(** * Sample data *)

Definition col_A : string :=
  "Q5 MAcc CORE courses - Ranks - Most Beneficial - Course A - Rank".
Definition col_B : string :=
  "Q5 MAcc CORE courses - Ranks - Most Beneficial - Course B - Rank".
Definition col_C : string :=
  "Q5 MAcc CORE courses - Ranks - Neutral - Course C - Rank".
Definition col_D : string :=
  "Q5 MAcc CORE courses - Ranks - Least Beneficial - Course D - Rank".

Definition sample_columns : list string := [col_A; col_B; col_C; col_D].

Definition sample_col_map : ColMap := fst (parse_columns sample_columns).

(** The respondent of the specification's example: A "Most Beneficial" 2,
    B "Most Beneficial" 1, C "Neutral" 1. *)
Definition respondent_1 : list cell := [Num 2; Num 1; Num 1; NaN].

(** B "Most Beneficial" 3, D "Least Beneficial" 1. *)
Definition respondent_2 : list cell := [NaN; Num 3; NaN; Num 1].

Definition sample_world : World :=
  mkWorld (mkDataFrame sample_columns [respondent_1; respondent_2])
          sample_col_map.

(** A respondent who entered Course A twice, under "Most Beneficial" and
    under "Neutral". *)
Definition col_A_neutral : string :=
  "Q5 MAcc CORE courses - Ranks - Neutral - Course A - Rank".

Definition twice_world : World :=
  mkWorld (mkDataFrame [col_A; col_A_neutral; col_B]
                       [[Num 1; Num 1; Num 2]])
          (fst (parse_columns [col_A; col_A_neutral; col_B])).

(** Two respondents who each rate one course, with the same global rank. *)
Definition tie_world : World :=
  mkWorld (mkDataFrame sample_columns
                       [[Num 1; NaN; NaN; NaN]; [NaN; Num 1; NaN; NaN]])
          sample_col_map.

(** Three respondents; the last two are the rows of [tie_world] in the
    other order. *)
Definition three_rows : list (list cell) :=
  [[NaN; NaN; Num 1; Num 1]; [NaN; Num 1; NaN; NaN]; [Num 1; NaN; NaN; NaN]].

Definition three_rows_permuted : list (list cell) :=
  [[NaN; Num 1; NaN; NaN]; [NaN; NaN; Num 1; Num 1]; [Num 1; NaN; NaN; NaN]].

Definition three_world : World :=
  mkWorld (mkDataFrame sample_columns three_rows) sample_col_map.

(** The world with the rows of its table replaced. *)
Definition with_values (w : World) (vals : list (list cell)) : World :=
  mkWorld (mkDataFrame (columns (w_df w)) vals) (w_col_map w).

(** The four categories the header parser knows. *)
Definition recognized (cat : string) : bool :=
  existsb (String.eqb cat) (rank_categories ++ ["Did not take"])%list.

(** A metadata map the parser could not have produced: one category is
    none of the four. *)
Definition col_X : string :=
  "Q5 MAcc CORE courses - Ranks - Somewhat Beneficial - Course X - Rank".

Definition stray_world : World :=
  mkWorld (mkDataFrame [col_A; col_X] [[Num 1; Num 1]])
          [(col_A, mkMeta "CORE" "Most Beneficial" "Course A");
           (col_X, mkMeta "CORE" "Somewhat Beneficial" "Course X")].

(** A header in which two category segments occur. *)
Definition col_two_categories : string :=
  "Q5 MAcc CORE courses - Ranks - Neutral - Ranks - Most Beneficial - Course A - Rank".

(** A header of another field of the same question: no trailing rank
    marker. *)
Definition col_group : string :=
  "Q5 MAcc CORE courses - Ranks - Most Beneficial - Course A - Group".

(** The entry that lines 50-65 build for a header and its category. *)
Definition entry_for (c_type col cat : string) : Meta :=
  mkMeta c_type cat
         (PyStr.slice col
            (PyStr.find col (category_segment cat)
             + Z.of_nat (String.length (category_segment cat)))
            (PyStr.rfind col rank_suffix)).

(* ------------------------------------------------------------------ *)
(** * Vocabulary for the header parser *)

(** The header passes the structural checks and holds a category
    segment: it ends up in the map. *)
Definition accepted (col : string) : bool :=
  structural_ok col
  && match category_matches col with [] => false | _ :: _ => true end.

(** The header passes the structural checks and holds no category
    segment: it is reported. *)
Definition warned (col : string) : bool :=
  structural_ok col
  && match category_matches col with [] => true | _ :: _ => false end.

(** The metadata a header stands for, read off the header alone. *)
Definition entry_of (col : string) : option Meta :=
  match column_type col, category_matches col with
  | Some c_type, cat :: _ => Some (entry_for c_type col cat)
  | _, _ => None
  end.

(** A table whose second row has lost its last two cells. *)
Definition ragged_world : World :=
  mkWorld (mkDataFrame sample_columns [respondent_1; [NaN; Num 1]])
          sample_col_map.

(** Nobody answered: every cell is empty. *)
Definition silent_world : World :=
  mkWorld (mkDataFrame sample_columns
             [[NaN; NaN; NaN; NaN]; [NaN; NaN; NaN; NaN]])
          sample_col_map.

(** The ratings that share one sort key. *)
Definition same_key (p v : Z) (it : Item) : bool :=
  (cat_priority it =? p) && (rank_val it =? v).

(** Two respondents' worth of ties: A and B both "Most Beneficial" with
    rank value 1. *)
Definition tied_row : list cell := [Num 1; Num 1; NaN; NaN].

(** Every row of the table has one cell per column. *)
Definition rectangular (df : DataFrame) : bool :=
  forallb (fun vals => (List.length vals =? List.length (columns df))%nat)
          (values df).

(* ------------------------------------------------------------------ *)
(** * create_plot and main *)

(** What the program does to the outside world, in order: a line printed,
    a table printed, a chart written to a file, a table written as CSV.
    The rendering of a chart and the layout of a file belong to matplotlib
    and pandas; an event records what was handed to them.  Writing is taken
    to succeed. *)
Inductive Event :=
| Print (line : string)
| PrintTable (t : list ResultRow)
| SaveFig (path title : string) (t : list ResultRow)
| ToCsv (path : string) (t : list ResultRow).

(** [os.path.join(a, b)] on a POSIX system. *)
Definition path_join (a b : string) : string :=
  if String.prefix "/" b then b
  else if String.eqb a EmptyString || PyStr.endswith a "/" then (a ++ b)%string
  else (a ++ "/" ++ b)%string.

(** Lines 149-178. *)
Definition create_plot (df : list ResultRow) (title filename : string)
  : list Event :=
  match df with
  | [] => [Print ("No data for " ++ title)]
  | _ :: _ =>
      let output_path := path_join "outputs" filename in
      [SaveFig output_path title df; Print ("Saved plot to " ++ output_path)]
  end.

(** What [pd.read_excel] comes back with. *)
Inductive ReadOutcome := ReadOk (df : DataFrame) | ReadFails (e : string).

Definition data_path : string := "data/data.xlsx".

Section Main.

Variable sort_values : list ResultRow -> list ResultRow.

(** Lines 180-210.  The result is the trace of the run and the exception
    that ended it, if one did. *)
Definition main (path_exists : bool) (read_excel : ReadOutcome)
  : list Event * option Exn :=
  if negb path_exists
  then ([Print ("Error: " ++ data_path ++ " not found.")], None)
  else
    let out := [Print ("Reading " ++ data_path ++ "...")] in
    match read_excel with
    | ReadFails e => ((out ++ [Print ("Error reading file: " ++ e)])%list, None)
    | ReadOk df =>
        let out := (out ++ [Print "Parsing columns..."])%list in
        let (col_map, warnings) := parse_columns (columns df) in
        let out :=
          (out ++ map Print warnings
               ++ [Print "Processing CORE courses..."])%list in
        match process_rankings sort_values "CORE" (mkWorld df col_map) with
        | (Raise e, _) => (out, Some e)
        | (Ok core_df, w) =>
            let out :=
              (out ++ [PrintTable core_df]
                   ++ create_plot core_df "MAcc CORE Course Rankings"
                                  "core_rank_order.png"
                   ++ [Print "Processing ELECTIVE courses..."])%list in
            match process_rankings sort_values "ELECTIVE" w with
            | (Raise e, _) => (out, Some e)
            | (Ok elective_df, _) =>
                ((out ++ [PrintTable elective_df]
                      ++ create_plot elective_df
                           "MAcc ELECTIVE Course Rankings"
                           "elective_rank_order.png"
                      ++ [ToCsv "outputs/core_rankings.csv" core_df;
                          ToCsv "outputs/elective_rankings.csv" elective_df]
                 )%list, None)
            end
        end
    end.

End Main.

(** The table of [sample_world] with an elective column added. *)
Definition col_E : string :=
  "Q6 MAcc Elective courses - Ranks - Most Beneficial - Course E - Rank".

Definition survey : DataFrame :=
  mkDataFrame ["ResponseId"; col_A; col_B; col_E]
              [[Num 101; Num 2; Num 1; NaN]; [Num 102; NaN; Num 1; NaN]].

(** The event writes a CSV file. *)
Definition is_csv (e : Event) : bool :=
  match e with ToCsv _ _ => true | _ => false end.

(* ================================================================== *)
(** * Proofs *)

Example parse_core_header :
  parse_columns
    ["ResponseId";
     "Q5 MAcc CORE courses - Ranks - Most Beneficial - ACC 601 Tax - Rank";
     "Q5 MAcc CORE courses - Ranks - Most Beneficial - ACC 601 Tax - Group";
     "Q6 MAcc Elective courses - Ranks - Did not take - ACC 650 - Rank";
     "Q5 MAcc CORE courses - Ranks - Somewhat - ACC 601 Tax - Rank";
     "Q5 MAcc CORE courses - Ranks - Neutral - Rank"]
  = ([("Q5 MAcc CORE courses - Ranks - Most Beneficial - ACC 601 Tax - Rank",
       mkMeta "CORE" "Most Beneficial" "ACC 601 Tax");
      ("Q6 MAcc Elective courses - Ranks - Did not take - ACC 650 - Rank",
       mkMeta "ELECTIVE" "Did not take" "ACC 650");
      ("Q5 MAcc CORE courses - Ranks - Neutral - Rank",
       mkMeta "CORE" "Neutral" EmptyString)],
     [warning "Q5 MAcc CORE courses - Ranks - Somewhat - ACC 601 Tax - Rank"]).
Proof. vm_compute. reflexivity. Qed.

(* ------------------------------------------------------------------ *)
(** ** The monad *)

Lemma readonly_ret {A} (a : A) : readonly (ret a).
Proof. intro w; reflexivity. Qed.

Lemma readonly_raise {A} (e : Exn) : readonly (@raise A e).
Proof. intro w; reflexivity. Qed.

Lemma readonly_bind {A B} (m : M A) (f : A -> M B) :
  readonly m -> (forall a, readonly (f a)) -> readonly (x <- m ;; f x).
Proof.
  intros Hm Hf w. unfold bind.
  specialize (Hm w). destruct (m w) as [[a | e] w']; simpl in Hm; subst w'.
  - exact (Hf a w).
  - reflexivity.
Qed.

Lemma readonly_foldM {A B} (f : B -> A -> M B) (l : list A) :
  (forall b a, readonly (f b a)) -> forall b, readonly (foldM f l b).
Proof.
  intros Hf. induction l as [| a l IH]; intro b; simpl.
  - apply readonly_ret.
  - apply readonly_bind; [apply Hf | exact IH].
Qed.

Lemma run_readonly {A} (m : M A) (w : World) :
  readonly m -> m w = (eval m w, w).
Proof.
  intro Hm. unfold eval. rewrite <- (Hm w) at 3. apply surjective_pairing.
Qed.

Lemma eval_bind {A B} (m : M A) (f : A -> M B) (w : World) :
  readonly m ->
  eval (x <- m ;; f x) w
  = match eval m w with Ok a => eval (f a) w | Raise e => Raise e end.
Proof.
  intro Hm. unfold eval at 1, bind. rewrite (run_readonly m w Hm).
  destruct (eval m w); reflexivity.
Qed.

Lemma eval_ret {A} (a : A) (w : World) : eval (ret a) w = Ok a.
Proof. reflexivity. Qed.

Lemma readonly_col_map_items : readonly col_map_items.
Proof. intro w; reflexivity. Qed.

Lemma readonly_col_map_getitem (col : string) : readonly (col_map_getitem col).
Proof. intro w; reflexivity. Qed.

Lemma readonly_iterrows : readonly iterrows.
Proof. intro w; reflexivity. Qed.

Lemma readonly_series_getitem (row : Series) (col : string) :
  readonly (series_getitem row col).
Proof.
  unfold series_getitem. destruct (Dict.get row col).
  - apply readonly_ret.
  - apply readonly_raise.
Qed.

Lemma readonly_student_courses_step row sc col :
  readonly (student_courses_step row sc col).
Proof.
  unfold student_courses_step.
  apply readonly_bind; [apply readonly_col_map_getitem | intro meta].
  apply readonly_bind; [apply readonly_series_getitem | intros [| v]].
  - apply readonly_ret.
  - destruct (String.eqb (m_category meta) "Did not take"); apply readonly_ret.
Qed.

Lemma readonly_student_courses type_cols row :
  readonly (student_courses type_cols row).
Proof.
  apply readonly_foldM. intros; apply readonly_student_courses_step.
Qed.

Lemma readonly_process_row type_cols d p : readonly (process_row type_cols d p).
Proof.
  destruct p as [idx row]. unfold process_row.
  apply readonly_bind; [apply readonly_student_courses | intro sc].
  apply readonly_ret.
Qed.

Lemma readonly_true_div a n : readonly (true_div a n).
Proof.
  destruct n; [apply readonly_raise | apply readonly_ret].
Qed.

Lemma readonly_result_step results p : readonly (result_step results p).
Proof.
  destruct p as [c ranks]. unfold result_step.
  apply readonly_bind; [apply readonly_true_div | intro q; apply readonly_ret].
Qed.

Lemma readonly_process_rankings sort_values course_type :
  readonly (process_rankings sort_values course_type).
Proof.
  unfold process_rankings.
  apply readonly_bind; [apply readonly_col_map_items | intro items].
  apply readonly_bind; [apply readonly_iterrows | intro rows].
  apply readonly_bind;
    [apply readonly_foldM; intros; apply readonly_process_row | intro d].
  apply readonly_bind;
    [apply readonly_foldM; intros; apply readonly_result_step | intro rs].
  apply readonly_ret.
Qed.

(* ------------------------------------------------------------------ *)
(** ** Dictionaries *)

Lemma get_some_of_key {V} (d : Dict.t V) (k : string) :
  In k (Dict.keys d) -> exists v, Dict.get d k = Some v.
Proof.
  induction d as [| [k' v'] d IH]; simpl; [tauto |].
  intros [-> | Hin].
  - rewrite String.eqb_refl. eauto.
  - destruct (String.eqb k' k); eauto.
Qed.

Lemma select_type_cols_keys (items : ColMap) (ty c : string) :
  In c (select_type_cols items ty) -> In c (Dict.keys items).
Proof.
  unfold select_type_cols, Dict.keys. rewrite !in_map_iff.
  intros [p [Hp Hin]]. apply filter_In in Hin. exists p. tauto.
Qed.

(* ------------------------------------------------------------------ *)
(** ** One respondent: the ratings *)

Lemma yields_ok {A} (present : bool) (a b : A) (r : result A) :
  yields present a r -> r = Ok b -> present = true /\ b = a.
Proof.
  destruct present; simpl.
  - intros -> [= ->]. auto.
  - intros [c ->]. discriminate.
Qed.

Lemma eval_student_courses_step row sc col w :
  In col (Dict.keys (w_col_map w)) ->
  yields (Dict.mem row col) (sc ++ rating (w_col_map w) row col)%list
         (eval (student_courses_step row sc col) w).
Proof.
  intro Hk. destruct (get_some_of_key _ _ Hk) as [meta Hmeta].
  unfold student_courses_step.
  rewrite eval_bind by apply readonly_col_map_getitem.
  unfold eval at 1, col_map_getitem. simpl. rewrite Hmeta.
  rewrite eval_bind by apply readonly_series_getitem.
  unfold rating, Dict.mem, series_getitem. rewrite Hmeta.
  destruct (Dict.get row col) as [[| v] |]; simpl.
  - rewrite app_nil_r. reflexivity.
  - destruct (String.eqb (m_category meta) "Did not take"); simpl.
    + rewrite app_nil_r. reflexivity.
    + reflexivity.
  - eauto.
Qed.

Lemma eval_student_courses_loop row w cols :
  (forall c, In c cols -> In c (Dict.keys (w_col_map w))) ->
  forall sc,
    yields (has_cols cols row)
           (sc ++ flat_map (rating (w_col_map w) row) cols)%list
           (eval (foldM (student_courses_step row) cols sc) w).
Proof.
  induction cols as [| c cols IH]; intros Hk sc; simpl.
  - rewrite app_nil_r. reflexivity.
  - rewrite eval_bind by apply readonly_student_courses_step.
    pose proof (eval_student_courses_step row sc c w (Hk c (or_introl eq_refl)))
      as Hstep.
    destruct (Dict.mem row c); simpl in *.
    + rewrite Hstep. rewrite app_assoc. apply IH.
      intros c' Hc'. apply Hk. now right.
    + destruct Hstep as [c' ->]. eauto.
Qed.

Lemma eval_student_courses w ty row :
  yields (has_cols (select_type_cols (w_col_map w) ty) row)
         (row_items (w_col_map w) ty row)
         (eval (student_courses (select_type_cols (w_col_map w) ty) row) w).
Proof.
  unfold student_courses, row_items.
  apply (eval_student_courses_loop row w _ (select_type_cols_keys _ ty) []).
Qed.

(* ------------------------------------------------------------------ *)
(** ** The accumulator *)

Lemma mem_existsb {V} (d : Dict.t V) (k : string) :
  existsb (String.eqb k) (Dict.keys d) = Dict.mem d k.
Proof.
  unfold Dict.mem. induction d as [| [k' v'] d IH]; simpl; [reflexivity |].
  rewrite (String.eqb_sym k k'). destruct (String.eqb k' k); auto.
Qed.

Lemma set_absent {V} (d : Dict.t V) (k : string) (v : V) :
  Dict.mem d k = false -> Dict.set d k v = (d ++ [(k, v)])%list.
Proof.
  unfold Dict.mem. induction d as [| [k' v'] d IH]; simpl; [reflexivity |].
  destruct (String.eqb k' k); [discriminate |].
  intro H. now rewrite IH.
Qed.

Lemma keys_append_at d k v : Dict.keys (append_at d k v) = Dict.keys d.
Proof.
  induction d as [| [k' vs] d IH]; simpl; [reflexivity |].
  destruct (String.eqb k' k); simpl; [reflexivity | now rewrite IH].
Qed.

Lemma keys_push d e : Dict.keys (push d e) = add_key (Dict.keys d) (fst e).
Proof.
  unfold push, add_key. rewrite keys_append_at, mem_existsb.
  destruct (Dict.mem d (fst e)) eqn:Hm; simpl; [reflexivity |].
  rewrite set_absent by exact Hm. unfold Dict.keys. now rewrite map_app.
Qed.

Lemma get_list_append_at d k v k' :
  get_list (append_at d k v) k'
  = if String.eqb k' k && Dict.mem d k
    then (get_list d k ++ [v])%list else get_list d k'.
Proof.
  unfold get_list, Dict.mem.
  induction d as [| [k0 vs] d IH]; simpl.
  - now rewrite andb_false_r.
  - destruct (String.eqb k0 k) eqn:E0; simpl.
    + apply String.eqb_eq in E0. subst k0. rewrite andb_true_r.
      rewrite (String.eqb_sym k' k). destruct (String.eqb k k'); reflexivity.
    + destruct (String.eqb k0 k') eqn:E1.
      * apply String.eqb_eq in E1. subst k0. rewrite E0. reflexivity.
      * exact IH.
Qed.

Lemma get_list_snoc d k k' :
  Dict.mem d k = false ->
  get_list (d ++ [(k, [])])%list k' = get_list d k'.
Proof.
  unfold get_list, Dict.mem.
  induction d as [| [k0 vs] d IH]; simpl.
  - destruct (String.eqb k k'); reflexivity.
  - destruct (String.eqb k0 k); [discriminate |].
    destruct (String.eqb k0 k'); auto.
Qed.

Lemma mem_snoc d k : Dict.mem (d ++ [(k, @nil Z)])%list k = true.
Proof.
  unfold Dict.mem. induction d as [| [k0 vs] d IH]; simpl.
  - now rewrite String.eqb_refl.
  - destruct (String.eqb k0 k); auto.
Qed.

Lemma get_list_absent d k : Dict.mem d k = false -> get_list d k = [].
Proof.
  unfold get_list, Dict.mem. destruct (Dict.get d k); [discriminate | auto].
Qed.

Lemma get_list_push d e k' :
  get_list (push d e) k'
  = if String.eqb k' (fst e)
    then (get_list d k' ++ [snd e])%list else get_list d k'.
Proof.
  unfold push. rewrite get_list_append_at.
  destruct (Dict.mem d (fst e)) eqn:Hm; simpl.
  - rewrite Hm, andb_true_r. destruct (String.eqb k' (fst e)) eqn:E; auto.
    apply String.eqb_eq in E. now subst k'.
  - rewrite set_absent by exact Hm. rewrite mem_snoc, andb_true_r.
    rewrite !get_list_snoc by exact Hm.
    destruct (String.eqb k' (fst e)) eqn:E; auto.
    apply String.eqb_eq in E. subst k'. reflexivity.
Qed.

Lemma existsb_eqb_In (k : string) (l : list string) :
  existsb (String.eqb k) l = true <-> In k l.
Proof.
  rewrite existsb_exists. split.
  - intros [x [Hin E]]. apply String.eqb_eq in E. now subst.
  - intro Hin. exists k. split; [exact Hin | apply String.eqb_refl].
Qed.

Lemma NoDup_add_key (l : list string) (k : string) :
  NoDup l -> NoDup (add_key l k).
Proof.
  intro Hl. unfold add_key. destruct (existsb (String.eqb k) l) eqn:E.
  - exact Hl.
  - apply NoDup_app; [exact Hl | repeat constructor; simpl; tauto |].
    intros x Hx [<- | []].
    apply existsb_eqb_In in Hx. congruence.
Qed.

Lemma NoDup_fold_add_key (l seen : list string) :
  NoDup seen -> NoDup (fold_left add_key l seen).
Proof.
  revert seen. induction l as [| k l IH]; simpl; intros seen Hs.
  - exact Hs.
  - apply IH. now apply NoDup_add_key.
Qed.

Lemma NoDup_first_seen (l : list string) : NoDup (first_seen l).
Proof. apply NoDup_fold_add_key. constructor. Qed.

Lemma In_add_key (l : list string) (k x : string) :
  In x (add_key l k) <-> In x l \/ x = k.
Proof.
  unfold add_key. destruct (existsb (String.eqb k) l) eqn:E.
  - apply existsb_eqb_In in E. split; [tauto |]. intros [H | ->]; auto.
  - rewrite in_app_iff. simpl. intuition.
Qed.

Lemma In_fold_add_key (l seen : list string) (x : string) :
  In x (fold_left add_key l seen) <-> In x seen \/ In x l.
Proof.
  revert seen. induction l as [| k l IH]; simpl; intro seen.
  - tauto.
  - rewrite IH, In_add_key. intuition.
Qed.

Lemma In_first_seen (l : list string) (x : string) :
  In x (first_seen l) <-> In x l.
Proof. unfold first_seen. rewrite In_fold_add_key. simpl. tauto. Qed.

Lemma dict_items_of_keys d :
  NoDup (Dict.keys d) -> d = map (fun k => (k, get_list d k)) (Dict.keys d).
Proof.
  induction d as [| [k vs] d IH]; simpl; [reflexivity |].
  intro Hnd. inversion Hnd as [| ? ? Hnotin Hnd']; subst.
  unfold get_list at 1. simpl. rewrite String.eqb_refl. f_equal.
  rewrite IH at 1 by exact Hnd'.
  apply map_ext_in. intros k' Hk'. unfold get_list. simpl.
  destruct (String.eqb k k') eqn:E; [| reflexivity].
  apply String.eqb_eq in E. subst. contradiction.
Qed.

Lemma ranks_of_cons c e evs :
  ranks_of c (e :: evs)
  = if String.eqb c (fst e) then snd e :: ranks_of c evs else ranks_of c evs.
Proof.
  unfold ranks_of. simpl. rewrite (String.eqb_sym (fst e) c).
  destruct (String.eqb c (fst e)); reflexivity.
Qed.

Lemma fold_push evs :
  forall d,
    NoDup (Dict.keys d) ->
    fold_left push evs d
    = map (fun k => (k, (get_list d k ++ ranks_of k evs)%list))
          (fold_left add_key (map fst evs) (Dict.keys d)).
Proof.
  induction evs as [| e evs IH]; simpl; intros d Hnd.
  - rewrite (dict_items_of_keys d Hnd) at 1.
    apply map_ext. intro k. unfold ranks_of. simpl. now rewrite app_nil_r.
  - rewrite IH by (rewrite keys_push; now apply NoDup_add_key).
    rewrite keys_push. apply map_ext. intro k.
    rewrite get_list_push, ranks_of_cons.
    destruct (String.eqb k (fst e)); [| reflexivity].
    now rewrite <- app_assoc.
Qed.

Lemma fold_push_nil evs :
  fold_left push evs []
  = map (fun k => (k, ranks_of k evs)) (first_seen (map fst evs)).
Proof.
  rewrite fold_push by constructor. reflexivity.
Qed.

(* ------------------------------------------------------------------ *)
(** ** The loop over the rows *)

Lemma fold_left_map {A B C} (f : A -> C -> A) (g : B -> C) (l : list B) :
  forall a, fold_left f (map g l) a = fold_left (fun a x => f a (g x)) l a.
Proof. induction l as [| x l IH]; simpl; auto. Qed.

Lemma fold_rank_step (items : list (nat * Item)) d :
  fold_left rank_step items d
  = fold_left push
      (map (fun p => (course (snd p), Z.of_nat (fst p) + 1)) items) d.
Proof.
  rewrite fold_left_map. revert d.
  induction items as [| [i item] items IH]; simpl; intro d; [reflexivity |].
  apply IH.
Qed.

Lemma eval_process_row w ty d idx row :
  yields (has_cols (select_type_cols (w_col_map w) ty) row)
         (fold_left push (row_events (w_col_map w) ty row) d)
         (eval (process_row (select_type_cols (w_col_map w) ty) d (idx, row)) w).
Proof.
  unfold process_row.
  rewrite eval_bind by apply readonly_student_courses.
  pose proof (eval_student_courses w ty row) as H.
  destruct (has_cols (select_type_cols (w_col_map w) ty) row); simpl in *.
  - rewrite H. rewrite eval_ret, fold_rank_step. reflexivity.
  - destruct H as [c ->]. eauto.
Qed.

Lemma eval_rows_loop w ty rows :
  forall n d,
    yields (forallb (has_cols (select_type_cols (w_col_map w) ty)) rows)
           (fold_left push (events (w_col_map w) ty rows) d)
           (eval (foldM (process_row (select_type_cols (w_col_map w) ty))
                        (enumerate_from n rows) d) w).
Proof.
  induction rows as [| row rows IH]; intros n d;
    cbn [foldM enumerate_from forallb].
  - reflexivity.
  - rewrite eval_bind by apply readonly_process_row.
    pose proof (eval_process_row w ty d n row) as H.
    destruct (has_cols (select_type_cols (w_col_map w) ty) row); simpl in *.
    + rewrite H. unfold events. simpl. rewrite fold_left_app. apply IH.
    + destruct H as [c ->]. eauto.
Qed.

(* ------------------------------------------------------------------ *)
(** ** The statistics *)

Lemma ranks_of_nonempty c evs : In c (map fst evs) -> ranks_of c evs <> [].
Proof.
  induction evs as [| e evs IH]; simpl; [tauto |].
  rewrite ranks_of_cons. intros [<- | Hin].
  - rewrite String.eqb_refl. discriminate.
  - destruct (String.eqb c (fst e)); [discriminate | auto].
Qed.

Lemma eval_result_step results c ranks w :
  ranks <> [] ->
  eval (result_step results (c, ranks)) w
  = Ok (results
        ++ [mkRow c (py_sum ranks # Pos.of_nat (List.length ranks))
                  (List.length ranks)])%list.
Proof.
  intro Hne. unfold result_step.
  rewrite eval_bind by apply readonly_true_div.
  destruct ranks as [| r ranks]; [congruence |]. reflexivity.
Qed.

Lemma eval_results_loop evs w ks :
  (forall k, In k ks -> In k (map fst evs)) ->
  forall results,
    eval (foldM result_step (map (fun k => (k, ranks_of k evs)) ks) results) w
    = Ok (results ++ map (row_for evs) ks)%list.
Proof.
  induction ks as [| k ks IH]; intros Hin results; cbn [foldM map].
  - rewrite app_nil_r. reflexivity.
  - rewrite eval_bind by apply readonly_result_step.
    rewrite eval_result_step
      by (apply ranks_of_nonempty, Hin; now left).
    rewrite IH by (intros; apply Hin; now right).
    rewrite <- app_assoc. reflexivity.
Qed.

(** The run of [process_rankings], in closed form. *)
Lemma eval_process_rankings sort_values ty w :
  yields (forallb (has_cols (select_type_cols (w_col_map w) ty))
                  (rows_of (w_df w)))
         (match unsorted_results (w_col_map w) ty (rows_of (w_df w)) with
          | [] => []
          | r :: rs => sort_values (r :: rs)
          end)
         (eval (process_rankings sort_values ty) w).
Proof.
  unfold process_rankings.
  rewrite eval_bind by apply readonly_col_map_items.
  unfold eval at 1, col_map_items. simpl.
  rewrite eval_bind by apply readonly_iterrows.
  unfold eval at 1, iterrows, enumerate. simpl. fold (rows_of (w_df w)).
  rewrite eval_bind by (apply readonly_foldM; intros; apply readonly_process_row).
  pose proof (eval_rows_loop w ty (rows_of (w_df w)) 0 []) as H.
  destruct (forallb _ (rows_of (w_df w))); unfold yields in *.
  - match goal with
    | |- match ?x with Ok _ => _ | Raise _ => _ end = _ =>
        replace x with (Ok (fold_left push
                              (events (w_col_map w) ty (rows_of (w_df w))) []))
          by (symmetry; exact H)
    end.
    rewrite fold_push_nil.
    rewrite eval_bind by (apply readonly_foldM; intros; apply readonly_result_step).
    rewrite eval_results_loop by (intro k; apply In_first_seen).
    simpl. unfold unsorted_results.
    destruct (map _ (first_seen _)); reflexivity.
  - destruct H as [c H].
    match goal with
    | |- exists _, match ?x with Ok _ => _ | Raise _ => _ end = _ =>
        replace x with (@Raise (Dict.t (list Z)) (KeyError c))
          by (symmetry; exact H)
    end.
    eauto.
Qed.

Lemma process_rankings_ok sort_values ty w t :
  eval (process_rankings sort_values ty) w = Ok t ->
  forallb (has_cols (select_type_cols (w_col_map w) ty)) (rows_of (w_df w))
  = true
  /\ t = match unsorted_results (w_col_map w) ty (rows_of (w_df w)) with
         | [] => []
         | r :: rs => sort_values (r :: rs)
         end.
Proof.
  intro H. exact (yields_ok _ _ _ _ (eval_process_rankings sort_values ty w) H).
Qed.

(* ------------------------------------------------------------------ *)
(** ** Sorting *)

Section InsertionPerm.
Context {A : Type} (before : A -> A -> bool).

Lemma insert_perm (x : A) (l : list A) :
  Permutation (insert before x l) (x :: l).
Proof.
  induction l as [| y l IH]; simpl.
  - apply Permutation_refl.
  - destruct (before y x).
    + rewrite IH. apply perm_swap.
    + apply Permutation_refl.
Qed.

Lemma insertion_sort_perm (l : list A) :
  Permutation (insertion_sort before l) l.
Proof.
  induction l as [| x l IH]; simpl.
  - apply perm_nil.
  - rewrite insert_perm. now apply perm_skip.
Qed.

Variable le : A -> A -> Prop.
Hypothesis before_le : forall y x, before y x = true -> le y x.
Hypothesis not_before_le : forall y x, before y x = false -> le x y.
Hypothesis le_trans : forall x y z, le x y -> le y z -> le x z.

Lemma insert_sorted (x : A) (l : list A) :
  StronglySorted le l -> StronglySorted le (insert before x l).
Proof.
  induction 1 as [| y l Hs IH Hy]; simpl.
  - repeat constructor.
  - destruct (before y x) eqn:E.
    + constructor; [exact IH |].
      apply Forall_forall. intros z Hz.
      apply (Permutation_in _ (insert_perm x l)) in Hz.
      destruct Hz as [<- | Hz]; [now apply before_le |].
      now apply (proj1 (Forall_forall _ _) Hy).
    + apply not_before_le in E.
      constructor; [now constructor |].
      constructor; [exact E |].
      eapply Forall_impl; [| exact Hy]. intros z Hz. eapply le_trans; eauto.
Qed.

Lemma insertion_sort_sorted (l : list A) :
  StronglySorted le (insertion_sort before l).
Proof.
  induction l as [| x l IH]; simpl.
  - constructor.
  - now apply insert_sorted.
Qed.

End InsertionPerm.

Lemma list_sort_perm (l : list Item) : Permutation (list_sort l) l.
Proof. apply insertion_sort_perm. Qed.


Lemma sort_values_stable_ascending : sorts_ascending sort_values_stable.
Proof.
  intro l. split; [apply insertion_sort_perm |].
  apply insertion_sort_sorted; unfold avg_lt, avg_le.
  - intros y x H. apply negb_true_iff in H.
    apply Qlt_le_weak, Qnot_le_lt. intro Hle.
    apply Qle_bool_iff in Hle. congruence.
  - intros y x H. apply negb_false_iff in H. now apply Qle_bool_iff.
  - intros x y z. apply Qle_trans.
Qed.

Lemma insert_stable (q : Q) (x : ResultRow) (l : list ResultRow) :
  filter (ties q) (insert avg_lt x l) = filter (ties q) (x :: l).
Proof.
  induction l as [| y l IH]; [reflexivity |].
  cbn [insert]. destruct (avg_lt y x) eqn:E; [| reflexivity].
  cbn [filter] in *. rewrite IH.
  destruct (ties q x) eqn:Ex, (ties q y) eqn:Ey; try reflexivity.
  exfalso. unfold ties, avg_lt in *.
  apply Qeq_bool_iff in Ex, Ey. apply negb_true_iff in E.
  assert (Hle : (Average_Rank x <= Average_Rank y)%Q)
    by (rewrite Ex, Ey; apply Qle_refl).
  apply Qle_bool_iff in Hle. congruence.
Qed.

Lemma sort_values_stable_is_stable : stable sort_values_stable.
Proof.
  intros l q. induction l as [| x l IH]; [reflexivity |].
  unfold sort_values_stable in *. cbn [insertion_sort fold_right].
  fold (insertion_sort avg_lt l).
  rewrite insert_stable. cbn [filter]. now rewrite IH.
Qed.

(* ------------------------------------------------------------------ *)
(** ** The sort behind [sort_values]: it sorts *)

(** *** Arrays as lists *)

Lemma length_set_nth {A} (i : nat) (x : A) (l : list A) :
  List.length (set_nth i x l) = List.length l.
Proof.
  revert i. induction l as [| y l IH]; intros [| i]; simpl; auto.
Qed.

Lemma nth_error_set_nth_same {A} (i : nat) (x : A) (l : list A) :
  (i < List.length l)%nat -> nth_error (set_nth i x l) i = Some x.
Proof.
  revert i. induction l as [| y l IH]; intros [| i] H; simpl in *;
    try lia; auto.
  apply IH. lia.
Qed.

Lemma nth_error_set_nth_other {A} (i k : nat) (x : A) (l : list A) :
  k <> i -> nth_error (set_nth i x l) k = nth_error l k.
Proof.
  revert i k. induction l as [| y l IH]; intros [| i] [| k] H; simpl;
    try reflexivity; try congruence.
  apply IH. congruence.
Qed.

Lemma set_nth_app {A} (l1 : list A) (x y : A) (l2 : list A) :
  set_nth (List.length l1) x (l1 ++ y :: l2) = (l1 ++ x :: l2)%list.
Proof. induction l1 as [| a l1 IH]; simpl; [reflexivity | now rewrite IH]. Qed.

Lemma set_nth_app_r {A} (l1 : list A) (i : nat) (x : A) (l2 : list A) :
  set_nth (List.length l1 + i) x (l1 ++ l2) = (l1 ++ set_nth i x l2)%list.
Proof. induction l1 as [| a l1 IH]; simpl; [reflexivity | now rewrite IH]. Qed.

Lemma set_nth_id {A} (i : nat) (x : A) (l : list A) :
  nth_error l i = Some x -> set_nth i x l = l.
Proof.
  revert i. induction l as [| y l IH]; intros [| i] H; simpl in *;
    try discriminate.
  - now injection H as ->.
  - now rewrite IH.
Qed.

Lemma length_swap {A} (i j : nat) (l : list A) :
  List.length (swap i j l) = List.length l.
Proof.
  unfold swap. destruct (nth_error l i), (nth_error l j); auto.
  now rewrite !length_set_nth.
Qed.

Lemma swap_split {A} (i j : nat) (l : list A) (a b : A) :
  (i < j)%nat -> nth_error l i = Some a -> nth_error l j = Some b ->
  exists l1 l2 l3,
    l = (l1 ++ a :: l2 ++ b :: l3)%list
    /\ List.length l1 = i
    /\ List.length l2 = (j - i - 1)%nat.
Proof.
  intros Hij Hi Hj.
  destruct (nth_error_split l i Hi) as [l1 [r [-> Hl1]]].
  rewrite nth_error_app2 in Hj by lia. rewrite Hl1 in Hj.
  replace (j - i)%nat with (S (j - i - 1)) in Hj by lia. simpl in Hj.
  destruct (nth_error_split r _ Hj) as [l2 [l3 [-> Hl2]]].
  exists l1, l2, l3. auto.
Qed.

Lemma set_nth_far {A} (l1 l2 l3 : list A) (a b x : A) :
  set_nth (List.length l1 + S (List.length l2)) x (l1 ++ a :: l2 ++ b :: l3)
  = (l1 ++ a :: l2 ++ x :: l3)%list.
Proof.
  rewrite set_nth_app_r. simpl.
  replace (List.length l2) with (List.length l2 + 0)%nat by lia.
  now rewrite set_nth_app_r.
Qed.

Lemma Permutation_exchange {A} (l1 l2 l3 : list A) (a b : A) :
  Permutation (l1 ++ b :: l2 ++ a :: l3) (l1 ++ a :: l2 ++ b :: l3).
Proof.
  apply Permutation_app_head.
  change (Permutation ([b] ++ l2 ++ [a] ++ l3) ([a] ++ l2 ++ [b] ++ l3)).
  rewrite !app_assoc. apply Permutation_app_tail.
  rewrite (Permutation_app_comm ([b] ++ l2) [a]).
  rewrite (Permutation_app_comm ([a] ++ l2) [b]).
  simpl. apply perm_swap.
Qed.

Lemma Permutation_swap {A} (i j : nat) (l : list A) :
  Permutation (swap i j l) l.
Proof.
  unfold swap.
  destruct (nth_error l i) as [a |] eqn:Hi; [| apply Permutation_refl].
  destruct (nth_error l j) as [b |] eqn:Hj; [| apply Permutation_refl].
  destruct (Nat.lt_trichotomy i j) as [Hlt | [-> | Hgt]].
  - destruct (swap_split i j l a b Hlt Hi Hj) as [l1 [l2 [l3 [-> [H1 H2]]]]].
    replace j with (List.length l1 + S (List.length l2))%nat by lia.
    rewrite set_nth_far. rewrite <- H1, set_nth_app.
    apply Permutation_exchange.
  - rewrite Hi in Hj. injection Hj as ->.
    rewrite (set_nth_id j b l Hi). now rewrite (set_nth_id j b l Hi).
  - destruct (swap_split j i l b a Hgt Hj Hi) as [l1 [l2 [l3 [-> [H1 H2]]]]].
    replace i with (List.length l1 + S (List.length l2))%nat by lia.
    rewrite <- H1, set_nth_app, set_nth_far.
    apply Permutation_exchange.
Qed.

Lemma nth_error_swap_l {A} (i j : nat) (l : list A) :
  (i < List.length l)%nat -> (j < List.length l)%nat ->
  nth_error (swap i j l) i = nth_error l j.
Proof.
  intros Hi Hj. unfold swap.
  destruct (nth_error l i) as [a |] eqn:Ei;
    [| apply nth_error_None in Ei; lia].
  destruct (nth_error l j) as [b |] eqn:Ej;
    [| apply nth_error_None in Ej; lia].
  apply nth_error_set_nth_same. now rewrite length_set_nth.
Qed.

Lemma nth_error_swap_r {A} (i j : nat) (l : list A) :
  (i < List.length l)%nat -> (j < List.length l)%nat ->
  nth_error (swap i j l) j = nth_error l i.
Proof.
  intros Hi Hj. unfold swap.
  destruct (nth_error l i) as [a |] eqn:Ei;
    [| apply nth_error_None in Ei; lia].
  destruct (nth_error l j) as [b |] eqn:Ej;
    [| apply nth_error_None in Ej; lia].
  destruct (Nat.eq_dec j i) as [-> | Hne].
  - rewrite nth_error_set_nth_same by now rewrite length_set_nth. congruence.
  - rewrite nth_error_set_nth_other by exact Hne.
    now apply nth_error_set_nth_same.
Qed.

Lemma nth_error_swap_other {A} (i j k : nat) (l : list A) :
  k <> i -> k <> j -> nth_error (swap i j l) k = nth_error l k.
Proof.
  intros Hi Hj. unfold swap.
  destruct (nth_error l i), (nth_error l j); auto.
  now rewrite !nth_error_set_nth_other.
Qed.

Lemma StronglySorted_app {A} (R : A -> A -> Prop) (l1 l2 : list A) :
  StronglySorted R l1 -> StronglySorted R l2 ->
  (forall x y, In x l1 -> In y l2 -> R x y) ->
  StronglySorted R (l1 ++ l2).
Proof.
  intros H1 H2 H. induction l1 as [| a l1 IH]; simpl; [exact H2 |].
  apply StronglySorted_inv in H1. destruct H1 as [H1 Ha].
  constructor.
  - apply IH; [exact H1 |]. intros x y Hx Hy. apply H; simpl; auto.
  - apply Forall_app. split; [exact Ha |].
    apply Forall_forall. intros y Hy. apply H; simpl; auto.
Qed.

Lemma StronglySorted_rev {A} (R : A -> A -> Prop) (l : list A) :
  StronglySorted (fun a b => R b a) l -> StronglySorted R (rev l).
Proof.
  induction 1 as [| a l Hs IH Ha]; simpl; [constructor |].
  apply StronglySorted_app; [exact IH | repeat constructor |].
  intros x y Hx [<- | []]. apply in_rev in Hx.
  rewrite Forall_forall in Ha. now apply Ha.
Qed.

Lemma filter_rev' {A} (p : A -> bool) (l : list A) :
  filter p (rev l) = rev (filter p l).
Proof.
  induction l as [| a l IH]; simpl; [reflexivity |].
  rewrite filter_app, IH. simpl. destruct (p a); simpl; auto using app_nil_r.
Qed.

(** *** The orders the sort is used with *)

Section Sorting.
Context {A : Type} (less : A -> A -> bool).

Hypothesis less_asym : forall a b, less a b = true -> less b a = false.
Hypothesis not_after_trans :
  forall a b c, not_after less a b -> not_after less b c -> not_after less a c.

Lemma less_not_after (a b : A) : less a b = true -> not_after less a b.
Proof. exact (less_asym a b). Qed.

Lemma not_after_total (a b : A) : not_after less a b \/ not_after less b a.
Proof.
  unfold not_after. destruct (less b a) eqn:E; [| now left].
  right. now apply less_asym.
Qed.

Lemma not_after_refl (a : A) : not_after less a a.
Proof. destruct (not_after_total a a); assumption. Qed.

(** *** The insertion sort *)

Lemma shift_in_perm (x : A) (rp : list A) :
  Permutation (shift_in less x rp) (x :: rp).
Proof.
  induction rp as [| y rp IH]; simpl; [apply Permutation_refl |].
  destruct (less x y); [| apply Permutation_refl].
  rewrite IH. apply perm_swap.
Qed.

Lemma shift_in_sorted (x : A) (rp : list A) :
  StronglySorted (fun a b => not_after less b a) rp ->
  StronglySorted (fun a b => not_after less b a) (shift_in less x rp).
Proof.
  induction 1 as [| y rp Hs IH Hy]; simpl; [repeat constructor |].
  destruct (less x y) eqn:E.
  - constructor; [exact IH |].
    apply (Permutation_Forall (Permutation_sym (shift_in_perm x rp))).
    constructor; [now apply less_not_after | exact Hy].
  - constructor; [now constructor |].
    constructor; [exact E |].
    apply Forall_forall. intros z Hz. rewrite Forall_forall in Hy.
    apply (not_after_trans z y x); [now apply Hy | exact E].
Qed.

Lemma insertion_prefix_perm (l rp : list A) :
  Permutation (fold_left (fun rp x => shift_in less x rp) l rp)
              (rev l ++ rp).
Proof.
  revert rp. induction l as [| x l IH]; intro rp; simpl;
    [apply Permutation_refl |].
  rewrite IH, shift_in_perm, <- app_assoc. simpl.
  apply Permutation_app_head. apply Permutation_refl.
Qed.

Lemma np_insertion_perm (l : list A) : Permutation (np_insertion less l) l.
Proof.
  unfold np_insertion. rewrite <- Permutation_rev.
  rewrite insertion_prefix_perm, app_nil_r. symmetry. apply Permutation_rev.
Qed.

Lemma insertion_prefix_sorted (l rp : list A) :
  StronglySorted (fun a b => not_after less b a) rp ->
  StronglySorted (fun a b => not_after less b a)
                 (fold_left (fun rp x => shift_in less x rp) l rp).
Proof.
  revert rp. induction l as [| x l IH]; intros rp H; simpl; [exact H |].
  apply IH. now apply shift_in_sorted.
Qed.

Lemma np_insertion_sorted (l : list A) :
  StronglySorted (not_after less) (np_insertion less l).
Proof.
  unfold np_insertion. apply StronglySorted_rev.
  apply insertion_prefix_sorted. constructor.
Qed.

(** Elements that the order does not tell apart keep their places among
    themselves. *)
Lemma shift_in_filter (p : A -> bool) (x : A) (rp : list A) :
  (forall a b, p a = true -> p b = true -> less a b = false) ->
  filter p (shift_in less x rp) = filter p (x :: rp).
Proof.
  intro Hp. induction rp as [| y rp IH]; [reflexivity |].
  cbn [shift_in]. destruct (less x y) eqn:E; [| reflexivity].
  cbn [filter] in *. rewrite IH.
  destruct (p x) eqn:Ex, (p y) eqn:Ey; try reflexivity.
  rewrite (Hp x y Ex Ey) in E. discriminate.
Qed.

Lemma insertion_prefix_filter (p : A -> bool) (l rp : list A) :
  (forall a b, p a = true -> p b = true -> less a b = false) ->
  filter p (fold_left (fun rp x => shift_in less x rp) l rp)
  = (rev (filter p l) ++ filter p rp)%list.
Proof.
  intro Hp. revert rp. induction l as [| x l IH]; intro rp; [reflexivity |].
  cbn [fold_left]. rewrite IH, (shift_in_filter p x rp Hp).
  cbn [filter]. destruct (p x); [| reflexivity].
  cbn [rev]. now rewrite <- app_assoc.
Qed.

Lemma np_insertion_stable (p : A -> bool) (l : list A) :
  (forall a b, p a = true -> p b = true -> less a b = false) ->
  filter p (np_insertion less l) = filter p l.
Proof.
  intro Hp. unfold np_insertion.
  rewrite filter_rev', (insertion_prefix_filter p l [] Hp).
  cbn [filter]. now rewrite app_nil_r, rev_involutive.
Qed.

(** A table of at most seventeen rows is never partitioned. *)
Lemma np_quicksort_short (l : list A) :
  (List.length l <= 17)%nat -> np_quicksort less l = np_insertion less l.
Proof.
  intro H. unfold np_quicksort. cbn [quicksort_from].
  assert (Hd : (2 * Z.log2 (Z.of_nat (List.length l)) <? 0) = false).
  { apply Z.ltb_ge. pose proof (Z.log2_nonneg (Z.of_nat (List.length l))).
    lia. }
  rewrite Hd. cbn [andb].
  assert (Hs : (SMALL_QUICKSORT <? List.length l - 1)%nat = false).
  { apply Nat.ltb_ge. unfold SMALL_QUICKSORT. lia. }
  now rewrite Hs.
Qed.


(** *** The partition *)

Lemma scan_up_spec (fuel : nat) (vp : A) (l : list A) (pi pj : nat) (s : A) :
  (pi < pj)%nat -> (pj <= pi + fuel)%nat ->
  nth_error l pj = Some s -> less s vp = false ->
  (pi < scan_up less fuel vp l pi <= pj)%nat
  /\ (exists x, nth_error l (scan_up less fuel vp l pi) = Some x
                /\ less x vp = false)
  /\ forall k x, (pi < k < scan_up less fuel vp l pi)%nat ->
                 nth_error l k = Some x -> less x vp = true.
Proof.
  revert pi. induction fuel as [| f IH]; intros pi Hlt Hfuel Hs Hstop;
    [lia |].
  cbn [scan_up].
  destruct (nth_error l (S pi)) as [x |] eqn:Ex.
  - destruct (less x vp) eqn:Elt.
    + assert (Hne : S pi <> pj) by (intro Heq; rewrite Heq in Ex; congruence).
      destruct (IH (S pi)) as [Hr [Hx Hk]]; try assumption; try lia.
      split; [lia |]. split; [exact Hx |].
      intros k y Hky Hy. destruct (Nat.eq_dec k (S pi)) as [-> | Hk'].
      * congruence.
      * apply (Hk k y); [lia | exact Hy].
    + split; [lia |]. split; [now exists x |]. intros k y Hky. lia.
  - apply nth_error_None in Ex.
    assert (pj < List.length l)%nat
      by (apply nth_error_Some; congruence).
    lia.
Qed.

Lemma scan_down_spec (fuel : nat) (vp : A) (l : list A) (ps pj : nat)
    (s : A) :
  (ps < pj <= List.length l)%nat -> (pj <= ps + fuel)%nat ->
  nth_error l ps = Some s -> less vp s = false ->
  (ps <= scan_down less fuel vp l pj < pj)%nat
  /\ (exists x, nth_error l (scan_down less fuel vp l pj) = Some x
                /\ less vp x = false)
  /\ forall k x, (scan_down less fuel vp l pj < k < pj)%nat ->
                 nth_error l k = Some x -> less vp x = true.
Proof.
  revert pj. induction fuel as [| f IH]; intros pj Hlt Hfuel Hs Hstop;
    [lia |].
  cbn [scan_down].
  destruct (nth_error l (pred pj)) as [x |] eqn:Ex.
  - destruct (less vp x) eqn:Elt.
    + assert (Hne : pred pj <> ps) by (intro Heq; rewrite Heq in Ex; congruence).
      destruct (IH (pred pj)) as [Hr [Hx Hk]]; try assumption; try lia.
      split; [lia |]. split; [exact Hx |].
      intros k y Hky Hy. destruct (Nat.eq_dec k (pred pj)) as [-> | Hk'].
      * congruence.
      * apply (Hk k y); [lia | exact Hy].
    + split; [lia |]. split; [now exists x |]. intros k y Hky. lia.
  - apply nth_error_None in Ex.
    assert (ps < List.length l)%nat
      by (apply nth_error_Some; congruence).
    lia.
Qed.

(** The loop keeps everything up to [pi] not after the pivot and
    everything from [pj] on not before it; the pivot waits at [q]. *)
Lemma hoare_spec (fuel : nat) (vp : A) (q : nat) :
  forall (l : list A) (pi pj : nat),
    (pi < pj <= q)%nat -> (pj - pi <= S fuel)%nat ->
    nth_error l q = Some vp ->
    (forall k x, (k <= pi)%nat -> nth_error l k = Some x -> not_after less x vp) ->
    (forall k x, (pj <= k)%nat -> nth_error l k = Some x -> not_after less vp x) ->
    forall l' r, hoare less fuel vp l pi pj = (l', r) ->
      Permutation l' l
      /\ (r <= q)%nat
      /\ nth_error l' q = Some vp
      /\ (forall k x, (k < r)%nat -> nth_error l' k = Some x ->
                      not_after less x vp)
      /\ (forall k x, (r <= k)%nat -> nth_error l' k = Some x ->
                      not_after less vp x).
Proof.
  induction fuel as [| f IH]; intros l pi pj Hij Hfuel Hq Hlow Hhigh l' r.
  all: assert (Hqlen : (q < List.length l)%nat)
         by (apply nth_error_Some; congruence).
  all: assert (Hsj : exists sj, nth_error l pj = Some sj)
         by (destruct (nth_error l pj) eqn:E; [eauto |
             apply nth_error_None in E; lia]).
  all: assert (Hsi : exists si, nth_error l pi = Some si)
         by (destruct (nth_error l pi) eqn:E; [eauto |
             apply nth_error_None in E; lia]).
  all: destruct Hsj as [sj Hsj], Hsi as [si Hsi].
  all: destruct (scan_up_spec (List.length l) vp l pi pj sj)
         as [Hup [[xu [Hxu Hstopu]] Hupk]];
         [lia | lia | exact Hsj | exact (Hhigh pj sj (Nat.le_refl _) Hsj) |].
  all: destruct (scan_down_spec (List.length l) vp l pi pj si)
         as [Hdn [[xd [Hxd Hstopd]] Hdnk]];
         [lia | lia | exact Hsi | exact (Hlow pi si (Nat.le_refl _) Hsi) |].
  all: cbn [hoare].
  all: set (pi' := scan_up less (List.length l) vp l pi) in *.
  all: set (pj' := scan_down less (List.length l) vp l pj) in *.
  all: assert (Hdone :
         (pj' <= pi')%nat ->
         Permutation l l
         /\ (pi' <= q)%nat
         /\ nth_error l q = Some vp
         /\ (forall k x, (k < pi')%nat -> nth_error l k = Some x ->
                         not_after less x vp)
         /\ (forall k x, (pi' <= k)%nat -> nth_error l k = Some x ->
                         not_after less vp x)).
  1, 3: intro Hmeet; split; [apply Permutation_refl |];
        split; [lia |]; split; [exact Hq |]; split.
  1, 3: intros k x Hk Hx; destruct (Nat.le_gt_cases k pi) as [Hle | Hgt];
        [exact (Hlow k x Hle Hx) |
         apply less_not_after, (Hupk k x); [lia | exact Hx]].
  1, 2: intros k x Hk Hx; destruct (Nat.le_gt_cases pj k) as [Hle | Hgt];
        [exact (Hhigh k x Hle Hx) |];
        destruct (Nat.eq_dec k pi') as [-> | Hne];
        [unfold not_after; congruence |
         apply less_not_after, (Hdnk k x); [lia | exact Hx]].
  - destruct (pj' <=? pi')%nat eqn:E.
    + intros [= <- <-]. apply Hdone. now apply Nat.leb_le.
    + apply Nat.leb_gt in E. lia.
  - destruct (pj' <=? pi')%nat eqn:E.
    + intros [= <- <-]. apply Hdone. now apply Nat.leb_le.
    + apply Nat.leb_gt in E. intro Hrun.
      destruct (IH (swap pi' pj' l) pi' pj') with (l' := l') (r := r)
        as [Hp Hrest].
      * lia.
      * lia.
      * rewrite nth_error_swap_other by lia. exact Hq.
      * intros k x Hk Hx. destruct (Nat.eq_dec k pi') as [-> | Hne].
        -- rewrite nth_error_swap_l in Hx by lia.
           unfold not_after. congruence.
        -- rewrite nth_error_swap_other in Hx by lia.
           destruct (Nat.le_gt_cases k pi) as [Hle | Hgt];
             [exact (Hlow k x Hle Hx) |].
           apply less_not_after, (Hupk k x); [lia | exact Hx].
      * intros k x Hk Hx. destruct (Nat.eq_dec k pj') as [-> | Hne].
        -- rewrite nth_error_swap_r in Hx by lia.
           unfold not_after. congruence.
        -- rewrite nth_error_swap_other in Hx by lia.
           destruct (Nat.le_gt_cases pj k) as [Hle | Hgt];
             [exact (Hhigh k x Hle Hx) |].
           apply less_not_after, (Hdnk k x); [lia | exact Hx].
      * exact Hrun.
      * split; [| exact Hrest].
        rewrite Hp. apply Permutation_swap.
Qed.

Lemma length_order2 (a b : nat) (l : list A) :
  List.length (order2 less a b l) = List.length l.
Proof. unfold order2. destruct (less_at less l b a); auto using length_swap. Qed.

Lemma Permutation_order2 (a b : nat) (l : list A) :
  Permutation (order2 less a b l) l.
Proof.
  unfold order2. destruct (less_at less l b a);
    auto using Permutation_swap, Permutation_refl.
Qed.

Lemma nth_error_order2_other (a b k : nat) (l : list A) :
  k <> a -> k <> b -> nth_error (order2 less a b l) k = nth_error l k.
Proof.
  intros Ha Hb. unfold order2. destruct (less_at less l b a); [| reflexivity].
  now apply nth_error_swap_other.
Qed.

Lemma order2_spec (a b : nat) (l : list A) (x y : A) :
  nth_error l a = Some x -> nth_error l b = Some y ->
  exists x' y',
    nth_error (order2 less a b l) a = Some x'
    /\ nth_error (order2 less a b l) b = Some y'
    /\ not_after less x' y'
    /\ ((x' = x /\ y' = y) \/ (x' = y /\ y' = x /\ less y x = true)).
Proof.
  intros Hx Hy.
  assert (Ha : (a < List.length l)%nat) by (apply nth_error_Some; congruence).
  assert (Hb : (b < List.length l)%nat) by (apply nth_error_Some; congruence).
  unfold order2, less_at. rewrite Hx, Hy.
  destruct (less y x) eqn:E.
  - exists y, x. rewrite nth_error_swap_r, nth_error_swap_l by assumption.
    repeat split; auto. now apply less_not_after.
  - exists x, y. repeat split; auto.
Qed.

Lemma nth_error_in_range (l : list A) (k : nat) :
  (k < List.length l)%nat -> exists x, nth_error l k = Some x.
Proof.
  intro H. destruct (nth_error l k) eqn:E; [eauto |].
  apply nth_error_None in E. lia.
Qed.

(** After a partition the pivot is in its final place: nothing before it
    is after it, and nothing after it is before it. *)
Lemma partition_spec (l l' : list A) (r : nat) :
  (5 <= List.length l)%nat ->
  partition less l = (l', r) ->
  Permutation l' l
  /\ exists vp,
       nth_error l' r = Some vp
       /\ (forall k x, (k < r)%nat -> nth_error l' k = Some x ->
                       not_after less x vp)
       /\ (forall k x, (r < k)%nat -> nth_error l' k = Some x ->
                       not_after less vp x).
Proof.
  intro Hlen. unfold partition.
  set (pr := (List.length l - 1)%nat).
  set (pm := (pr / 2)%nat).
  assert (Hpm : (0 < pm /\ pm < pr - 1)%nat).
  { subst pm. split.
    - apply Nat.div_str_pos. lia.
    - apply Nat.Div0.div_lt_upper_bound. lia. }
  set (l1 := order2 less 0 pm l).
  set (l2 := order2 less pm pr l1).
  set (l3 := order2 less 0 pm l2).
  assert (Hl1 : List.length l1 = List.length l) by apply length_order2.
  assert (Hl2 : List.length l2 = List.length l)
    by (subst l2; now rewrite length_order2).
  assert (Hl3 : List.length l3 = List.length l)
    by (subst l3; now rewrite length_order2).
  destruct (nth_error_in_range l 0) as [a0 Ha0]; [lia |].
  destruct (nth_error_in_range l pm) as [am Ham]; [lia |].
  destruct (nth_error_in_range l pr) as [ar Har]; [lia |].
  destruct (order2_spec 0 pm l a0 am Ha0 Ham)
    as [b0 [bm [Hb0 [Hbm [Hb _]]]]].
  fold l1 in Hb0, Hbm.
  assert (Hbr : nth_error l1 pr = Some ar)
    by (subst l1; rewrite nth_error_order2_other by lia; exact Har).
  destruct (order2_spec pm pr l1 bm ar Hbm Hbr)
    as [cm [cr [Hcm [Hcr [Hc Hc']]]]].
  fold l2 in Hcm, Hcr.
  assert (Hc0 : nth_error l2 0 = Some b0)
    by (subst l2; rewrite nth_error_order2_other by lia; exact Hb0).
  destruct (order2_spec 0 pm l2 b0 cm Hc0 Hcm)
    as [d0 [dm [Hd0 [Hdm [Hd Hd']]]]].
  fold l3 in Hd0, Hdm.
  assert (Hdr : nth_error l3 pr = Some cr)
    by (subst l3; rewrite nth_error_order2_other by lia; exact Hcr).
  assert (Hmr : not_after less dm cr).
  { destruct Hd' as [[-> ->] | [-> [-> Hsw]]]; [exact Hc |].
    destruct Hc' as [[-> ->] | [-> [-> _]]]; [| exact Hb].
    unfold not_after in Hb. congruence. }
  rewrite Hdm.
  set (l4 := swap pm (pr - 1) l3).
  assert (Hl4 : List.length l4 = List.length l)
    by (subst l4; now rewrite length_swap).
  assert (H40 : nth_error l4 0 = Some d0)
    by (subst l4; rewrite nth_error_swap_other by lia; exact Hd0).
  assert (H4q : nth_error l4 (pr - 1) = Some dm)
    by (subst l4; rewrite nth_error_swap_r by lia; exact Hdm).
  assert (H4r : nth_error l4 pr = Some cr)
    by (subst l4; rewrite nth_error_swap_other by lia; exact Hdr).
  destruct (hoare less (List.length l4) dm l4 0 (pr - 1)) as [l5 r5] eqn:Eh.
  intros [= <- <-].
  destruct (hoare_spec (List.length l4) dm (pr - 1) l4 0 (pr - 1))
    with (l' := l5) (r := r5) as [Hp [Hr [Hq [Hlow Hhigh]]]].
  - lia.
  - lia.
  - exact H4q.
  - intros k x Hk Hx. assert (k = 0)%nat as -> by lia.
    rewrite H40 in Hx. now injection Hx as <-.
  - intros k x Hk Hx.
    destruct (Nat.eq_dec k (pr - 1)) as [-> | Hne1].
    + rewrite H4q in Hx. injection Hx as <-. apply not_after_refl.
    + destruct (Nat.eq_dec k pr) as [-> | Hne2].
      * rewrite H4r in Hx. now injection Hx as <-.
      * assert (nth_error l4 k = None) by (apply nth_error_None; lia).
        congruence.
  - exact Eh.
  - assert (Hl5 : List.length l5 = List.length l)
      by (rewrite (Permutation_length Hp); exact Hl4).
    split.
    + rewrite Permutation_swap, Hp. subst l4.
      rewrite Permutation_swap. subst l3 l2 l1.
      now rewrite !Permutation_order2.
    + exists dm. split; [| split].
      * rewrite nth_error_swap_l by lia. exact Hq.
      * intros k x Hk Hx. rewrite nth_error_swap_other in Hx by lia.
        exact (Hlow k x Hk Hx).
      * intros k x Hk Hx.
        destruct (Nat.eq_dec k (pr - 1)) as [-> | Hne].
        -- rewrite nth_error_swap_r in Hx by lia.
           apply (Hhigh r5 x); [lia | exact Hx].
        -- rewrite nth_error_swap_other in Hx by lia.
           apply (Hhigh k x); [lia | exact Hx].
Qed.

Lemma split_at (l : list A) (k : nat) (x : A) :
  nth_error l k = Some x -> l = (firstn k l ++ x :: skipn (S k) l)%list.
Proof.
  revert k. induction l as [| a l IH]; intros [| k] H; simpl in *;
    try discriminate.
  - now injection H as ->.
  - f_equal. now apply IH.
Qed.

Lemma In_firstn_nth (l : list A) (k : nat) (x : A) :
  In x (firstn k l) -> exists i, (i < k)%nat /\ nth_error l i = Some x.
Proof.
  intro H. apply In_nth_error in H. destruct H as [i Hi].
  assert (Hik : (i < List.length (firstn k l))%nat)
    by (apply nth_error_Some; congruence).
  rewrite length_firstn in Hik.
  exists i. split; [lia |]. rewrite nth_error_firstn in Hi.
  destruct (i <? k)%nat eqn:E; [exact Hi | discriminate].
Qed.

Lemma In_skipn_nth (l : list A) (k : nat) (x : A) :
  In x (skipn k l) -> exists i, (k <= i)%nat /\ nth_error l i = Some x.
Proof.
  intro H. apply In_nth_error in H. destruct H as [i Hi].
  rewrite nth_error_skipn in Hi. exists (k + i)%nat. split; [lia | exact Hi].
Qed.

(** *** The heap sort *)

Lemma length_put1 (k : nat) (x : A) (l : list A) :
  List.length (put1 k x l) = List.length l.
Proof. apply length_set_nth. Qed.

Lemma at1_put1_same (k : nat) (x : A) (l : list A) :
  (1 <= k <= List.length l)%nat -> at1 (put1 k x l) k = Some x.
Proof. intro H. apply nth_error_set_nth_same. lia. Qed.

Lemma at1_put1_other (i k : nat) (x : A) (l : list A) :
  (1 <= i)%nat -> (1 <= k)%nat -> k <> i -> at1 (put1 i x l) k = at1 l k.
Proof. intros Hi Hk Hne. apply nth_error_set_nth_other. lia. Qed.

Lemma at1_in_range (l : list A) (k : nat) :
  (1 <= k <= List.length l)%nat -> exists x, at1 l k = Some x.
Proof. intro H. apply nth_error_in_range. lia. Qed.

Lemma put1_id (k : nat) (x : A) (l : list A) :
  at1 l k = Some x -> put1 k x l = l.
Proof. apply set_nth_id. Qed.

(** Filling the hole one level down, or where it is, leaves the same
    elements. *)
Lemma put1_exchange (i j : nat) (tmp aj : A) (l : list A) :
  (1 <= i <= List.length l)%nat -> (1 <= j)%nat -> i <> j ->
  at1 l j = Some aj ->
  Permutation (put1 j tmp (put1 i aj l)) (put1 i tmp l).
Proof.
  intros Hi Hj Hne Haj.
  assert (Hjl : (j - 1 < List.length l)%nat)
    by (apply nth_error_Some; unfold at1 in Haj; congruence).
  unfold at1 in Haj.
  assert (Hs : swap (i - 1) (j - 1) (put1 i tmp l)
               = set_nth (i - 1) aj (set_nth (j - 1) tmp (put1 i tmp l))).
  { unfold swap, put1.
    rewrite (nth_error_set_nth_same (i - 1) tmp l) by lia.
    rewrite (nth_error_set_nth_other (i - 1) (j - 1) tmp l) by lia.
    now rewrite Haj. }
  assert (E : put1 j tmp (put1 i aj l)
              = swap (i - 1) (j - 1) (put1 i tmp l)).
  { rewrite Hs. apply nth_error_ext. intro k. unfold put1.
    destruct (Nat.eq_dec k (i - 1)) as [-> | Hki].
    - rewrite (nth_error_set_nth_other (j - 1) (i - 1)) by lia.
      rewrite !nth_error_set_nth_same; auto;
        rewrite ?length_set_nth; lia.
    - rewrite (nth_error_set_nth_other (i - 1) k aj
                 (set_nth (j - 1) tmp (set_nth (i - 1) tmp l))) by lia.
      destruct (Nat.eq_dec k (j - 1)) as [-> | Hkj].
      + rewrite !nth_error_set_nth_same; auto;
          rewrite ?length_set_nth; lia.
      + now rewrite !nth_error_set_nth_other by lia. }
  rewrite E. apply Permutation_swap.
Qed.

(** What the inner loop leaves: a heap from [lo] on, the elements of the
    array with [tmp] in the hole, and nothing touched beyond [n]. *)
Lemma sift_spec (lo n : nat) (tmp : A) :
  forall (fuel : nat) (l : list A) (i : nat),
    (n - i < fuel)%nat ->
    sift_inv less tmp l lo n i ->
    heap_from less (sift less fuel tmp l i (2 * i) n) lo n
    /\ Permutation (sift less fuel tmp l i (2 * i) n) (put1 i tmp l)
    /\ forall k, (n < k)%nat ->
         at1 (sift less fuel tmp l i (2 * i) n) k = at1 l k.
Proof.
  assert (Hfill : forall l i,
            sift_inv less tmp l lo n i ->
            (forall c y, (c = 2 * i \/ c = 2 * i + 1)%nat -> (c <= n)%nat ->
                         at1 l c = Some y -> not_after less y tmp) ->
            heap_from less (put1 i tmp l) lo n
            /\ Permutation (put1 i tmp l) (put1 i tmp l)
            /\ forall k, (n < k)%nat -> at1 (put1 i tmp l) k = at1 l k).
  { intros l i [Hlo [Hn [Hnodes Hup]]] Hkids.
    split; [| split; [apply Permutation_refl |]].
    - intros k Hk.
      destruct (Nat.eq_dec k i) as [-> | Hne].
      + split; intros Hc x y Hx Hy.
        * rewrite at1_put1_same in Hx by lia. injection Hx as <-.
          rewrite at1_put1_other in Hy by lia.
          apply (Hkids (2 * i)%nat y); auto.
        * rewrite at1_put1_same in Hx by lia. injection Hx as <-.
          rewrite at1_put1_other in Hy by lia.
          apply (Hkids (2 * i + 1)%nat y); auto.
      + destruct (Hnodes k Hk Hne) as [H1 H2].
        split; intros Hc x y Hx Hy.
        * rewrite at1_put1_other in Hx by lia.
          destruct (Nat.eq_dec (2 * k) i) as [E | E].
          -- rewrite E, at1_put1_same in Hy by lia. injection Hy as <-.
             destruct (Hup k Hk) as [Ht _]; [lia |]. now apply Ht.
          -- rewrite at1_put1_other in Hy by lia. now apply (H1 Hc x y).
        * rewrite at1_put1_other in Hx by lia.
          destruct (Nat.eq_dec (2 * k + 1) i) as [E | E].
          -- rewrite E, at1_put1_same in Hy by lia. injection Hy as <-.
             destruct (Hup k Hk) as [Ht _]; [lia |]. now apply Ht.
          -- rewrite at1_put1_other in Hy by lia. now apply (H2 Hc x y).
    - intros k Hk. apply at1_put1_other; lia. }
  induction fuel as [| f IH]; intros l i Hfuel Hinv; [lia |].
  pose proof Hinv as [Hlo [Hn [Hnodes Hup]]].
  cbn [sift].
  destruct (2 * i <=? n)%nat eqn:Ej.
  2:{ apply Nat.leb_gt in Ej. apply Hfill; [exact Hinv |].
      intros c y Hc Hcn. lia. }
  apply Nat.leb_le in Ej.
  destruct (at1_in_range l (2 * i)) as [a0 Ha0]; [lia |].
  set (j := if ((2 * i <? n)%nat
                && match at1 l (2 * i), at1 l (2 * i + 1) with
                   | Some x, Some y => less x y
                   | _, _ => false
                   end)%bool
            then (2 * i + 1)%nat else (2 * i)%nat).
  assert (Hj : (j = 2 * i \/ j = 2 * i + 1)%nat /\ (j <= n)%nat
               /\ forall c y aj, (c = 2 * i \/ c = 2 * i + 1)%nat ->
                    (c <= n)%nat -> at1 l c = Some y -> at1 l j = Some aj ->
                    not_after less y aj).
  { subst j. rewrite Ha0.
    destruct (2 * i <? n)%nat eqn:En; cbn [andb].
    - apply Nat.ltb_lt in En.
      destruct (at1_in_range l (2 * i + 1)) as [a1 Ha1]; [lia |].
      rewrite Ha1. destruct (less a0 a1) eqn:E.
      + split; [now right |]. split; [lia |].
        intros c y aj [-> | ->] _ Hy Haj.
        * rewrite Ha0 in Hy. rewrite Ha1 in Haj.
          injection Hy as <-. injection Haj as <-.
          now apply less_not_after.
        * rewrite Hy in Haj. injection Haj as <-. apply not_after_refl.
      + split; [now left |]. split; [lia |].
        intros c y aj [-> | ->] _ Hy Haj.
        * rewrite Hy in Haj. injection Haj as <-. apply not_after_refl.
        * rewrite Ha0 in Haj. rewrite Ha1 in Hy.
          injection Hy as <-. injection Haj as <-. exact E.
    - apply Nat.ltb_ge in En.
      split; [now left |]. split; [lia |].
      intros c y aj [-> | ->] Hc Hy Haj; [| lia].
      rewrite Hy in Haj. injection Haj as <-. apply not_after_refl. }
  destruct Hj as [Hjc [Hjn Hjmax]].
  destruct (at1_in_range l j) as [aj Haj]; [lia |].
  rewrite Haj.
  destruct (less tmp aj) eqn:Eless.
  2:{ apply Hfill; [exact Hinv |].
      intros c y Hc Hcn Hy.
      apply (not_after_trans y aj tmp); [now apply (Hjmax c y aj) |].
      exact Eless. }
  replace (j + j)%nat with (2 * j)%nat by lia.
  destruct (IH (put1 i aj l) j) as [Hheap [Hperm Hrest]].
  - lia.
  - split; [lia |]. split; [rewrite length_put1; lia |]. split.
    + intros k Hk Hkj.
      destruct (Nat.eq_dec k i) as [-> | Hki].
      * split; intros Hc x y Hx Hy.
        -- rewrite at1_put1_same in Hx by lia. injection Hx as <-.
           rewrite at1_put1_other in Hy by lia.
           apply (Hjmax (2 * i)%nat y aj); auto.
        -- rewrite at1_put1_same in Hx by lia. injection Hx as <-.
           rewrite at1_put1_other in Hy by lia.
           apply (Hjmax (2 * i + 1)%nat y aj); auto.
      * destruct (Hnodes k Hk Hki) as [H1 H2].
        split; intros Hc x y Hx Hy.
        -- rewrite at1_put1_other in Hx by lia.
           destruct (Nat.eq_dec (2 * k) i) as [E | E].
           ++ rewrite E, at1_put1_same in Hy by lia. injection Hy as <-.
              destruct (Hup k Hk) as [_ [Hd1 Hd2]]; [lia |].
              destruct Hjc as [Hjj | Hjj]; rewrite Hjj in Haj.
              ** apply (Hd1 Ej x aj Hx Haj).
              ** apply (Hd2 ltac:(lia) x aj Hx Haj).
           ++ rewrite at1_put1_other in Hy by lia. now apply (H1 Hc x y).
        -- rewrite at1_put1_other in Hx by lia.
           destruct (Nat.eq_dec (2 * k + 1) i) as [E | E].
           ++ rewrite E, at1_put1_same in Hy by lia. injection Hy as <-.
              destruct (Hup k Hk) as [_ [Hd1 Hd2]]; [lia |].
              destruct Hjc as [Hjj | Hjj]; rewrite Hjj in Haj.
              ** apply (Hd1 Ej x aj Hx Haj).
              ** apply (Hd2 ltac:(lia) x aj Hx Haj).
           ++ rewrite at1_put1_other in Hy by lia. now apply (H2 Hc x y).
    + intros p Hp Hpj.
      assert (p = i) as -> by lia.
      destruct (Hnodes j ltac:(lia) ltac:(lia)) as [H1 H2].
      split; [| split].
      * intros x Hx. rewrite at1_put1_same in Hx by lia.
        injection Hx as <-. now apply less_not_after.
      * intros Hc x y Hx Hy.
        rewrite at1_put1_same in Hx by lia. injection Hx as <-.
        rewrite at1_put1_other in Hy by lia.
        apply (H1 Hc aj y Haj Hy).
      * intros Hc x y Hx Hy.
        rewrite at1_put1_same in Hx by lia. injection Hx as <-.
        rewrite at1_put1_other in Hy by lia.
        apply (H2 Hc aj y Haj Hy).
  - split; [exact Hheap |]. split.
    + rewrite Hperm. apply put1_exchange; try lia. exact Haj.
    + intros k Hk. rewrite Hrest by exact Hk.
      apply at1_put1_other; lia.
Qed.

Lemma heapify_spec (n : nat) :
  forall (k : nat) (l : list A),
    (1 <= n)%nat -> n = List.length l -> (k <= n)%nat ->
    heap_from less l (S k) n ->
    heap_from less (heapify less k n l) 1 n
    /\ Permutation (heapify less k n l) l.
Proof.
  induction k as [| k IH]; intros l Hn Hlen Hk Hheap.
  - split; [exact Hheap | apply Permutation_refl].
  - cbn [heapify].
    destruct (at1_in_range l (S k)) as [tmp Htmp]; [lia |].
    rewrite Htmp.
    destruct (sift_spec (S k) n tmp n l (S k)) as [Hh [Hp _]].
    + lia.
    + split; [lia |]. split; [lia |]. split.
      * intros k' Hk' Hne. apply Hheap. lia.
      * intros p Hp Hpar. lia.
    + rewrite (put1_id (S k) tmp l Htmp) in Hp.
      destruct (IH (sift less n tmp l (S k) (2 * S k) n)) as [Hh' Hp'].
      * exact Hn.
      * rewrite (Permutation_length Hp). exact Hlen.
      * lia.
      * exact Hh.
      * split; [exact Hh' |]. now rewrite Hp'.
Qed.

(** The first element of a heap is not before any other. *)
Lemma heap_root_max (l : list A) (n : nat) (top : A) :
  (n <= List.length l)%nat ->
  heap_from less l 1 n -> at1 l 1 = Some top ->
  forall k x, (1 <= k <= n)%nat -> at1 l k = Some x -> not_after less x top.
Proof.
  intros Hn Hheap Htop k. induction k as [k IH] using lt_wf_ind.
  intros x Hk Hx.
  destruct (Nat.eq_dec k 1) as [-> | Hne].
  - rewrite Htop in Hx. injection Hx as <-. apply not_after_refl.
  - pose proof (Nat.div_mod_eq k 2) as Hdiv.
    pose proof (Nat.mod_upper_bound k 2 ltac:(lia)) as Hmod.
    set (p := (k / 2)%nat) in *.
    destruct (at1_in_range l p) as [y Hy]; [lia |].
    apply (not_after_trans x y top).
    + destruct (Hheap p ltac:(lia)) as [H1 H2].
      destruct (Nat.eq_dec (k mod 2) 0) as [E | E].
      * replace k with (2 * p)%nat in * by lia.
        apply (H1 ltac:(lia) y x Hy Hx).
      * replace k with (2 * p + 1)%nat in * by lia.
        apply (H2 ltac:(lia) y x Hy Hx).
    + apply (IH p); [lia | lia | exact Hy].
Qed.

Lemma skipn_at1 (l l' : list A) (n : nat) :
  List.length l = List.length l' ->
  (forall k, (n < k)%nat -> at1 l k = at1 l' k) -> skipn n l = skipn n l'.
Proof.
  intros Hlen H. apply nth_error_ext. intro i.
  rewrite !nth_error_skipn. specialize (H (S (n + i)) ltac:(lia)).
  unfold at1 in H. now replace (S (n + i) - 1)%nat with (n + i)%nat in H by lia.
Qed.

Lemma skipn_pred (l : list A) (n : nat) (x : A) :
  at1 l (S n) = Some x -> skipn n l = x :: skipn (S n) l.
Proof.
  unfold at1. replace (S n - 1)%nat with n by lia. revert n.
  induction l as [| a l IH]; intros [| n] H; simpl in *; try discriminate.
  - now injection H as ->.
  - now apply IH.
Qed.

Lemma firstn_perm (l l' : list A) (n : nat) :
  Permutation l l' -> skipn n l = skipn n l' ->
  Permutation (firstn n l) (firstn n l').
Proof.
  intros Hp Hs. rewrite <- (firstn_skipn n l), <- (firstn_skipn n l') in Hp.
  rewrite Hs in Hp. now apply Permutation_app_inv_r in Hp.
Qed.

Lemma In_firstn_at1 (l : list A) (n : nat) (x : A) :
  In x (firstn n l) -> exists k, (1 <= k <= n)%nat /\ at1 l k = Some x.
Proof.
  intro H. destruct (In_firstn_nth l n x H) as [i [Hi Hx]].
  exists (S i). split; [lia |]. unfold at1.
  now replace (S i - 1)%nat with i by lia.
Qed.

Lemma at1_In_firstn (l : list A) (n k : nat) (x : A) :
  (1 <= k <= n)%nat -> at1 l k = Some x -> In x (firstn n l).
Proof.
  intros Hk Hx. unfold at1 in Hx.
  apply (nth_error_In _ (k - 1)). rewrite nth_error_firstn.
  replace (k - 1 <? n)%nat with true by (symmetry; apply Nat.ltb_lt; lia).
  exact Hx.
Qed.

(** The second loop of the heap sort: the greatest element of the heap
    goes behind it, where the sorted part of the array grows. *)
Lemma extract_spec :
  forall (n : nat) (l : list A),
    (n <= List.length l)%nat ->
    heap_from less l 1 n ->
    StronglySorted (not_after less) (skipn n l) ->
    (forall x y, In x (firstn n l) -> In y (skipn n l) ->
                 not_after less x y) ->
    StronglySorted (not_after less) (extract less n l)
    /\ Permutation (extract less n l) l.
Proof.
  induction n as [| n IH]; intros l Hn Hheap Hsorted Hsplit.
  - split; [exact Hsorted | apply Permutation_refl].
  - cbn [extract]. destruct n as [| m].
    + split; [| apply Permutation_refl].
      rewrite <- (firstn_skipn 1 l).
      apply StronglySorted_app; [| exact Hsorted | exact Hsplit].
      destruct l as [| a l]; simpl; repeat constructor.
    + set (n := S m) in *.
      destruct (at1_in_range l (S n)) as [tmp Htmp]; [lia |].
      destruct (at1_in_range l 1) as [top Htop]; [lia |].
      rewrite Htmp, Htop.
      set (l1 := put1 (S n) top l).
      assert (Hl1 : List.length l1 = List.length l) by apply length_put1.
      destruct (sift_spec 1 n tmp (S n) l1 1) as [Hh [Hp Hrest]].
      * lia.
      * split; [lia |]. split; [lia |]. split.
        -- intros k Hk Hne.
           destruct (Hheap k Hk) as [H1 H2].
           split; intros Hc x y Hx Hy; subst l1;
             rewrite at1_put1_other in Hx, Hy by lia.
           ++ apply (H1 ltac:(lia) x y Hx Hy).
           ++ apply (H2 ltac:(lia) x y Hx Hy).
        -- intros p Hp Hpar. lia.
      * change (2 * 1)%nat with 2%nat in *.
        set (l2 := sift less (S n) tmp l1 1 2 n) in *.
        assert (Hswap : Permutation (put1 1 tmp l1) l).
        { subst l1. rewrite put1_exchange; try lia; try exact Htop.
          now rewrite (put1_id (S n) tmp l Htmp). }
        assert (Hl2 : List.length l2 = List.length l)
          by (rewrite (Permutation_length Hp), length_put1; exact Hl1).
        assert (Hsuffix : skipn n l2 = top :: skipn (S n) l).
        { rewrite (skipn_pred l2 n top).
          - f_equal. apply skipn_at1; [exact Hl2 |].
            intros k Hk. rewrite Hrest by lia. subst l1.
            apply at1_put1_other; lia.
          - rewrite Hrest by lia. subst l1. apply at1_put1_same. lia. }
        assert (Hprefix : forall x, In x (firstn n l2) ->
                                    In x (firstn (S n) l)).
        { intros x Hx.
          assert (Hpre : Permutation (firstn n l2)
                                     (firstn n (put1 1 tmp l1))).
          { apply firstn_perm; [exact Hp |].
            apply skipn_at1; [now rewrite Hl2, length_put1 |].
            intros k Hk. rewrite Hrest by exact Hk.
            symmetry. apply at1_put1_other; lia. }
          apply (Permutation_in _ Hpre) in Hx.
          destruct (In_firstn_at1 _ _ _ Hx) as [k [Hk Hxk]].
          destruct (Nat.eq_dec k 1) as [-> | Hne].
          - rewrite at1_put1_same in Hxk by lia. injection Hxk as <-.
            apply (at1_In_firstn l (S n) (S n)); [lia | exact Htmp].
          - rewrite at1_put1_other in Hxk by lia. subst l1.
            rewrite at1_put1_other in Hxk by lia.
            apply (at1_In_firstn l (S n) k); [lia | exact Hxk]. }
        destruct (IH l2) as [Hs Hperm].
        -- lia.
        -- exact Hh.
        -- rewrite Hsuffix. constructor; [exact Hsorted |].
           apply Forall_forall. intros y Hy. apply Hsplit; [| exact Hy].
           apply (at1_In_firstn l (S n) 1); [lia | exact Htop].
        -- intros x y Hx Hy. rewrite Hsuffix in Hy.
           pose proof (Hprefix x Hx) as Hx'.
           destruct Hy as [<- | Hy]; [| now apply Hsplit].
           destruct (In_firstn_at1 _ _ _ Hx') as [k [Hk Hxk]].
           apply (heap_root_max l (S n) top Hn Hheap Htop k x Hk Hxk).
        -- split; [exact Hs |]. now rewrite Hperm, Hp.
Qed.

Lemma np_heapsort_spec (l : list A) :
  StronglySorted (not_after less) (np_heapsort less l)
  /\ Permutation (np_heapsort less l) l.
Proof.
  unfold np_heapsort. set (n := List.length l).
  destruct (Nat.eq_dec n 0) as [E | E].
  - rewrite E. simpl. destruct l; [| discriminate].
    split; constructor.
  - destruct (heapify_spec n (n / 2) l) as [Hh Hp]; try lia; try reflexivity.
    + apply Nat.Div0.div_le_upper_bound. lia.
    + intros k Hk.
      assert (n < 2 * k)%nat.
      { pose proof (Nat.div_mod_eq n 2).
        pose proof (Nat.mod_upper_bound n 2 ltac:(lia)). lia. }
      split; intro; lia.
    + destruct (extract_spec n (heapify less (n / 2) n l)) as [Hs Hp'].
      * rewrite (Permutation_length Hp). subst n. lia.
      * exact Hh.
      * rewrite skipn_all2; [constructor |].
        rewrite (Permutation_length Hp). subst n. lia.
      * intros x y _ Hy. rewrite skipn_all2 in Hy; [destruct Hy |].
        rewrite (Permutation_length Hp). subst n. lia.
      * split; [exact Hs |]. now rewrite Hp'.
Qed.

(** *** The whole sort *)

Lemma quicksort_from_spec :
  forall (fuel : nat) (popped : bool) (cdepth : Z) (l : list A),
    (List.length l < fuel)%nat ->
    StronglySorted (not_after less) (quicksort_from less fuel popped cdepth l)
    /\ Permutation (quicksort_from less fuel popped cdepth l) l.
Proof.
  induction fuel as [| f IH]; intros popped cdepth l Hfuel; [lia |].
  cbn [quicksort_from].
  destruct (popped && (cdepth <? 0))%bool; [apply np_heapsort_spec |].
  destruct (SMALL_QUICKSORT <? List.length l - 1)%nat eqn:Esmall.
  2:{ split; [apply np_insertion_sorted | apply np_insertion_perm]. }
  apply Nat.ltb_lt in Esmall. unfold SMALL_QUICKSORT in Esmall.
  destruct (partition less l) as [l' r] eqn:Epart.
  destruct (partition_spec l l' r ltac:(lia) Epart)
    as [Hperm [vp [Hvp [Hlow Hhigh]]]].
  rewrite Hvp.
  assert (Hlen : List.length l' = List.length l)
    by exact (Permutation_length Hperm).
  assert (Hr : (r < List.length l')%nat)
    by (apply nth_error_Some; congruence).
  assert (Hjoin :
    forall L R,
      StronglySorted (not_after less) L /\ Permutation L (firstn r l') ->
      StronglySorted (not_after less) R
      /\ Permutation R (skipn (S r) l') ->
      StronglySorted (not_after less) (L ++ vp :: R)
      /\ Permutation (L ++ vp :: R) l).
  { intros L R [HL HLp] [HR HRp].
    assert (HLv : forall x, In x L -> not_after less x vp).
    { intros x Hx. apply (Permutation_in _ HLp) in Hx.
      destruct (In_firstn_nth _ _ _ Hx) as [i [Hi Hxi]].
      exact (Hlow i x Hi Hxi). }
    assert (HRv : forall y, In y R -> not_after less vp y).
    { intros y Hy. apply (Permutation_in _ HRp) in Hy.
      destruct (In_skipn_nth _ _ _ Hy) as [i [Hi Hyi]].
      exact (Hhigh i y Hi Hyi). }
    split.
    - apply StronglySorted_app; [exact HL | |].
      + constructor; [exact HR |]. now apply Forall_forall.
      + intros x y Hx [<- | Hy]; [now apply HLv |].
        apply (not_after_trans x vp y); [now apply HLv | now apply HRv].
    - apply (Permutation_trans
               (l' := (firstn r l' ++ vp :: skipn (S r) l')%list)).
      + apply Permutation_app; [exact HLp |]. now constructor.
      + rewrite <- (split_at l' r vp Hvp). exact Hperm. }
  assert (Hleft : (List.length (firstn r l') < f)%nat)
    by (rewrite length_firstn; lia).
  assert (Hright : (List.length (skipn (S r) l') < f)%nat)
    by (rewrite length_skipn; lia).
  destruct (r <? List.length l - 1 - r)%nat; apply Hjoin; apply IH;
    assumption.
Qed.

(** The sort returns the elements it was given, in ascending order. *)
Lemma np_quicksort_perm (l : list A) : Permutation (np_quicksort less l) l.
Proof. apply quicksort_from_spec. lia. Qed.

Lemma np_quicksort_sorted (l : list A) :
  StronglySorted (not_after less) (np_quicksort less l).
Proof. apply quicksort_from_spec. lia. Qed.

End Sorting.

(** *** The sort of line 145 *)

Lemma avg_lt_asym (a b : ResultRow) : avg_lt a b = true -> avg_lt b a = false.
Proof.
  unfold avg_lt. intro H. apply negb_true_iff in H. apply negb_false_iff.
  apply Qle_bool_iff, Qlt_le_weak, Qnot_le_lt. intro Hle.
  apply Qle_bool_iff in Hle. congruence.
Qed.

Lemma not_after_avg (a b : ResultRow) : not_after avg_lt a b <-> avg_le a b.
Proof.
  unfold not_after, avg_lt, avg_le. rewrite negb_false_iff.
  apply Qle_bool_iff.
Qed.

Lemma not_after_avg_trans (a b c : ResultRow) :
  not_after avg_lt a b -> not_after avg_lt b c -> not_after avg_lt a c.
Proof. rewrite !not_after_avg. apply Qle_trans. Qed.

Lemma StronglySorted_impl {A} (R R' : A -> A -> Prop) (l : list A) :
  (forall a b, R a b -> R' a b) ->
  StronglySorted R l -> StronglySorted R' l.
Proof.
  intro H. induction 1 as [| a l Hs IH Ha]; constructor; [exact IH |].
  apply Forall_forall. intros b Hb. rewrite Forall_forall in Ha. auto.
Qed.

(** The default sort keeps the contract: it returns the rows it was
    given, in ascending order of the average. *)
Lemma sort_values_default_ascending : sorts_ascending sort_values_default.
Proof.
  intro l. unfold sort_values_default. split.
  - apply np_quicksort_perm;
      [exact avg_lt_asym | exact not_after_avg_trans].
  - apply (StronglySorted_impl (not_after avg_lt));
      [intros a b; apply not_after_avg |].
    apply np_quicksort_sorted;
      [exact avg_lt_asym | exact not_after_avg_trans].
Qed.

Lemma ties_not_less (q : Q) (a b : ResultRow) :
  ties q a = true -> ties q b = true -> avg_lt a b = false.
Proof.
  unfold ties, avg_lt. intros Ha Hb. apply Qeq_bool_iff in Ha, Hb.
  apply negb_false_iff, Qle_bool_iff. rewrite Ha, Hb. apply Qle_refl.
Qed.

(** On at most seventeen rows the default sort is the insertion sort, and
    rows of equal average stay in the order they came in. *)
Lemma sort_values_default_short (l : list ResultRow) (q : Q) :
  (List.length l <= 17)%nat ->
  filter (ties q) (sort_values_default l) = filter (ties q) l.
Proof.
  intro H. unfold sort_values_default. rewrite np_quicksort_short by exact H.
  apply np_insertion_stable. apply ties_not_less.
Qed.

(* ------------------------------------------------------------------ *)
(** ** One respondent: the global ranks *)

Lemma all_ranks_append_at d k v :
  Permutation (all_ranks (append_at d k v))
              (if Dict.mem d k then v :: all_ranks d else all_ranks d).
Proof.
  unfold all_ranks, Dict.mem.
  induction d as [| [k0 vs] d IH]; simpl; [apply perm_nil |].
  destruct (String.eqb k0 k); simpl.
  - rewrite <- app_assoc. symmetry. apply Permutation_middle.
  - rewrite IH. destruct (Dict.get d k).
    + symmetry. apply Permutation_middle.
    + apply Permutation_refl.
Qed.

Lemma all_ranks_push d e :
  Permutation (all_ranks (push d e)) (snd e :: all_ranks d).
Proof.
  unfold push. rewrite all_ranks_append_at.
  destruct (Dict.mem d (fst e)) eqn:Hm; simpl.
  - rewrite Hm. apply Permutation_refl.
  - rewrite set_absent by exact Hm. rewrite mem_snoc.
    unfold all_ranks. rewrite map_app, concat_app. simpl.
    now rewrite app_nil_r.
Qed.

Lemma all_ranks_fold_push evs :
  forall d,
    Permutation (all_ranks (fold_left push evs d))
                (all_ranks d ++ map snd evs).
Proof.
  induction evs as [| e evs IH]; intro d; simpl.
  - now rewrite app_nil_r.
  - rewrite IH, all_ranks_push. apply Permutation_middle.
Qed.

Lemma enumerate_from_ranks {A} (f : A -> string) (l : list A) :
  forall n,
    map snd (map (fun p => (f (snd p), Z.of_nat (fst p) + 1))
                 (enumerate_from n l))
    = map Z.of_nat (seq (S n) (List.length l)).
Proof.
  induction l as [| a l IH]; intro n; simpl; [reflexivity |].
  rewrite IH. f_equal. lia.
Qed.

Lemma length_rating_filter col_map row cols :
  List.length (flat_map (rating col_map row) cols)
  = List.length (filter (rated col_map row) cols).
Proof.
  induction cols as [| c cols IH]; simpl; [reflexivity |].
  rewrite length_app, IH. unfold rating, rated.
  destruct (Dict.get col_map c) as [meta |]; [| reflexivity].
  destruct (Dict.get row c) as [[| v] |]; try reflexivity.
  destruct (String.eqb (m_category meta) "Did not take"); reflexivity.
Qed.

Lemma row_events_ranks col_map ty row :
  map snd (row_events col_map ty row)
  = map Z.of_nat (seq 1 (rated_count col_map ty row)).
Proof.
  unfold row_events, enumerate. rewrite enumerate_from_ranks.
  rewrite (Permutation_length (list_sort_perm _)).
  unfold row_items, rated_count. now rewrite length_rating_filter.
Qed.

(** C1.  Processing one respondent row adds to the accumulator, as a
    multiset, exactly the global ranks 1, ..., k, where k is the number of
    columns of the requested type in which the respondent has a non-empty,
    non-"Did not take" rating: no rank twice, none missing. *)
Theorem C1_global_ranks_are_1_to_k
    (w : World) (ty : string) (d d' : Dict.t (list Z))
    (idx : nat) (row : Series) :
  eval (process_row (select_type_cols (w_col_map w) ty) d (idx, row)) w
  = Ok d' ->
  Permutation (all_ranks d')
              (all_ranks d
               ++ map Z.of_nat (seq 1 (rated_count (w_col_map w) ty row))).
Proof.
  intro H.
  destruct (yields_ok _ _ _ _ (eval_process_row w ty d idx row) H) as [_ ->].
  rewrite all_ranks_fold_push, row_events_ranks. apply Permutation_refl.
Qed.

Lemma C1_witness :
  Permutation
    (all_ranks [("Course B", [1]); ("Course A", [2]); ("Course C", [3])])
    (all_ranks [] ++ map Z.of_nat (seq 1 3)).
Proof.
  apply (C1_global_ranks_are_1_to_k sample_world "CORE" [] _ 0%nat
           (combine sample_columns respondent_1)).
  vm_compute. reflexivity.
Defined.











(** C7.  The respondent who rates Course A "Most Beneficial" with rank 2,
    Course B "Most Beneficial" with rank 1 and Course C "Neutral" with
    rank 1 is given the global ranks B = 1, A = 2, C = 3, and these are the
    ranks that reach the accumulator. *)
Theorem C7_example_global_ranks :
  row_events sample_col_map "CORE" (combine sample_columns respondent_1)
  = [("Course B", 1); ("Course A", 2); ("Course C", 3)]
  /\ eval (process_row (select_type_cols sample_col_map "CORE") []
                       (0%nat, combine sample_columns respondent_1))
          sample_world
     = Ok [("Course B", [1]); ("Course A", [2]); ("Course C", [3])].
Proof. split; vm_compute; reflexivity. Qed.

(* ------------------------------------------------------------------ *)
(** ** Effects *)

(** C10.  A call of [process_rankings] leaves the data table and the header
    metadata map as they were, whether it returns a table or raises. *)
Theorem C10_inputs_unchanged
    (sort_values : list ResultRow -> list ResultRow) (ty : string)
    (w : World) :
  w_df (snd (process_rankings sort_values ty w)) = w_df w
  /\ w_col_map (snd (process_rankings sort_values ty w)) = w_col_map w.
Proof.
  rewrite (readonly_process_rankings sort_values ty w). auto.
Qed.

(* ------------------------------------------------------------------ *)
(** ** Counts *)

Lemma Permutation_filter {A} (p : A -> bool) (l l' : list A) :
  Permutation l l' -> Permutation (filter p l) (filter p l').
Proof.
  induction 1 as [| x l l' _ IH | x y l | l l' l'' _ IH1 _ IH2]; simpl.
  - apply perm_nil.
  - destruct (p x); [now apply perm_skip | exact IH].
  - destruct (p x), (p y); try apply Permutation_refl. apply perm_swap.
  - now rewrite IH1.
Qed.

Lemma length_ranks_of_enumerate c (l : list Item) :
  forall n,
    List.length
      (ranks_of c (map (fun p => (course (snd p), Z.of_nat (fst p) + 1))
                       (enumerate_from n l)))
    = List.length (filter (fun it => String.eqb (course it) c) l).
Proof.
  unfold ranks_of.
  induction l as [| a l IH]; intro n; simpl; [reflexivity |].
  destruct (String.eqb (course a) c); simpl; now rewrite IH.
Qed.

Lemma length_filter_rating col_map row c cols :
  List.length (filter (fun it => String.eqb (course it) c)
                      (flat_map (rating col_map row) cols))
  = List.length (filter (rated_for col_map row c) cols).
Proof.
  induction cols as [| col cols IH]; simpl; [reflexivity |].
  rewrite filter_app, length_app, IH.
  unfold rated_for, rating, rated.
  destruct (Dict.get col_map col) as [meta |]; [| reflexivity].
  destruct (Dict.get row col) as [[| v] |]; try reflexivity.
  destruct (String.eqb (m_category meta) "Did not take"); simpl;
    [reflexivity |].
  destruct (String.eqb (m_course meta) c); reflexivity.
Qed.

Lemma length_ranks_of_row col_map ty row c :
  List.length (ranks_of c (row_events col_map ty row))
  = List.length (filter (rated_for col_map row c)
                        (select_type_cols col_map ty)).
Proof.
  unfold row_events, enumerate. rewrite length_ranks_of_enumerate.
  rewrite (Permutation_length
             (Permutation_filter _ _ _ (list_sort_perm _))).
  apply length_filter_rating.
Qed.

Lemma ranks_of_app c evs evs' :
  ranks_of c (evs ++ evs') = (ranks_of c evs ++ ranks_of c evs')%list.
Proof. unfold ranks_of. now rewrite filter_app, map_app. Qed.

Lemma length_ranks_of_events col_map ty rows c :
  List.length (ranks_of c (events col_map ty rows))
  = entries col_map ty rows c.
Proof.
  unfold events, entries.
  induction rows as [| row rows IH]; simpl; [reflexivity |].
  now rewrite ranks_of_app, length_app, IH, length_ranks_of_row.
Qed.

Lemma sorted_table_perm sort_values (l : list ResultRow) :
  sorts_ascending sort_values ->
  Permutation (match l with [] => [] | r :: rs => sort_values (r :: rs) end)
              l.
Proof.
  intro HS. destruct l; [apply perm_nil | apply HS].
Qed.

(** C9.  The Count of a course in the result table is the number of its
    non-empty, non-"Did not take" entries in the columns of the requested
    type, summed over the rows.  A respondent who entered the same course
    under two categories therefore adds two to its Count: the entries are
    counted, not the respondents, and nothing is rejected. *)
Theorem C9_count_counts_entries
    (sort_values : list ResultRow -> list ResultRow) (ty : string)
    (w : World) (t : list ResultRow) (r : ResultRow) :
  sorts_ascending sort_values ->
  eval (process_rankings sort_values ty) w = Ok t ->
  In r t ->
  Count r = entries (w_col_map w) ty (rows_of (w_df w)) (Course r).
Proof.
  intros HS Hrun Hin.
  destruct (process_rankings_ok _ _ _ _ Hrun) as [_ ->].
  apply (Permutation_in _ (sorted_table_perm sort_values _ HS)) in Hin.
  unfold unsorted_results in Hin. apply in_map_iff in Hin.
  destruct Hin as [c [<- _]]. simpl.
  apply length_ranks_of_events.
Qed.

Lemma C9_witness :
  Count (mkRow "Course A" (4 # 2) 2)
  = entries (w_col_map twice_world) "CORE" (rows_of (w_df twice_world))
            "Course A".
Proof.
  apply (C9_count_counts_entries sort_values_stable "CORE" twice_world
           [mkRow "Course A" (4 # 2) 2; mkRow "Course B" (2 # 1) 1]).
  - exact sort_values_stable_ascending.
  - vm_compute. reflexivity.
  - simpl. auto.
Defined.

Example twice_world_entries :
  entries (w_col_map twice_world) "CORE" (rows_of (w_df twice_world))
          "Course A" = 2%nat
  /\ List.length (rows_of (w_df twice_world)) = 1%nat.
Proof. split; vm_compute; reflexivity. Qed.

(* ------------------------------------------------------------------ *)
(** ** The result table *)

Lemma sorted_table_sorted sort_values (l : list ResultRow) :
  sorts_ascending sort_values ->
  StronglySorted avg_le
    (match l with [] => [] | r :: rs => sort_values (r :: rs) end).
Proof.
  intro HS. destruct l; [constructor | apply HS].
Qed.

Lemma sorted_table_stable sort_values (l : list ResultRow) (q : Q) :
  stable sort_values ->
  filter (ties q)
    (match l with [] => [] | r :: rs => sort_values (r :: rs) end)
  = filter (ties q) l.
Proof.
  intro HS. destruct l; [reflexivity | apply HS].
Qed.

Lemma sorted_table_short (l : list ResultRow) (q : Q) :
  (List.length l <= 17)%nat ->
  filter (ties q)
    (match l with [] => [] | r :: rs => sort_values_default (r :: rs) end)
  = filter (ties q) l.
Proof.
  intro H. destruct l; [reflexivity | now apply sort_values_default_short].
Qed.

(** C4, as the code has it.  The table that [process_rankings] returns,
    with the sort that line 145 calls, is sorted by average rank ascending
    and holds the rows of the accumulated courses, each once.  When the
    table has at most seventeen rows, courses whose averages are equal
    appear in the order in which they entered the accumulator: so short a
    table is insertion-sorted.  A longer one is partitioned first, and the
    partition exchanges rows of equal average. *)
Theorem C4_sorted_by_average
    (ty : string) (w : World) (t : list ResultRow) :
  eval (process_rankings sort_values_default ty) w = Ok t ->
  StronglySorted avg_le t
  /\ Permutation t (unsorted_results (w_col_map w) ty (rows_of (w_df w)))
  /\ ((List.length t <= 17)%nat ->
      forall q,
        filter (ties q) t
        = filter (ties q)
                 (unsorted_results (w_col_map w) ty (rows_of (w_df w)))).
Proof.
  intro Hrun.
  destruct (process_rankings_ok _ _ _ _ Hrun) as [_ ->].
  pose proof (sorted_table_perm sort_values_default
                (unsorted_results (w_col_map w) ty (rows_of (w_df w)))
                sort_values_default_ascending) as Hperm.
  split; [apply sorted_table_sorted, sort_values_default_ascending |].
  split; [exact Hperm |].
  intros Hlen q. apply sorted_table_short.
  rewrite <- (Permutation_length Hperm). exact Hlen.
Qed.

Lemma C4_witness :
  StronglySorted avg_le
    [mkRow "Course A" (1 # 1) 1; mkRow "Course B" (1 # 1) 1]
  /\ Permutation
       [mkRow "Course A" (1 # 1) 1; mkRow "Course B" (1 # 1) 1]
       (unsorted_results (w_col_map tie_world) "CORE"
                         (rows_of (w_df tie_world)))
  /\ forall q,
       filter (ties q)
              [mkRow "Course A" (1 # 1) 1; mkRow "Course B" (1 # 1) 1]
       = filter (ties q)
                (unsorted_results (w_col_map tie_world) "CORE"
                                  (rows_of (w_df tie_world))).
Proof.
  destruct (C4_sorted_by_average "CORE" tie_world
              [mkRow "Course A" (1 # 1) 1; mkRow "Course B" (1 # 1) 1]
              eq_refl)
    as [Hsorted [Hperm Hties]].
  split; [exact Hsorted |].
  split; [exact Hperm |].
  apply Hties. simpl. lia.
Defined.

(** C4, as the specification words it, fails.  In [eighteen_world] two
    respondents rank eighteen courses, one from 1 to 18 and one from 18 to
    1, so that every course has the average 19/2.  The courses enter the
    accumulator as 01, 02, ..., 18; the table comes back as 01, 16, 15,
    ..., 02, 17, 18. *)
Lemma C4_counterexample :
  ~ (forall ty w t,
        eval (process_rankings sort_values_default ty) w = Ok t ->
        forall q,
          filter (ties q) t
          = filter (ties q)
                   (unsorted_results (w_col_map w) ty (rows_of (w_df w)))).
Proof.
  intro H.
  assert (Hrun : eval (process_rankings sort_values_default "CORE")
                      eighteen_world
                 = Ok eighteen_sorted)
    by (vm_compute; reflexivity).
  specialize (H "CORE" eighteen_world eighteen_sorted Hrun (19 # 2)%Q).
  vm_compute in H. discriminate H.
Qed.

(** The two tables of [eighteen_world], in full. *)
Example eighteen_world_tables :
  unsorted_results (w_col_map eighteen_world) "CORE"
                   (rows_of (w_df eighteen_world))
  = eighteen_first_seen
  /\ eval (process_rankings sort_values_default "CORE") eighteen_world
     = Ok eighteen_sorted
  /\ eval (process_rankings sort_values_stable "CORE") eighteen_world
     = Ok eighteen_first_seen.
Proof. repeat split; vm_compute; reflexivity. Qed.

(* ------------------------------------------------------------------ *)
(** ** The order of the rows *)

Lemma forallb_perm {A} (p : A -> bool) (l l' : list A) :
  Permutation l l' -> forallb p l = forallb p l'.
Proof.
  induction 1 as [| x l l' _ IH | x y l | l l' l'' _ IH1 _ IH2]; simpl.
  - reflexivity.
  - now rewrite IH.
  - destruct (p x), (p y); reflexivity.
  - congruence.
Qed.

Lemma fold_add_shift (l : list Z) :
  forall a, fold_left Z.add l a = a + fold_left Z.add l 0.
Proof.
  induction l as [| x l IH]; intro a; simpl; [lia |].
  rewrite (IH (a + x)), (IH x). lia.
Qed.

Lemma py_sum_perm (l l' : list Z) : Permutation l l' -> py_sum l = py_sum l'.
Proof.
  unfold py_sum.
  induction 1 as [| x l l' _ IH | x y l | l l' l'' _ IH1 _ IH2]; simpl.
  - reflexivity.
  - rewrite (fold_add_shift l x), (fold_add_shift l' x). now rewrite IH.
  - f_equal. lia.
  - congruence.
Qed.

Lemma ranks_of_perm c evs evs' :
  Permutation evs evs' -> Permutation (ranks_of c evs) (ranks_of c evs').
Proof.
  intro H. unfold ranks_of. now apply Permutation_map, Permutation_filter.
Qed.

Lemma row_for_perm evs evs' c :
  Permutation evs evs' -> row_for evs c = row_for evs' c.
Proof.
  intro H. unfold row_for.
  rewrite (py_sum_perm _ _ (ranks_of_perm c _ _ H)).
  now rewrite (Permutation_length (ranks_of_perm c _ _ H)).
Qed.

Lemma first_seen_perm (l l' : list string) :
  Permutation l l' -> Permutation (first_seen l) (first_seen l').
Proof.
  intro H. apply NoDup_Permutation; try apply NoDup_first_seen.
  intro x. rewrite !In_first_seen.
  split; apply Permutation_in; [exact H | now symmetry].
Qed.

Lemma unsorted_results_perm col_map ty rows rows' :
  Permutation rows rows' ->
  Permutation (unsorted_results col_map ty rows)
              (unsorted_results col_map ty rows').
Proof.
  intro H. unfold unsorted_results.
  assert (He : Permutation (events col_map ty rows) (events col_map ty rows'))
    by (unfold events; now apply Permutation_flat_map).
  rewrite (map_ext _ _ (fun c => row_for_perm _ _ c He)).
  apply Permutation_map, first_seen_perm. now apply Permutation_map.
Qed.

(** C3, as the code has it.  Handing [process_rankings] the respondent rows
    in another order gives a table with the same (Course, Average Rank,
    Count) triples, again sorted by average rank ascending.  When that
    table has at most seventeen rows, the rows whose averages tie follow
    the order in which the courses were first seen in the permuted input;
    a longer table is partitioned by the sort, which exchanges rows of
    equal average. *)
Theorem C3_row_order_independence
    (ty : string) (w : World) (vals' : list (list cell))
    (t : list ResultRow) :
  Permutation (values (w_df w)) vals' ->
  eval (process_rankings sort_values_default ty) w = Ok t ->
  exists t',
    eval (process_rankings sort_values_default ty) (with_values w vals')
    = Ok t'
    /\ Permutation t t'
    /\ StronglySorted avg_le t'
    /\ ((List.length t' <= 17)%nat ->
        forall q,
          filter (ties q) t'
          = filter (ties q)
                   (unsorted_results (w_col_map w) ty
                                     (rows_of (w_df (with_values w vals'))))).
Proof.
  intros Hperm Hrun.
  pose proof sort_values_default_ascending as HS.
  destruct (process_rankings_ok _ _ _ _ Hrun) as [Hcols ->].
  assert (Hrows : Permutation (rows_of (w_df w))
                              (rows_of (w_df (with_values w vals'))))
    by (unfold rows_of; simpl; now apply Permutation_map).
  pose proof (eval_process_rankings sort_values_default ty
                (with_values w vals')) as H'.
  change (w_col_map (with_values w vals')) with (w_col_map w) in H'.
  rewrite <- (forallb_perm _ _ _ Hrows), Hcols in H'. simpl in H'.
  eexists. split; [exact H' |].
  split.
  - rewrite !(sorted_table_perm sort_values_default _ HS).
    now apply unsorted_results_perm.
  - split; [now apply sorted_table_sorted |].
    intros Hlen q. apply sorted_table_short.
    rewrite <- (Permutation_length
                  (sorted_table_perm sort_values_default _ HS)).
    exact Hlen.
Qed.

Lemma C3_witness :
  eval (process_rankings sort_values_default "CORE")
       (with_values three_world three_rows_permuted)
  = Ok [mkRow "Course B" (1 # 1) 1; mkRow "Course C" (1 # 1) 1;
        mkRow "Course A" (1 # 1) 1; mkRow "Course D" (2 # 1) 1]
  /\ Permutation
       [mkRow "Course C" (1 # 1) 1; mkRow "Course B" (1 # 1) 1;
        mkRow "Course A" (1 # 1) 1; mkRow "Course D" (2 # 1) 1]
       [mkRow "Course B" (1 # 1) 1; mkRow "Course C" (1 # 1) 1;
        mkRow "Course A" (1 # 1) 1; mkRow "Course D" (2 # 1) 1]
  /\ StronglySorted avg_le
       [mkRow "Course B" (1 # 1) 1; mkRow "Course C" (1 # 1) 1;
        mkRow "Course A" (1 # 1) 1; mkRow "Course D" (2 # 1) 1]
  /\ forall q,
       filter (ties q)
              [mkRow "Course B" (1 # 1) 1; mkRow "Course C" (1 # 1) 1;
               mkRow "Course A" (1 # 1) 1; mkRow "Course D" (2 # 1) 1]
       = filter (ties q)
                (unsorted_results
                   (w_col_map three_world) "CORE"
                   (rows_of (w_df (with_values three_world
                                               three_rows_permuted)))).
Proof.
  destruct (C3_row_order_independence "CORE" three_world three_rows_permuted
              [mkRow "Course C" (1 # 1) 1; mkRow "Course B" (1 # 1) 1;
               mkRow "Course A" (1 # 1) 1; mkRow "Course D" (2 # 1) 1]
              (perm_swap _ _ _) eq_refl)
    as [t' [Hrun [Hperm [Hsorted Hties]]]].
  assert (E : t' = [mkRow "Course B" (1 # 1) 1; mkRow "Course C" (1 # 1) 1;
                    mkRow "Course A" (1 # 1) 1; mkRow "Course D" (2 # 1) 1]).
  { assert (Hrun' : eval (process_rankings sort_values_default "CORE")
                         (with_values three_world three_rows_permuted)
                    = Ok [mkRow "Course B" (1 # 1) 1;
                          mkRow "Course C" (1 # 1) 1;
                          mkRow "Course A" (1 # 1) 1;
                          mkRow "Course D" (2 # 1) 1])
      by (vm_compute; reflexivity).
    rewrite Hrun' in Hrun. now injection Hrun. }
  subst t'.
  split; [exact Hrun |].
  split; [exact Hperm |].
  split; [exact Hsorted |].
  apply Hties. simpl. lia.
Defined.

(** C3, as the specification words it, fails.  With the two respondents of
    [eighteen_world] exchanged, the courses are first seen as 18, 17, ...,
    01, all with the average 19/2; the table comes back as 18, 03, 04, ...,
    17, 02, 01. *)
Lemma C3_counterexample :
  ~ (forall ty w vals' t t',
        Permutation (values (w_df w)) vals' ->
        eval (process_rankings sort_values_default ty) w = Ok t ->
        eval (process_rankings sort_values_default ty) (with_values w vals')
        = Ok t' ->
        Permutation t t'
        /\ forall q,
             filter (ties q) t'
             = filter (ties q)
                 (unsorted_results
                    (w_col_map w) ty
                    (rows_of (w_df (with_values w vals'))))).
Proof.
  intro H.
  assert (Hrun : eval (process_rankings sort_values_default "CORE")
                      eighteen_world
                 = Ok eighteen_sorted)
    by (vm_compute; reflexivity).
  assert (Hrun' : eval (process_rankings sort_values_default "CORE")
                       (with_values eighteen_world [downward; upward])
                  = Ok eighteen_permuted_sorted)
    by (vm_compute; reflexivity).
  destruct (H "CORE" eighteen_world [downward; upward]
              eighteen_sorted eighteen_permuted_sorted
              (perm_swap _ _ _) Hrun Hrun') as [_ Hties].
  specialize (Hties (19 # 2)%Q).
  vm_compute in Hties. discriminate Hties.
Qed.

(** The two tables of the permuted survey, in full. *)
Example eighteen_permuted_tables :
  unsorted_results (w_col_map eighteen_world) "CORE"
                   (rows_of (w_df (with_values eighteen_world
                                               [downward; upward])))
  = eighteen_permuted_first_seen
  /\ eval (process_rankings sort_values_default "CORE")
          (with_values eighteen_world [downward; upward])
     = Ok eighteen_permuted_sorted.
Proof. split; vm_compute; reflexivity. Qed.

(** Even under a stable sort the two tables need not be equal as lists:
    the order in which the courses are first seen moves with the rows, and
    the tied courses with it. *)
Example row_order_moves_ties :
  eval (process_rankings sort_values_stable "CORE") three_world
  = Ok [mkRow "Course C" (1 # 1) 1; mkRow "Course B" (1 # 1) 1;
        mkRow "Course A" (1 # 1) 1; mkRow "Course D" (2 # 1) 1]
  /\ eval (process_rankings sort_values_stable "CORE")
          (with_values three_world three_rows_permuted)
     = Ok [mkRow "Course B" (1 # 1) 1; mkRow "Course C" (1 # 1) 1;
           mkRow "Course A" (1 # 1) 1; mkRow "Course D" (2 # 1) 1].
Proof. split; vm_compute; reflexivity. Qed.

(* ------------------------------------------------------------------ *)
(** ** Categories the aggregator does not know *)

Lemma unrecognized_priority (cat : string) :
  recognized cat = false ->
  String.eqb cat "Did not take" = false /\ category_priority cat = 0.
Proof.
  unfold recognized, category_priority. simpl.
  destruct (String.eqb cat "Most Beneficial"); [discriminate |].
  destruct (String.eqb cat "Neutral"); [discriminate |].
  destruct (String.eqb cat "Least Beneficial"); [discriminate |].
  destruct (String.eqb cat "Did not take"); [discriminate |].
  auto.
Qed.

(** C5, as the code has it.  [process_rankings] has no check on the
    category: a rating whose column carries a category other than the four
    known ones is built with priority 0, which sorts in front of "Most
    Beneficial", and the run goes on.  The run returns a table whenever
    every row carries the columns of the requested type. *)
Theorem C5_unrecognized_category_is_ranked
    (sort_values : list ResultRow -> list ResultRow) (ty : string)
    (w : World) :
  forallb (has_cols (select_type_cols (w_col_map w) ty)) (rows_of (w_df w))
  = true ->
  (exists t, eval (process_rankings sort_values ty) w = Ok t)
  /\ forall row sc col meta v,
       Dict.get (w_col_map w) col = Some meta ->
       Dict.get row col = Some (Num v) ->
       recognized (m_category meta) = false ->
       eval (student_courses_step row sc col) w
       = Ok (sc ++ [mkItem (m_course meta) 0 v])%list.
Proof.
  intro Hcols. split.
  - pose proof (eval_process_rankings sort_values ty w) as H.
    rewrite Hcols in H. eexists. exact H.
  - intros row sc col meta v Hmeta Hval Hcat.
    destruct (unrecognized_priority _ Hcat) as [Hdnt Hprio].
    unfold student_courses_step.
    rewrite eval_bind by apply readonly_col_map_getitem.
    unfold eval at 1, col_map_getitem. simpl. rewrite Hmeta.
    rewrite eval_bind by apply readonly_series_getitem.
    unfold series_getitem. rewrite Hval. simpl.
    rewrite Hdnt, Hprio. reflexivity.
Qed.

Lemma C5_witness :
  (exists t, eval (process_rankings sort_values_stable "CORE") stray_world
             = Ok t)
  /\ forall row sc col meta v,
       Dict.get (w_col_map stray_world) col = Some meta ->
       Dict.get row col = Some (Num v) ->
       recognized (m_category meta) = false ->
       eval (student_courses_step row sc col) stray_world
       = Ok (sc ++ [mkItem (m_course meta) 0 v])%list.
Proof.
  apply (C5_unrecognized_category_is_ranked sort_values_stable "CORE"
           stray_world).
  vm_compute. reflexivity.
Defined.

(** C5, as the specification words it, fails: with a category that is none
    of the four in the metadata of a rated column, the run does not abort;
    it returns a table, in which that course is ranked first. *)
Lemma C5_counterexample :
  ~ (forall (sort_values : list ResultRow -> list ResultRow) ty w
            col meta row v,
        In col (select_type_cols (w_col_map w) ty) ->
        Dict.get (w_col_map w) col = Some meta ->
        recognized (m_category meta) = false ->
        In row (rows_of (w_df w)) ->
        Dict.get row col = Some (Num v) ->
        exists e, eval (process_rankings sort_values ty) w = Raise e).
Proof.
  intro H.
  destruct (H sort_values_stable "CORE" stray_world col_X
              (mkMeta "CORE" "Somewhat Beneficial" "Course X")
              (combine [col_A; col_X] [Num 1; Num 1]) 1) as [e He].
  - vm_compute. auto.
  - vm_compute. reflexivity.
  - vm_compute. reflexivity.
  - vm_compute. auto.
  - vm_compute. reflexivity.
  - vm_compute in He. discriminate He.
Qed.

Example stray_world_table :
  eval (process_rankings sort_values_stable "CORE") stray_world
  = Ok [mkRow "Course X" (1 # 1) 1; mkRow "Course A" (2 # 1) 1].
Proof. vm_compute. reflexivity. Qed.

(* ------------------------------------------------------------------ *)
(** ** Headers *)

Lemma prefix_refl (s : string) : String.prefix s s = true.
Proof.
  induction s as [| a s IH]; simpl; [reflexivity |].
  destruct (ascii_dec a a); [exact IH | congruence].
Qed.

Lemma rfind_from_some (pat s : string) :
  forall n i,
    String.prefix pat (PyStr.drop n s) = true ->
    PyStr.rfind_from pat s i <> None.
Proof.
  induction s as [| a s IH]; intros n i H.
  - destruct n; simpl in *; rewrite H; discriminate.
  - cbn [PyStr.rfind_from]. destruct n as [| n].
    + cbn [PyStr.drop] in H. rewrite H.
      destruct (PyStr.rfind_from pat s (S i)); discriminate.
    + cbn [PyStr.drop] in H.
      specialize (IH n (S i) H).
      destruct (PyStr.rfind_from pat s (S i)); [discriminate | congruence].
Qed.

Lemma rfind_of_endswith (s suf : string) :
  PyStr.endswith s suf = true -> PyStr.rfind s suf <> -1.
Proof.
  unfold PyStr.endswith, PyStr.rfind. intro H.
  apply andb_true_iff in H. destruct H as [_ H].
  apply String.eqb_eq in H.
  pose proof (rfind_from_some suf s
                (String.length s - String.length suf) 0) as Hr.
  rewrite H, prefix_refl in Hr. specialize (Hr eq_refl).
  destruct (PyStr.rfind_from suf s 0); [lia | congruence].
Qed.

Lemma find_lower_bound (s pat : string) : -1 <= PyStr.find s pat.
Proof.
  unfold PyStr.find. destruct (PyStr.find_from pat s 0); lia.
Qed.

Lemma parse_accepts (col_map : ColMap) (out : list string)
    (col c_type cat : string) :
  (0 < String.length (category_segment cat))%nat ->
  PyStr.endswith col rank_suffix = true ->
  (let prefix := category_segment cat in
   let start_idx := PyStr.find col prefix + Z.of_nat (String.length prefix) in
   let end_idx := PyStr.rfind col rank_suffix in
   if (start_idx =? -1) || (end_idx =? -1) then (col_map, out)
   else (Dict.set col_map col
           (mkMeta c_type cat (PyStr.slice col start_idx end_idx)), out))
  = (Dict.set col_map col (entry_for c_type col cat), out).
Proof.
  intros Hlen Hend. cbv zeta.
  pose proof (find_lower_bound col (category_segment cat)) as Hf.
  pose proof (rfind_of_endswith _ _ Hend) as Hr.
  replace (_ =? -1) with false by (symmetry; apply Z.eqb_neq; lia).
  replace (PyStr.rfind col rank_suffix =? -1) with false
    by (symmetry; now apply Z.eqb_neq).
  reflexivity.
Qed.

(** C6, as the code has it.  A header that fails one of the structural
    checks (course type, ranking question, trailing " - Rank") is skipped
    without a message.  A header that passes them and holds no category
    segment is skipped with a warning.  A header that passes them and holds
    one or several category segments is accepted, with the first category,
    in the order "Most Beneficial", "Neutral", "Least Beneficial", "Did not
    take", whose segment occurs in it. *)
Theorem C6_parse_column_choice
    (col_map : ColMap) (out : list string) (col : string) :
  if structural_ok col then
    match category_matches col with
    | [] => parse_column (col_map, out) col
            = (col_map, (out ++ [warning col])%list)
    | cat :: _ =>
        exists c_type,
          column_type col = Some c_type
          /\ parse_column (col_map, out) col
             = (Dict.set col_map col (entry_for c_type col cat), out)
    end
  else parse_column (col_map, out) col = (col_map, out).
Proof.
  unfold structural_ok, parse_column.
  destruct (column_type col) as [c_type |]; [| reflexivity].
  destruct (PyStr.contains " - Ranks - " col); [| reflexivity].
  destruct (PyStr.endswith col rank_suffix) eqn:Hend; [| reflexivity].
  cbn [andb negb].
  unfold find_category, category_matches, rank_categories.
  cbn [app List.find filter].
  destruct (PyStr.contains (category_segment "Most Beneficial") col).
  { exists c_type. split; [reflexivity |].
    apply parse_accepts; [cbn; lia | exact Hend]. }
  destruct (PyStr.contains (category_segment "Neutral") col).
  { exists c_type. split; [reflexivity |].
    apply parse_accepts; [cbn; lia | exact Hend]. }
  destruct (PyStr.contains (category_segment "Least Beneficial") col).
  { exists c_type. split; [reflexivity |].
    apply parse_accepts; [cbn; lia | exact Hend]. }
  destruct (PyStr.contains (category_segment "Did not take") col).
  { exists c_type. split; [reflexivity |].
    apply parse_accepts; [cbn; lia | exact Hend]. }
  reflexivity.
Qed.

(** C6, as the specification words it, fails: a header that passes the
    structural checks and in which two category segments occur is not
    skipped; it enters the map under the category that comes first in the
    parser's list, and nothing is printed. *)
Lemma C6_counterexample :
  ~ (forall col_map out col,
        structural_ok col = true ->
        List.length (category_matches col) <> 1%nat ->
        parse_column (col_map, out) col
        = (col_map, (out ++ [warning col])%list)).
Proof.
  intro H.
  specialize (H [] [] col_two_categories).
  assert (Hs : structural_ok col_two_categories = true)
    by (vm_compute; reflexivity).
  assert (Hm : List.length (category_matches col_two_categories) <> 1%nat)
    by (vm_compute; discriminate).
  specialize (H Hs Hm). vm_compute in H. discriminate H.
Qed.

Example two_categories_accepted :
  category_matches col_two_categories = ["Most Beneficial"; "Neutral"]
  /\ parse_column ([], []) col_two_categories
     = ([(col_two_categories, mkMeta "CORE" "Most Beneficial" "Course A")],
        []).
Proof. split; vm_compute; reflexivity. Qed.

Example missing_rank_marker_is_silent :
  structural_ok col_group = false
  /\ parse_column ([], []) col_group = ([], []).
Proof. split; vm_compute; reflexivity. Qed.

(* ================================================================== *)
(** * Further properties of the header parser *)

Lemma parse_column_step (col_map : ColMap) (out : list string) (col : string) :
  parse_column (col_map, out) col
  = match (if structural_ok col then entry_of col else None) with
    | Some m => (Dict.set col_map col m, out)
    | None =>
        (col_map, if warned col then (out ++ [warning col])%list else out)
    end.
Proof.
  unfold warned, entry_of, structural_ok, parse_column.
  destruct (column_type col) as [c_type |]; [| reflexivity].
  destruct (PyStr.contains " - Ranks - " col); [| reflexivity].
  destruct (PyStr.endswith col rank_suffix) eqn:Hend; [| reflexivity].
  cbn [andb negb].
  unfold find_category, category_matches, rank_categories.
  cbn [app List.find filter].
  destruct (PyStr.contains (category_segment "Most Beneficial") col).
  { apply parse_accepts; [cbn; lia | exact Hend]. }
  destruct (PyStr.contains (category_segment "Neutral") col).
  { apply parse_accepts; [cbn; lia | exact Hend]. }
  destruct (PyStr.contains (category_segment "Least Beneficial") col).
  { apply parse_accepts; [cbn; lia | exact Hend]. }
  destruct (PyStr.contains (category_segment "Did not take") col).
  { apply parse_accepts; [cbn; lia | exact Hend]. }
  reflexivity.
Qed.

Lemma accepted_entry (col : string) :
  accepted col = true ->
  exists m, (if structural_ok col then entry_of col else None) = Some m
            /\ entry_of col = Some m.
Proof.
  unfold accepted, entry_of, structural_ok.
  destruct (column_type col) as [c_type |]; [| discriminate].
  destruct (PyStr.contains " - Ranks - " col && PyStr.endswith col rank_suffix);
    [| discriminate].
  destruct (category_matches col) as [| cat rest]; [discriminate |].
  eauto.
Qed.

Lemma not_accepted_entry (col : string) :
  accepted col = false ->
  (if structural_ok col then entry_of col else None) = None.
Proof.
  unfold accepted, entry_of, structural_ok.
  destruct (column_type col) as [c_type |]; [| reflexivity].
  destruct (PyStr.contains " - Ranks - " col && PyStr.endswith col rank_suffix);
    [| reflexivity].
  destruct (category_matches col) as [| cat rest]; [reflexivity | discriminate].
Qed.

Lemma accepted_not_warned (col : string) :
  accepted col = true -> warned col = false.
Proof.
  unfold accepted, warned. destruct (structural_ok col); [| reflexivity].
  destruct (category_matches col); [discriminate | reflexivity].
Qed.

Lemma keys_set {V} (d : Dict.t V) (k : string) (v : V) :
  Dict.keys (Dict.set d k v) = add_key (Dict.keys d) k.
Proof.
  unfold add_key. rewrite mem_existsb.
  destruct (Dict.mem d k) eqn:Hm.
  - unfold Dict.mem in Hm.
    induction d as [| [k' v'] d IH]; simpl in *; [discriminate |].
    destruct (String.eqb k' k); simpl; [reflexivity |].
    now rewrite IH.
  - rewrite set_absent by exact Hm. unfold Dict.keys. now rewrite map_app.
Qed.

Lemma get_set {V} (d : Dict.t V) (k k' : string) (v : V) :
  Dict.get (Dict.set d k v) k'
  = if String.eqb k k' then Some v else Dict.get d k'.
Proof.
  induction d as [| [k0 v0] d IH]; simpl; [reflexivity |].
  destruct (String.eqb k0 k) eqn:E0; simpl.
  - apply String.eqb_eq in E0. subst k0.
    destruct (String.eqb k k'); reflexivity.
  - destruct (String.eqb k0 k') eqn:E1.
    + apply String.eqb_eq in E1. subst k0. now rewrite (String.eqb_sym k k'), E0.
    + exact IH.
Qed.

Lemma parse_columns_from (cols : list string) :
  forall col_map out,
    Dict.keys (fst (fold_left parse_column cols (col_map, out)))
    = fold_left add_key (filter accepted cols) (Dict.keys col_map)
    /\ snd (fold_left parse_column cols (col_map, out))
       = (out ++ map warning (filter warned cols))%list
    /\ forall col,
         Dict.get (fst (fold_left parse_column cols (col_map, out))) col
         = if existsb (String.eqb col) (filter accepted cols)
           then entry_of col else Dict.get col_map col.
Proof.
  induction cols as [| c cols IH]; intros col_map out.
  - simpl. rewrite app_nil_r. auto.
  - cbn [fold_left filter]. rewrite parse_column_step.
    destruct (accepted c) eqn:Hacc.
    + destruct (accepted_entry c Hacc) as [m [-> Hm]].
      rewrite (accepted_not_warned c Hacc). cbv iota.
      destruct (IH (Dict.set col_map c m) out) as [Hk [Ho Hg]].
      split; [| split].
      * etransitivity; [exact Hk |]. rewrite keys_set. reflexivity.
      * exact Ho.
      * intro col. etransitivity; [apply Hg |]. rewrite get_set.
        cbn [existsb].
        destruct (existsb (String.eqb col) (filter accepted cols)).
        -- now rewrite orb_true_r.
        -- rewrite orb_false_r, (String.eqb_sym c col).
           destruct (String.eqb col c) eqn:E; [| reflexivity].
           apply String.eqb_eq in E. now subst.
    + rewrite (not_accepted_entry c Hacc). cbv iota.
      destruct (IH col_map (if warned c then (out ++ [warning c])%list else out))
        as [Hk [Ho Hg]].
      split; [exact Hk |]. split; [| exact Hg].
      etransitivity; [exact Ho |].
      destruct (warned c); cbn [map]; [| reflexivity].
      now rewrite <- app_assoc.
Qed.

Lemma get_some_in_keys {V} (d : Dict.t V) (k : string) (v : V) :
  Dict.get d k = Some v -> In (k, v) d.
Proof.
  induction d as [| [k' v'] d IH]; simpl; [discriminate |].
  destruct (String.eqb k' k) eqn:E.
  - apply String.eqb_eq in E. intros [= ->]. left. now subst.
  - intro H. right. auto.
Qed.

Lemma in_get_nodup {V} (d : Dict.t V) (k : string) (v : V) :
  NoDup (Dict.keys d) -> In (k, v) d -> Dict.get d k = Some v.
Proof.
  induction d as [| [k' v'] d IH]; simpl; [tauto |].
  intros Hnd [[= -> ->] | Hin].
  - now rewrite String.eqb_refl.
  - inversion Hnd as [| ? ? Hnotin Hnd']; subst.
    destruct (String.eqb k' k) eqn:E; [| auto].
    apply String.eqb_eq in E. subst k'. exfalso. apply Hnotin.
    unfold Dict.keys. apply in_map_iff. exists (k, v). auto.
Qed.

Lemma existsb_eqb_filter (p : string -> bool) (col : string)
    (cols : list string) :
  existsb (String.eqb col) (filter p cols) = true
  <-> In col cols /\ p col = true.
Proof. rewrite existsb_eqb_In. apply filter_In. Qed.

Lemma parse_columns_closed (cols : list string) :
  Dict.keys (fst (parse_columns cols)) = first_seen (filter accepted cols)
  /\ snd (parse_columns cols) = map warning (filter warned cols)
  /\ forall col,
       Dict.get (fst (parse_columns cols)) col
       = if existsb (String.eqb col) (filter accepted cols)
         then entry_of col else None.
Proof. exact (parse_columns_from cols [] []). Qed.

(** The keys of the map that [parse_columns] returns are the accepted
    headers, each once, in the order of their first occurrence. *)
Theorem parse_columns_keys (cols : list string) :
  Dict.keys (fst (parse_columns cols)) = first_seen (filter accepted cols).
Proof.
  exact (proj1 (parse_columns_closed cols)).
Qed.

(** What [parse_columns] prints: one warning for each occurrence of a
    header that passes the structural checks and holds no category
    segment, in the order of the headers, and nothing else. *)
Theorem parse_columns_warnings (cols : list string) :
  snd (parse_columns cols) = map warning (filter warned cols).
Proof.
  exact (proj1 (proj2 (parse_columns_closed cols))).
Qed.

(** The entry of a header in the map depends on the header alone: a header
    is mapped to [m] exactly when it occurs among the columns, is accepted,
    and [m] is the metadata read off it, whatever the other headers are and
    however often it occurs. *)
Theorem parse_columns_lookup (cols : list string) (col : string) (m : Meta) :
  Dict.get (fst (parse_columns cols)) col = Some m
  <-> In col cols /\ accepted col = true /\ entry_of col = Some m.
Proof.
  destruct (parse_columns_closed cols) as [_ [_ Hg]]. rewrite Hg.
  destruct (existsb (String.eqb col) (filter accepted cols)) eqn:E.
  - apply existsb_eqb_filter in E. tauto.
  - simpl. split; [discriminate |]. intros [H1 [H2 _]].
    assert (E' : existsb (String.eqb col) (filter accepted cols) = true)
      by (apply existsb_eqb_filter; auto).
    congruence.
Qed.

Lemma category_matches_recognized (col cat : string) :
  In cat (category_matches col) -> recognized cat = true.
Proof.
  unfold category_matches, recognized. intro H. apply filter_In in H.
  apply existsb_eqb_In. tauto.
Qed.

Lemma entry_of_wellformed (col : string) (m : Meta) :
  entry_of col = Some m ->
  recognized (m_category m) = true
  /\ (m_type m = "CORE" \/ m_type m = "ELECTIVE").
Proof.
  unfold entry_of, entry_for.
  destruct (column_type col) as [c_type |] eqn:Ht; [| discriminate].
  destruct (category_matches col) as [| cat rest] eqn:Hc; [discriminate |].
  intros [= <-]. simpl. split.
  - apply (category_matches_recognized col). rewrite Hc. now left.
  - unfold column_type in Ht.
    destruct (PyStr.contains "MAcc CORE courses" col);
      [injection Ht as <-; auto |].
    destruct (PyStr.contains "MAcc Elective courses" col);
      [injection Ht as <-; auto | discriminate].
Qed.

Lemma parse_columns_nodup (cols : list string) :
  NoDup (Dict.keys (fst (parse_columns cols))).
Proof.
  rewrite (proj1 (parse_columns_closed cols)). apply NoDup_first_seen.
Qed.

Lemma parse_columns_entry (cols : list string) (col : string) (m : Meta) :
  In (col, m) (fst (parse_columns cols)) ->
  In col cols /\ accepted col = true /\ entry_of col = Some m.
Proof.
  intro Hin.
  apply (in_get_nodup _ _ _ (parse_columns_nodup cols)) in Hin.
  destruct (parse_columns_closed cols) as [_ [_ Hg]]. rewrite Hg in Hin.
  destruct (existsb (String.eqb col) (filter accepted cols)) eqn:E;
    [| discriminate].
  apply existsb_eqb_filter in E. tauto.
Qed.

(** Every entry of the map that [parse_columns] returns carries one of the
    four categories and one of the two course types, and its header is one
    of the columns and passes the structural checks. *)
Theorem parse_columns_invariant
    (cols : list string) (col : string) (m : Meta) :
  In (col, m) (fst (parse_columns cols)) ->
  In col cols
  /\ structural_ok col = true
  /\ recognized (m_category m) = true
  /\ (m_type m = "CORE" \/ m_type m = "ELECTIVE").
Proof.
  intro Hin. destruct (parse_columns_entry _ _ _ Hin) as [Hc [Ha He]].
  split; [exact Hc |]. split.
  - unfold accepted in Ha. now apply andb_true_iff in Ha.
  - now apply (entry_of_wellformed col).
Qed.

Lemma parse_columns_invariant_witness :
  In col_C sample_columns
  /\ structural_ok col_C = true
  /\ recognized (m_category (mkMeta "CORE" "Neutral" "Course C")) = true
  /\ (m_type (mkMeta "CORE" "Neutral" "Course C") = "CORE"
      \/ m_type (mkMeta "CORE" "Neutral" "Course C") = "ELECTIVE").
Proof.
  apply (parse_columns_invariant sample_columns col_C
           (mkMeta "CORE" "Neutral" "Course C")).
  vm_compute. auto.
Defined.

(* ------------------------------------------------------------------ *)
(** ** Headers built from their parts *)

Lemma length_append (a b : string) :
  String.length (a ++ b) = (String.length a + String.length b)%nat.
Proof. induction a as [| c a IH]; simpl; [reflexivity | now rewrite IH]. Qed.

Lemma append_assoc (a b c : string) : ((a ++ b) ++ c)%string = (a ++ b ++ c)%string.
Proof. induction a as [| x a IH]; simpl; [reflexivity | now rewrite IH]. Qed.

Lemma drop_append (a s : string) : PyStr.drop (String.length a) (a ++ s) = s.
Proof. induction a as [| c a IH]; simpl; [reflexivity | exact IH]. Qed.

Lemma prefix_append (p s : string) : String.prefix p (p ++ s) = true.
Proof.
  induction p as [| c p IH]; simpl; [destruct s; reflexivity |].
  destruct (ascii_dec c c); [exact IH | congruence].
Qed.

Lemma prefix_length (p s : string) :
  String.prefix p s = true -> (String.length p <= String.length s)%nat.
Proof.
  revert s. induction p as [| c p IH]; intros s H; simpl; [lia |].
  destruct s as [| d s]; simpl in H; [discriminate |].
  destruct (ascii_dec c d); [| discriminate].
  apply IH in H. simpl. lia.
Qed.

Lemma find_from_some (pat s : string) :
  forall n i,
    String.prefix pat (PyStr.drop n s) = true ->
    PyStr.find_from pat s i <> None.
Proof.
  induction s as [| a s IH]; intros n i H.
  - destruct n; simpl in *; rewrite H; discriminate.
  - cbn [PyStr.find_from]. destruct (String.prefix pat (String a s)) eqn:E;
      [discriminate |].
    destruct n as [| n]; cbn [PyStr.drop] in H; [congruence |].
    apply (IH n (S i) H).
Qed.

Lemma contains_at (pat a s : string) :
  String.prefix pat s = true -> PyStr.contains pat (a ++ s) = true.
Proof.
  intro H. unfold PyStr.contains.
  pose proof (find_from_some pat (a ++ s) (String.length a) 0) as Hf.
  rewrite drop_append in Hf. specialize (Hf H).
  destruct (PyStr.find_from pat (a ++ s) 0); [reflexivity | congruence].
Qed.

Lemma endswith_append (a suf : string) : PyStr.endswith (a ++ suf) suf = true.
Proof.
  unfold PyStr.endswith. rewrite length_append.
  replace (String.length a + String.length suf - String.length suf)%nat
    with (String.length a) by lia.
  rewrite drop_append, String.eqb_refl.
  rewrite andb_true_r. apply Nat.leb_le. lia.
Qed.

Lemma rfind_from_short (pat s : string) :
  forall i,
    (String.length s < String.length pat)%nat ->
    PyStr.rfind_from pat s i = None.
Proof.
  induction s as [| a s IH]; intros i Hlen; cbn [PyStr.rfind_from].
  - destruct (String.prefix pat EmptyString) eqn:E; [| reflexivity].
    apply prefix_length in E. lia.
  - rewrite IH by (simpl in Hlen; lia).
    destruct (String.prefix pat (String a s)) eqn:E; [| reflexivity].
    apply prefix_length in E. lia.
Qed.

Lemma rfind_from_self (pat : string) (i : nat) :
  PyStr.rfind_from pat pat i = Some i.
Proof.
  destruct pat as [| c pat].
  - reflexivity.
  - cbn [PyStr.rfind_from].
    rewrite rfind_from_short by (simpl; lia).
    now rewrite prefix_refl.
Qed.

Lemma rfind_from_append (a suf : string) :
  forall i,
    PyStr.rfind_from suf (a ++ suf) i = Some (i + String.length a)%nat.
Proof.
  induction a as [| c a IH]; intro i.
  - simpl. rewrite rfind_from_self. f_equal. lia.
  - change (String c a ++ suf)%string with (String c (a ++ suf)).
    cbn [PyStr.rfind_from]. rewrite IH. f_equal. simpl. lia.
Qed.

(** The last occurrence of the suffix of a string is the suffix itself. *)
Lemma rfind_append (a suf : string) :
  PyStr.rfind (a ++ suf) suf = Z.of_nat (String.length a).
Proof. unfold PyStr.rfind. now rewrite rfind_from_append. Qed.

Lemma substring_skip (a s : string) (m : nat) :
  String.substring (String.length a) m (a ++ s) = String.substring 0 m s.
Proof. induction a as [| c a IH]; simpl; [reflexivity | exact IH]. Qed.

Lemma substring_take (b s : string) :
  String.substring 0 (String.length b) (b ++ s) = b.
Proof.
  induction b as [| c b IH]; simpl.
  - destruct s; reflexivity.
  - now rewrite IH.
Qed.

Lemma slice_bound_inside (len : nat) (i : nat) :
  (i <= len)%nat -> PyStr.slice_bound len (Z.of_nat i) = i.
Proof.
  intro H. unfold PyStr.slice_bound.
  destruct (Z.ltb_spec (Z.of_nat i) 0); [lia |].
  destruct (Z.ltb_spec (Z.of_nat i) 0); [lia |].
  destruct (Z.ltb_spec (Z.of_nat len) (Z.of_nat i)); [lia |].
  apply Nat2Z.id.
Qed.

(** [(a ++ b ++ c)[len a : len a + len b]] is [b]. *)
Lemma slice_middle (a b c : string) :
  PyStr.slice (a ++ b ++ c)
              (Z.of_nat (String.length a))
              (Z.of_nat (String.length a + String.length b))
  = b.
Proof.
  unfold PyStr.slice. rewrite !length_append.
  rewrite !slice_bound_inside by lia.
  replace (String.length a + String.length b - String.length a)%nat
    with (String.length b) by lia.
  rewrite substring_skip. apply substring_take.
Qed.

(** Round trip.  Take a header written as the question text, then the
    segment of a category, then a course name, then " - Rank".  If the
    header announces a course type, the category is the first one of the
    parser's list whose segment occurs in the header, and that segment
    first occurs right after the question text, then [parse_columns] files
    the header under exactly that type, that category and that course
    name. *)
Theorem parse_column_round_trip
    (col_map : ColMap) (out : list string)
    (q cat course c_type : string) (others : list string) :
  let col := (q ++ category_segment cat ++ course ++ rank_suffix)%string in
  column_type col = Some c_type ->
  category_matches col = cat :: others ->
  PyStr.find col (category_segment cat) = Z.of_nat (String.length q) ->
  parse_column (col_map, out) col
  = (Dict.set col_map col (mkMeta c_type cat course), out).
Proof.
  intros col Htype Hcat Hfind.
  assert (Hcol : col = ((q ++ category_segment cat ++ course) ++ rank_suffix)%string)
    by (unfold col; now rewrite !append_assoc).
  assert (Hend : PyStr.endswith col rank_suffix = true)
    by (rewrite Hcol; apply endswith_append).
  assert (Hranks : PyStr.contains " - Ranks - " col = true)
    by (unfold col, category_segment; apply contains_at;
        rewrite append_assoc; apply prefix_append).
  assert (Hok : structural_ok col = true)
    by (unfold structural_ok; now rewrite Htype, Hranks, Hend).
  rewrite parse_column_step, Hok.
  unfold entry_of. rewrite Htype, Hcat. cbv iota.
  unfold entry_for. rewrite Hfind.
  rewrite Hcol at 3. rewrite rfind_append.
  rewrite <- Nat2Z.inj_add, !length_append.
  replace (String.length q + String.length (category_segment cat))%nat
    with (String.length (q ++ category_segment cat)) by apply length_append.
  replace col with ((q ++ category_segment cat) ++ course ++ rank_suffix)%string
    at 2 by (unfold col; now rewrite append_assoc).
  rewrite Nat.add_assoc, <- length_append.
  rewrite slice_middle. reflexivity.
Qed.

Lemma parse_column_round_trip_witness :
  parse_column ([], [])
    ("Q5 MAcc CORE courses" ++ category_segment "Neutral" ++ "Course C"
     ++ rank_suffix)%string
  = (Dict.set []
       ("Q5 MAcc CORE courses" ++ category_segment "Neutral" ++ "Course C"
        ++ rank_suffix)%string
       (mkMeta "CORE" "Neutral" "Course C"), []).
Proof.
  apply (parse_column_round_trip [] [] "Q5 MAcc CORE courses" "Neutral"
           "Course C" "CORE" []).
  - vm_compute. reflexivity.
  - vm_compute. reflexivity.
  - vm_compute. reflexivity.
Defined.

(* ================================================================== *)
(** * Further properties of the aggregator *)

(** ** Exceptions *)

Lemma mem_get_none {V} (d : Dict.t V) (k : string) :
  Dict.mem d k = false <-> Dict.get d k = None.
Proof.
  unfold Dict.mem. destruct (Dict.get d k); split; congruence.
Qed.

Lemma student_courses_step_raises row sc col w e :
  In col (Dict.keys (w_col_map w)) ->
  eval (student_courses_step row sc col) w = Raise e ->
  e = KeyError col /\ Dict.get row col = None.
Proof.
  intros Hk H. destruct (get_some_of_key _ _ Hk) as [meta Hmeta].
  unfold student_courses_step in H.
  rewrite eval_bind in H by apply readonly_col_map_getitem.
  unfold eval at 1, col_map_getitem in H. simpl in H. rewrite Hmeta in H.
  rewrite eval_bind in H by apply readonly_series_getitem.
  unfold series_getitem in H.
  destruct (Dict.get row col) as [[| v] |]; simpl in H.
  - discriminate.
  - destruct (String.eqb (m_category meta) "Did not take"); discriminate.
  - injection H as <-. auto.
Qed.

Lemma student_courses_loop_raises row w e cols :
  (forall c, In c cols -> In c (Dict.keys (w_col_map w))) ->
  forall sc,
    eval (foldM (student_courses_step row) cols sc) w = Raise e ->
    exists c, In c cols /\ e = KeyError c /\ Dict.get row c = None.
Proof.
  induction cols as [| c cols IH]; intros Hk sc H; cbn [foldM] in H.
  - discriminate.
  - rewrite eval_bind in H by apply readonly_student_courses_step.
    destruct (eval (student_courses_step row sc c) w) as [sc' | e'] eqn:E.
    + destruct (IH (fun c' Hc' => Hk c' (or_intror Hc')) sc' H)
        as [c' [Hin Hc']].
      exists c'. split; [now right | exact Hc'].
    + injection H as <-.
      apply student_courses_step_raises in E; [| apply Hk; now left].
      exists c. split; [now left | exact E].
Qed.

Lemma process_row_raises w ty d idx row e :
  eval (process_row (select_type_cols (w_col_map w) ty) d (idx, row)) w
  = Raise e ->
  exists c, In c (select_type_cols (w_col_map w) ty)
            /\ e = KeyError c /\ Dict.get row c = None.
Proof.
  unfold process_row. intro H.
  rewrite eval_bind in H by apply readonly_student_courses.
  destruct (eval (student_courses _ row) w) as [sc | e'] eqn:E;
    [discriminate |].
  injection H as <-.
  apply (student_courses_loop_raises row w e' _
           (select_type_cols_keys _ ty) [] E).
Qed.

Lemma rows_loop_raises w ty e rows :
  forall n d,
    eval (foldM (process_row (select_type_cols (w_col_map w) ty))
                (enumerate_from n rows) d) w = Raise e ->
    exists c row,
      In row rows /\ In c (select_type_cols (w_col_map w) ty)
      /\ e = KeyError c /\ Dict.get row c = None.
Proof.
  induction rows as [| row rows IH]; intros n d H;
    cbn [foldM enumerate_from] in H.
  - discriminate.
  - rewrite eval_bind in H by apply readonly_process_row.
    destruct (eval (process_row _ d (n, row)) w) as [d' | e'] eqn:E.
    + destruct (IH (S n) d' H) as [c [row' [Hin Hrest]]].
      exists c, row'. split; [now right | exact Hrest].
    + injection H as <-. apply process_row_raises in E.
      destruct E as [c Hc]. exists c, row. split; [now left | exact Hc].
Qed.

Lemma forallb_false_exists {A} (p : A -> bool) (l : list A) :
  forallb p l = false <-> exists x, In x l /\ p x = false.
Proof.
  induction l as [| a l IH]; simpl.
  - split; [discriminate | intros [x [[] _]]].
  - rewrite andb_false_iff, IH. split.
    + intros [H | [x [Hin Hx]]]; eauto.
    + intros [x [[<- | Hin] Hx]]; eauto.
Qed.

Lemma process_rankings_raise_inv
    (sort_values : list ResultRow -> list ResultRow) (ty : string)
    (w : World) (e : Exn) :
  eval (process_rankings sort_values ty) w = Raise e ->
  exists c row,
    In row (rows_of (w_df w))
    /\ In c (select_type_cols (w_col_map w) ty)
    /\ e = KeyError c
    /\ Dict.get row c = None.
Proof.
  intro H.
  pose proof (eval_process_rankings sort_values ty w) as Hy.
  destruct (forallb (has_cols (select_type_cols (w_col_map w) ty))
                    (rows_of (w_df w))) eqn:Hcols.
  - simpl in Hy. congruence.
  - clear Hy. unfold process_rankings in H.
    rewrite eval_bind in H by apply readonly_col_map_items.
    unfold eval at 1, col_map_items in H. simpl in H.
    rewrite eval_bind in H by apply readonly_iterrows.
    unfold eval at 1, iterrows, enumerate in H. simpl in H.
    fold (rows_of (w_df w)) in H.
    rewrite eval_bind in H
      by (apply readonly_foldM; intros; apply readonly_process_row).
    pose proof (eval_rows_loop w ty (rows_of (w_df w)) 0 []) as Hl.
    rewrite Hcols in Hl. destruct Hl as [c Hl].
    pose proof (rows_loop_raises w ty (KeyError c) (rows_of (w_df w)) 0 [] Hl)
      as Hr.
    match type of H with
    | match ?x with Ok _ => _ | Raise _ => _ end = _ =>
        replace x with (@Raise (Dict.t (list Z)) (KeyError c)) in H
          by (symmetry; exact Hl)
    end.
    injection H as <-. exact Hr.
Qed.

(** The division of line 136 never fails: [process_rankings] does not
    raise [ZeroDivisionError].  And a [KeyError] that it raises names a
    column of the requested type that some row of the table does not
    carry. *)
Theorem process_rankings_failures
    (sort_values : list ResultRow -> list ResultRow) (ty : string)
    (w : World) (e : Exn) :
  eval (process_rankings sort_values ty) w = Raise e ->
  e <> ZeroDivisionError
  /\ forall c,
       e = KeyError c ->
       In c (select_type_cols (w_col_map w) ty)
       /\ exists row, In row (rows_of (w_df w)) /\ Dict.get row c = None.
Proof.
  intro H.
  destruct (process_rankings_raise_inv sort_values ty w e H)
    as [c [row [Hrow [Hc [-> Hnone]]]]].
  split; [discriminate |].
  intros c' [= <-]. split; [exact Hc |]. exists row. auto.
Qed.

Lemma process_rankings_failures_witness :
  KeyError col_C <> ZeroDivisionError
  /\ forall c,
       KeyError col_C = KeyError c ->
       In c (select_type_cols (w_col_map ragged_world) "CORE")
       /\ exists row,
            In row (rows_of (w_df ragged_world)) /\ Dict.get row c = None.
Proof.
  apply (process_rankings_failures sort_values_stable "CORE" ragged_world
           (KeyError col_C)).
  vm_compute. reflexivity.
Defined.

(** Conversely, a row that lacks a column of the requested type makes the
    run fail with a [KeyError]: no table is returned from a partial scan. *)
Theorem process_rankings_missing_column
    (sort_values : list ResultRow -> list ResultRow) (ty : string)
    (w : World) (row : Series) (c : string) :
  In row (rows_of (w_df w)) ->
  In c (select_type_cols (w_col_map w) ty) ->
  Dict.get row c = None ->
  exists c', eval (process_rankings sort_values ty) w = Raise (KeyError c').
Proof.
  intros Hrow Hc Hnone.
  pose proof (eval_process_rankings sort_values ty w) as Hy.
  replace (forallb (has_cols (select_type_cols (w_col_map w) ty))
                   (rows_of (w_df w))) with false in Hy; [exact Hy |].
  symmetry. apply forallb_false_exists. exists row. split; [exact Hrow |].
  unfold has_cols. apply forallb_false_exists. exists c.
  split; [exact Hc | now apply mem_get_none].
Qed.

Lemma process_rankings_missing_column_witness :
  exists c',
    eval (process_rankings sort_values_stable "CORE") ragged_world
    = Raise (KeyError c').
Proof.
  apply (process_rankings_missing_column sort_values_stable "CORE"
           ragged_world (combine sample_columns [NaN; Num 1]) col_D).
  - vm_compute. auto.
  - vm_compute. auto.
  - vm_compute. reflexivity.
Defined.

(** ** Nothing to rank *)

Lemma map_snd_nil {A B} (l : list (A * B)) : map snd l = [] -> l = [].
Proof. destruct l; [reflexivity | discriminate]. Qed.

Lemma row_events_none col_map ty row :
  rated_count col_map ty row = 0%nat -> row_events col_map ty row = [].
Proof.
  intro H. apply map_snd_nil. rewrite row_events_ranks, H. reflexivity.
Qed.

Lemma events_none col_map ty rows :
  (forall row, In row rows -> rated_count col_map ty row = 0%nat) ->
  events col_map ty rows = [].
Proof.
  unfold events. induction rows as [| row rows IH]; intro H; simpl.
  - reflexivity.
  - rewrite row_events_none by (apply H; now left).
    apply IH. intros; apply H; now right.
Qed.

(** When no respondent holds a non-empty, non-"Did not take" cell in a
    column of the requested type, the result is the empty table:
    [sort_values] is not even called. *)
Theorem process_rankings_nothing_rated
    (sort_values : list ResultRow -> list ResultRow) (ty : string)
    (w : World) :
  forallb (has_cols (select_type_cols (w_col_map w) ty)) (rows_of (w_df w))
  = true ->
  (forall row, In row (rows_of (w_df w)) ->
               rated_count (w_col_map w) ty row = 0%nat) ->
  eval (process_rankings sort_values ty) w = Ok [].
Proof.
  intros Hcols Hnone.
  pose proof (eval_process_rankings sort_values ty w) as Hy.
  rewrite Hcols in Hy. simpl in Hy. rewrite Hy.
  unfold unsorted_results. now rewrite (events_none _ _ _ Hnone).
Qed.

Lemma process_rankings_nothing_rated_witness :
  eval (process_rankings sort_values_stable "CORE") silent_world = Ok [].
Proof.
  apply (process_rankings_nothing_rated sort_values_stable "CORE"
           silent_world).
  - vm_compute. reflexivity.
  - intros row Hin. vm_compute in Hin.
    destruct Hin as [<- | [<- | []]]; vm_compute; reflexivity.
Defined.

Lemma has_cols_nil row : has_cols [] row = true.
Proof. reflexivity. Qed.

(** A course type for which the metadata map holds no column gives the
    empty table, whatever the data table contains: no row is looked into,
    so even a damaged table raises nothing. *)
Theorem process_rankings_no_columns
    (sort_values : list ResultRow -> list ResultRow) (ty : string)
    (w : World) :
  select_type_cols (w_col_map w) ty = [] ->
  eval (process_rankings sort_values ty) w = Ok [].
Proof.
  intro Hnil.
  assert (Hcols : forallb (has_cols (select_type_cols (w_col_map w) ty))
                          (rows_of (w_df w)) = true)
    by (rewrite Hnil; apply forallb_forall; intros; apply has_cols_nil).
  pose proof (eval_process_rankings sort_values ty w) as Hy.
  rewrite Hcols in Hy. simpl in Hy. rewrite Hy.
  unfold unsorted_results. rewrite events_none; [reflexivity |].
  intros row _. unfold rated_count. now rewrite Hnil.
Qed.

Lemma process_rankings_no_columns_witness :
  eval (process_rankings sort_values_stable "ELECTIVE") ragged_world = Ok [].
Proof.
  apply (process_rankings_no_columns sort_values_stable "ELECTIVE"
           ragged_world).
  vm_compute. reflexivity.
Defined.

(** ** The rows of the table *)

Lemma courses_of_unsorted col_map ty rows :
  map Course (unsorted_results col_map ty rows)
  = first_seen (map fst (events col_map ty rows)).
Proof.
  unfold unsorted_results. rewrite map_map. simpl. apply map_id.
Qed.

Lemma in_ranks_of c g evs : In g (ranks_of c evs) <-> In (c, g) evs.
Proof.
  unfold ranks_of. rewrite in_map_iff. split.
  - intros [[c' g'] [<- Hin]]. apply filter_In in Hin. simpl in *.
    destruct Hin as [Hin E]. apply String.eqb_eq in E. now subst.
  - intro Hin. exists (c, g). split; [reflexivity |].
    apply filter_In. split; [exact Hin | apply String.eqb_refl].
Qed.

Lemma rated_course_iff c evs :
  In c (map fst evs) <-> (1 <= List.length (ranks_of c evs))%nat.
Proof.
  split.
  - intro H. apply ranks_of_nonempty in H.
    destruct (ranks_of c evs); [congruence | simpl; lia].
  - intro H. destruct (ranks_of c evs) as [| g l] eqn:E; [simpl in H; lia |].
    assert (Hin : In (c, g) evs) by (apply in_ranks_of; rewrite E; now left).
    apply in_map_iff. exists (c, g). auto.
Qed.

(** The result table holds one row for each course that has at least one
    rating entry of the requested type, and no course twice. *)
Theorem process_rankings_one_row_per_course
    (sort_values : list ResultRow -> list ResultRow) (ty : string)
    (w : World) (t : list ResultRow) :
  sorts_ascending sort_values ->
  eval (process_rankings sort_values ty) w = Ok t ->
  NoDup (map Course t)
  /\ forall c,
       In c (map Course t)
       <-> (1 <= entries (w_col_map w) ty (rows_of (w_df w)) c)%nat.
Proof.
  intros HS Hrun.
  destruct (process_rankings_ok _ _ _ _ Hrun) as [_ ->].
  pose proof (Permutation_map Course
                (sorted_table_perm sort_values
                   (unsorted_results (w_col_map w) ty (rows_of (w_df w))) HS))
    as Hperm.
  rewrite courses_of_unsorted in Hperm. split.
  - apply (Permutation_NoDup (Permutation_sym Hperm)), NoDup_first_seen.
  - intro c. rewrite <- length_ranks_of_events, <- rated_course_iff.
    rewrite <- (In_first_seen
                  (map fst (events (w_col_map w) ty (rows_of (w_df w))))).
    split; apply Permutation_in; [exact Hperm | now symmetry].
Qed.

Lemma process_rankings_one_row_per_course_witness :
  NoDup (map Course [mkRow "Course A" (4 # 2) 2; mkRow "Course B" (2 # 1) 1])
  /\ forall c,
       In c (map Course
               [mkRow "Course A" (4 # 2) 2; mkRow "Course B" (2 # 1) 1])
       <-> (1 <= entries (w_col_map twice_world) "CORE"
                         (rows_of (w_df twice_world)) c)%nat.
Proof.
  apply (process_rankings_one_row_per_course sort_values_stable "CORE"
           twice_world).
  - exact sort_values_stable_ascending.
  - vm_compute. reflexivity.
Defined.

(** ** Bounds *)

Lemma rated_count_le col_map ty row :
  (rated_count col_map ty row
   <= List.length (select_type_cols col_map ty))%nat.
Proof. unfold rated_count. apply filter_length_le. Qed.

Lemma row_events_range col_map ty row c g :
  In (c, g) (row_events col_map ty row) ->
  1 <= g <= Z.of_nat (List.length (select_type_cols col_map ty)).
Proof.
  intro Hin.
  assert (Hg : In g (map snd (row_events col_map ty row)))
    by (apply in_map_iff; exists (c, g); auto).
  rewrite row_events_ranks in Hg. apply in_map_iff in Hg.
  destruct Hg as [n [<- Hn]]. apply in_seq in Hn.
  pose proof (rated_count_le col_map ty row). lia.
Qed.

Lemma events_range col_map ty rows c g :
  In (c, g) (events col_map ty rows) ->
  1 <= g <= Z.of_nat (List.length (select_type_cols col_map ty)).
Proof.
  unfold events. rewrite in_flat_map. intros [row [_ Hin]].
  now apply (row_events_range col_map ty row c).
Qed.

Lemma py_sum_cons (x : Z) (l : list Z) : py_sum (x :: l) = x + py_sum l.
Proof. unfold py_sum. simpl. apply fold_add_shift. Qed.

Lemma py_sum_bounds (a b : Z) (l : list Z) :
  (forall g, In g l -> a <= g <= b) ->
  a * Z.of_nat (List.length l) <= py_sum l <= b * Z.of_nat (List.length l).
Proof.
  induction l as [| x l IH]; intro H.
  - unfold py_sum. simpl. lia.
  - rewrite py_sum_cons. cbn [List.length]. rewrite Nat2Z.inj_succ.
    specialize (IH (fun g Hg => H g (or_intror Hg))).
    specialize (H x (or_introl eq_refl)). nia.
Qed.

Lemma Zpos_of_nat (n : nat) :
  (1 <= n)%nat -> Z.pos (Pos.of_nat n) = Z.of_nat n.
Proof.
  intro H. rewrite <- (positive_nat_Z (Pos.of_nat n)).
  rewrite Nat2Pos.id by lia. reflexivity.
Qed.

(** Every row of the result table has a Count of at least one and an
    Average Rank between 1 and the number of columns of the requested type:
    no division by zero, and no average outside the range of the global
    ranks. *)
Theorem process_rankings_average_bounds
    (sort_values : list ResultRow -> list ResultRow) (ty : string)
    (w : World) (t : list ResultRow) (r : ResultRow) :
  sorts_ascending sort_values ->
  eval (process_rankings sort_values ty) w = Ok t ->
  In r t ->
  (1 <= Count r)%nat
  /\ (1 <= Average_Rank r)%Q
  /\ (Average_Rank r
      <= inject_Z (Z.of_nat
                     (List.length (select_type_cols (w_col_map w) ty))))%Q.
Proof.
  intros HS Hrun Hin.
  destruct (process_rankings_ok _ _ _ _ Hrun) as [_ ->].
  apply (Permutation_in _ (sorted_table_perm sort_values _ HS)) in Hin.
  unfold unsorted_results in Hin. apply in_map_iff in Hin.
  destruct Hin as [c [<- Hc]]. apply (proj1 (In_first_seen _ _)) in Hc.
  set (evs := events (w_col_map w) ty (rows_of (w_df w))) in *.
  assert (Hlen : (1 <= List.length (ranks_of c evs))%nat)
    by exact (proj1 (rated_course_iff c evs) Hc).
  pose proof (py_sum_bounds 1
                (Z.of_nat (List.length (select_type_cols (w_col_map w) ty)))
                (ranks_of c evs)) as Hb.
  assert (Hrange : forall g, In g (ranks_of c evs) ->
                   1 <= g <= Z.of_nat (List.length
                                (select_type_cols (w_col_map w) ty))).
  { intros g Hg. apply in_ranks_of in Hg.
    exact (events_range _ _ _ c g Hg). }
  specialize (Hb Hrange).
  unfold row_for. cbn [Count Average_Rank].
  split; [exact Hlen |].
  unfold Qle, inject_Z. cbn [Qnum Qden].
  rewrite Zpos_of_nat by exact Hlen. lia.
Qed.

Lemma process_rankings_average_bounds_witness :
  (1 <= Count (mkRow "Course A" (4 # 2) 2))%nat
  /\ (1 <= Average_Rank (mkRow "Course A" (4 # 2) 2))%Q
  /\ (Average_Rank (mkRow "Course A" (4 # 2) 2)
      <= inject_Z (Z.of_nat
                     (List.length
                        (select_type_cols (w_col_map twice_world) "CORE"))))%Q.
Proof.
  apply (process_rankings_average_bounds sort_values_stable "CORE"
           twice_world
           [mkRow "Course A" (4 # 2) 2; mkRow "Course B" (2 # 1) 1]).
  - exact sort_values_stable_ascending.
  - vm_compute. reflexivity.
  - simpl. auto.
Defined.

(** A course that one respondent rated, once, has that respondent's global
    rank as its Average Rank, exactly. *)
Theorem process_rankings_single_rating
    (sort_values : list ResultRow -> list ResultRow) (ty : string)
    (w : World) (t : list ResultRow) (r : ResultRow) :
  sorts_ascending sort_values ->
  eval (process_rankings sort_values ty) w = Ok t ->
  In r t ->
  Count r = 1%nat ->
  exists g,
    In (Course r, g) (events (w_col_map w) ty (rows_of (w_df w)))
    /\ Average_Rank r = inject_Z g.
Proof.
  intros HS Hrun Hin Hone.
  destruct (process_rankings_ok _ _ _ _ Hrun) as [_ ->].
  apply (Permutation_in _ (sorted_table_perm sort_values _ HS)) in Hin.
  unfold unsorted_results in Hin. apply in_map_iff in Hin.
  destruct Hin as [c [<- _]].
  unfold row_for in *. cbn [Count Average_Rank Course] in *.
  destruct (ranks_of c _) as [| g [| g' l]] eqn:E; try discriminate.
  exists g. split.
  - apply in_ranks_of. rewrite E. now left.
  - reflexivity.
Qed.

Lemma process_rankings_single_rating_witness :
  exists g,
    In (Course (mkRow "Course B" (2 # 1) 1), g)
       (events (w_col_map twice_world) "CORE" (rows_of (w_df twice_world)))
    /\ Average_Rank (mkRow "Course B" (2 # 1) 1) = inject_Z g.
Proof.
  apply (process_rankings_single_rating sort_values_stable "CORE"
           twice_world
           [mkRow "Course A" (4 # 2) 2; mkRow "Course B" (2 # 1) 1]).
  - exact sort_values_stable_ascending.
  - vm_compute. reflexivity.
  - simpl. auto.
  - reflexivity.
Defined.

(** ** Counts over the whole table *)

Lemma list_sum_perm (l l' : list nat) :
  Permutation l l' -> list_sum l = list_sum l'.
Proof.
  induction 1 as [| x l l' _ IH | x y l | l l' l'' _ IH1 _ IH2]; simpl; lia.
Qed.

Lemma list_sum_map_add {A} (f g : A -> nat) (l : list A) :
  list_sum (map (fun x => f x + g x)%nat l)
  = (list_sum (map f l) + list_sum (map g l))%nat.
Proof. induction l as [| a l IH]; simpl; lia. Qed.

Lemma list_sum_indicator_absent (k : string) (ks : list string) :
  ~ In k ks ->
  list_sum (map (fun c => if String.eqb c k then 1 else 0)%nat ks) = 0%nat.
Proof.
  induction ks as [| a ks IH]; simpl; intro H; [reflexivity |].
  destruct (String.eqb a k) eqn:E.
  - apply String.eqb_eq in E. tauto.
  - apply IH. tauto.
Qed.

Lemma list_sum_indicator (k : string) (ks : list string) :
  NoDup ks -> In k ks ->
  list_sum (map (fun c => if String.eqb c k then 1 else 0)%nat ks) = 1%nat.
Proof.
  induction 1 as [| a ks Hnotin Hnd IH]; simpl; [tauto |].
  intros [-> | Hin].
  - rewrite String.eqb_refl, list_sum_indicator_absent by exact Hnotin.
    reflexivity.
  - destruct (String.eqb a k) eqn:E.
    + apply String.eqb_eq in E. subst. contradiction.
    + now apply IH.
Qed.

Lemma length_ranks_of_cons c e evs :
  List.length (ranks_of c (e :: evs))
  = ((if String.eqb c (fst e) then 1 else 0)
     + List.length (ranks_of c evs))%nat.
Proof.
  rewrite ranks_of_cons. destruct (String.eqb c (fst e)); reflexivity.
Qed.

Lemma count_partition (ks : list string) (evs : list (string * Z)) :
  NoDup ks ->
  (forall e, In e evs -> In (fst e) ks) ->
  list_sum (map (fun c => List.length (ranks_of c evs)) ks)
  = List.length evs.
Proof.
  intro Hnd. induction evs as [| e evs IH]; intro Hin.
  - clear Hnd Hin. induction ks as [| k ks IHk]; simpl; auto.
  - rewrite (map_ext _ _ (fun c => length_ranks_of_cons c e evs)).
    rewrite list_sum_map_add.
    rewrite list_sum_indicator by (auto; apply Hin; now left).
    rewrite IH by (intros; apply Hin; now right).
    reflexivity.
Qed.

Lemma length_row_events col_map ty row :
  List.length (row_events col_map ty row) = rated_count col_map ty row.
Proof.
  rewrite <- (length_map snd), row_events_ranks, length_map.
  apply length_seq.
Qed.

Lemma length_events col_map ty rows :
  List.length (events col_map ty rows)
  = list_sum (map (rated_count col_map ty) rows).
Proof.
  unfold events. induction rows as [| row rows IH]; simpl; [reflexivity |].
  now rewrite length_app, length_row_events, IH.
Qed.

(** The Counts of the result table add up to the number of non-empty,
    non-"Did not take" cells in the columns of the requested type: every
    rating is counted once, in the row of its course. *)
Theorem process_rankings_counts_total
    (sort_values : list ResultRow -> list ResultRow) (ty : string)
    (w : World) (t : list ResultRow) :
  sorts_ascending sort_values ->
  eval (process_rankings sort_values ty) w = Ok t ->
  list_sum (map Count t)
  = list_sum (map (rated_count (w_col_map w) ty) (rows_of (w_df w))).
Proof.
  intros HS Hrun.
  destruct (process_rankings_ok _ _ _ _ Hrun) as [_ ->].
  rewrite (list_sum_perm _ _
             (Permutation_map Count
                (sorted_table_perm sort_values
                   (unsorted_results (w_col_map w) ty (rows_of (w_df w)))
                   HS))).
  unfold unsorted_results. rewrite map_map. cbn [Count row_for].
  rewrite count_partition.
  - apply length_events.
  - apply NoDup_first_seen.
  - intros e He. apply In_first_seen. now apply in_map.
Qed.

Lemma process_rankings_counts_total_witness :
  list_sum (map Count
              [mkRow "Course A" (4 # 2) 2; mkRow "Course B" (2 # 1) 1])
  = list_sum (map (rated_count (w_col_map twice_world) "CORE")
                  (rows_of (w_df twice_world))).
Proof.
  apply (process_rankings_counts_total sort_values_stable "CORE" twice_world).
  - exact sort_values_stable_ascending.
  - vm_compute. reflexivity.
Defined.

(** ** The order inside one respondent *)





Lemma insert_same_key (p v : Z) (x : Item) (l : list Item) :
  filter (same_key p v) (insert key_lt x l) = filter (same_key p v) (x :: l).
Proof.
  induction l as [| y l IH]; [reflexivity |].
  cbn [insert]. destruct (key_lt y x) eqn:E; [| reflexivity].
  cbn [filter] in *. rewrite IH.
  destruct (same_key p v x) eqn:Ex, (same_key p v y) eqn:Ey; try reflexivity.
  exfalso. unfold same_key, key_lt in *.
  apply andb_true_iff in Ex, Ey. apply orb_true_iff in E.
  destruct E as [E | E]; [| apply andb_true_iff in E]; lia.
Qed.

Lemma list_sort_same_key (p v : Z) (l : list Item) :
  filter (same_key p v) (list_sort l) = filter (same_key p v) l.
Proof.
  unfold list_sort. induction l as [| x l IH]; [reflexivity |].
  cbn [insertion_sort fold_right]. fold (insertion_sort key_lt l).
  rewrite insert_same_key. cbn [filter]. now rewrite IH.
Qed.

(** Ratings of one respondent that agree in category priority and in rank
    value keep, after the sort of line 121, the order of their columns in
    the metadata map: the earlier column gets the better global rank. *)
Theorem ties_keep_column_order
    (w : World) (ty : string) (row : Series) (items : list Item) (p v : Z) :
  eval (student_courses (select_type_cols (w_col_map w) ty) row) w
  = Ok items ->
  filter (same_key p v) (list_sort items)
  = filter (same_key p v) (row_items (w_col_map w) ty row).
Proof.
  intro H.
  destruct (yields_ok _ _ _ _ (eval_student_courses w ty row) H) as [_ ->].
  apply list_sort_same_key.
Qed.

Lemma ties_keep_column_order_witness :
  filter (same_key 1 1)
         (list_sort [mkItem "Course A" 1 1; mkItem "Course B" 1 1])
  = filter (same_key 1 1)
           (row_items (w_col_map sample_world) "CORE"
                      (combine sample_columns tied_row)).
Proof.
  apply (ties_keep_column_order sample_world "CORE"
           (combine sample_columns tied_row)).
  vm_compute. reflexivity.
Defined.

(* ================================================================== *)
(** * The parser and the aggregator together *)

Lemma mem_combine (c : string) (cols : list string) :
  forall vals : list cell,
    In c cols ->
    (List.length cols <= List.length vals)%nat ->
    Dict.mem (combine cols vals) c = true.
Proof.
  unfold Dict.mem.
  induction cols as [| c' cols IH]; intros vals Hin Hlen; [destruct Hin |].
  destruct vals as [| v vals]; [simpl in Hlen; lia |].
  simpl. destruct (String.eqb c' c) eqn:E; [reflexivity |].
  destruct Hin as [-> | Hin]; [rewrite String.eqb_refl in E; discriminate |].
  apply IH; [exact Hin | simpl in Hlen; lia].
Qed.

Lemma parsed_keys_are_columns (cols : list string) (c : string) :
  In c (Dict.keys (fst (parse_columns cols))) -> In c cols.
Proof.
  rewrite (proj1 (parse_columns_closed cols)), In_first_seen.
  intro H. apply filter_In in H. tauto.
Qed.

Lemma rectangular_has_cols (df : DataFrame) (cols : list string) :
  rectangular df = true ->
  (forall c, In c cols -> In c (columns df)) ->
  forallb (has_cols cols) (rows_of df) = true.
Proof.
  unfold rectangular, rows_of. intros Hrect Hsub.
  apply forallb_forall. intros row Hrow.
  apply in_map_iff in Hrow. destruct Hrow as [vals [<- Hvals]].
  apply (proj1 (forallb_forall _ _) Hrect) in Hvals.
  apply Nat.eqb_eq in Hvals.
  unfold has_cols. apply forallb_forall. intros c Hc.
  apply mem_combine; [now apply Hsub | lia].
Qed.

(** On a table with one cell per column, [process_rankings] run with the
    map that [parse_columns] builds from the table's own headers does not
    raise [KeyError], for any course type: every column it asks a row for
    is a column of the table. *)
Theorem parsed_map_no_key_error
    (sort_values : list ResultRow -> list ResultRow)
    (df : DataFrame) (ty : string) (c : string) :
  rectangular df = true ->
  eval (process_rankings sort_values ty)
       (mkWorld df (fst (parse_columns (columns df))))
  <> Raise (KeyError c).
Proof.
  intros Hrect H.
  destruct (process_rankings_raise_inv _ _ _ _ H)
    as [c' [row [Hrow [Hc [_ Hnone]]]]].
  cbn [w_df w_col_map] in *.
  assert (Hcols : forallb (has_cols (select_type_cols
                                       (fst (parse_columns (columns df))) ty))
                          (rows_of df) = true).
  { apply rectangular_has_cols; [exact Hrect |].
    intros k Hk. apply parsed_keys_are_columns.
    now apply (select_type_cols_keys _ ty). }
  apply (proj1 (forallb_forall _ _) Hcols) in Hrow.
  unfold has_cols in Hrow.
  apply (proj1 (forallb_forall _ _) Hrow) in Hc.
  apply mem_get_none in Hnone. congruence.
Qed.

Lemma parsed_map_no_key_error_witness :
  eval (process_rankings sort_values_stable "CORE")
       (mkWorld survey (fst (parse_columns (columns survey))))
  <> Raise (KeyError col_A).
Proof.
  apply (parsed_map_no_key_error sort_values_stable survey "CORE" col_A).
  vm_compute. reflexivity.
Defined.

Lemma recognized_priority (cat : string) :
  recognized cat = true ->
  String.eqb cat "Did not take" = false ->
  1 <= category_priority cat <= 3.
Proof.
  unfold recognized, category_priority. simpl.
  destruct (String.eqb cat "Most Beneficial"); [lia |].
  destruct (String.eqb cat "Neutral"); [lia |].
  destruct (String.eqb cat "Least Beneficial"); [lia |].
  destruct (String.eqb cat "Did not take"); discriminate.
Qed.

(** With the map that [parse_columns] builds, every rating that
    [process_rankings] constructs has category priority 1, 2 or 3: the
    default priority 0 of line 104 is never used. *)
Theorem parsed_map_priorities
    (w : World) (cols : list string) (ty : string) (row : Series)
    (items : list Item) (x : Item) :
  w_col_map w = fst (parse_columns cols) ->
  eval (student_courses (select_type_cols (w_col_map w) ty) row) w
  = Ok items ->
  In x items ->
  1 <= cat_priority x <= 3.
Proof.
  intros Hmap Hrun Hx.
  destruct (yields_ok _ _ _ _ (eval_student_courses w ty row) Hrun)
    as [_ ->].
  unfold row_items in Hx. apply in_flat_map in Hx.
  destruct Hx as [c [_ Hx]]. unfold rating in Hx.
  destruct (Dict.get (w_col_map w) c) as [meta |] eqn:Hmeta; [| destruct Hx].
  destruct (Dict.get row c) as [[| v] |]; try destruct Hx.
  destruct (String.eqb (m_category meta) "Did not take") eqn:Hdnt;
    [destruct Hx |].
  destruct Hx as [<- | []]. cbn [cat_priority].
  apply recognized_priority; [| exact Hdnt].
  apply get_some_in_keys in Hmeta. rewrite Hmap in Hmeta.
  apply parse_columns_entry in Hmeta.
  destruct Hmeta as [_ [_ He]].
  now apply (entry_of_wellformed c).
Qed.

Lemma parsed_map_priorities_witness :
  1 <= cat_priority (mkItem "Course C" 2 1) <= 3.
Proof.
  apply (parsed_map_priorities sample_world sample_columns "CORE"
           (combine sample_columns respondent_1)
           [mkItem "Course A" 1 2; mkItem "Course B" 1 1;
            mkItem "Course C" 2 1]).
  - reflexivity.
  - vm_compute. reflexivity.
  - simpl. auto.
Defined.

Lemma filter_split_perm {A} (p q : A -> bool) (l : list A) :
  (forall x, In x l -> q x = negb (p x)) ->
  Permutation (filter p l ++ filter q l) l.
Proof.
  induction l as [| a l IH]; intro H; simpl.
  - apply perm_nil.
  - rewrite (H a (or_introl eq_refl)).
    specialize (IH (fun x Hx => H x (or_intror Hx))).
    destruct (p a); simpl.
    + now apply perm_skip.
    + rewrite <- Permutation_middle. now apply perm_skip.
Qed.

Lemma filter_none {A} (p : A -> bool) (l : list A) :
  (forall x, In x l -> p x = false) -> filter p l = [].
Proof.
  induction l as [| a l IH]; intro H; simpl; [reflexivity |].
  rewrite (H a (or_introl eq_refl)). apply IH. intros; apply H; now right.
Qed.

(** The two runs of [main] share out the parsed columns: every key of the
    map that [parse_columns] returns is selected by exactly one of the
    course types "CORE" and "ELECTIVE", and by no other course type. *)
Theorem parsed_map_types (cols : list string) :
  Permutation
    (select_type_cols (fst (parse_columns cols)) "CORE"
     ++ select_type_cols (fst (parse_columns cols)) "ELECTIVE")
    (Dict.keys (fst (parse_columns cols)))
  /\ forall ty,
       ty <> "CORE" -> ty <> "ELECTIVE" ->
       select_type_cols (fst (parse_columns cols)) ty = [].
Proof.
  assert (Hty : forall p, In p (fst (parse_columns cols)) ->
                m_type (snd p) = "CORE" \/ m_type (snd p) = "ELECTIVE").
  { intros [c m] Hin. apply parse_columns_entry in Hin.
    destruct Hin as [_ [_ He]]. now apply (entry_of_wellformed c). }
  unfold select_type_cols, Dict.keys. split.
  - rewrite <- map_app. apply Permutation_map, filter_split_perm.
    intros p Hp. destruct (Hty p Hp) as [-> | ->]; reflexivity.
  - intros ty H1 H2. rewrite filter_none; [reflexivity |].
    intros p Hp. apply String.eqb_neq.
    destruct (Hty p Hp) as [-> | ->]; congruence.
Qed.

(* ================================================================== *)
(** * main *)

Lemma no_csv_in_prints (ws : list string) :
  existsb is_csv (map Print ws) = false.
Proof. induction ws as [| a ws IH]; simpl; auto. Qed.

Lemma no_csv_in_plot (df : list ResultRow) (title filename : string) :
  existsb is_csv (create_plot df title filename) = false.
Proof. destruct df; reflexivity. Qed.

Lemma csv_event_found (path : string) (t : list ResultRow) (l : list Event) :
  In (ToCsv path t) l -> existsb is_csv l = true.
Proof.
  intro H. apply existsb_exists. exists (ToCsv path t). auto.
Qed.

(** [main] writes a CSV file only at the very end of a run in which the
    data file was there, was read, and both aggregations returned: a run
    that stops early, or that an exception ends, leaves no CSV file. *)
Theorem main_csv_only_on_success
    (sort_values : list ResultRow -> list ResultRow)
    (path_exists : bool) (read_excel : ReadOutcome)
    (path : string) (t : list ResultRow) :
  In (ToCsv path t) (fst (main sort_values path_exists read_excel)) ->
  snd (main sort_values path_exists read_excel) = None
  /\ path_exists = true
  /\ exists df core elective,
       read_excel = ReadOk df
       /\ eval (process_rankings sort_values "CORE")
               (mkWorld df (fst (parse_columns (columns df)))) = Ok core
       /\ eval (process_rankings sort_values "ELECTIVE")
               (mkWorld df (fst (parse_columns (columns df)))) = Ok elective.
Proof.
  intro Hin. apply csv_event_found in Hin. revert Hin.
  unfold main. destruct path_exists; cbn [negb]; [| discriminate].
  destruct read_excel as [df | e]; [| discriminate].
  rewrite (surjective_pairing (parse_columns (columns df))).
  rewrite (run_readonly (process_rankings sort_values "CORE") _
             (readonly_process_rankings sort_values "CORE")).
  destruct (eval (process_rankings sort_values "CORE") _) as [core | e] eqn:Ec.
  - rewrite (run_readonly (process_rankings sort_values "ELECTIVE") _
               (readonly_process_rankings sort_values "ELECTIVE")).
    destruct (eval (process_rankings sort_values "ELECTIVE") _)
      as [elective | e] eqn:Ee.
    + intros _. cbn [snd]. split; [reflexivity |]. split; [reflexivity |].
      exists df, core, elective. auto.
    + cbn [fst]. rewrite !existsb_app, no_csv_in_prints, no_csv_in_plot.
      discriminate.
  - cbn [fst]. rewrite !existsb_app, no_csv_in_prints. discriminate.
Qed.

Lemma main_csv_only_on_success_witness :
  snd (main sort_values_stable true (ReadOk survey)) = None
  /\ true = true
  /\ exists df core elective,
       ReadOk survey = ReadOk df
       /\ eval (process_rankings sort_values_stable "CORE")
               (mkWorld df (fst (parse_columns (columns df)))) = Ok core
       /\ eval (process_rankings sort_values_stable "ELECTIVE")
               (mkWorld df (fst (parse_columns (columns df)))) = Ok elective.
Proof.
  apply (main_csv_only_on_success sort_values_stable true (ReadOk survey)
           "outputs/elective_rankings.csv" []).
  vm_compute. auto 20.
Defined.

Lemma plot_saves_nonempty (df : list ResultRow) (title filename : string)
    (path title' : string) (t : list ResultRow) :
  In (SaveFig path title' t) (create_plot df title filename) ->
  t = df /\ t <> [].
Proof.
  destruct df as [| r df]; simpl.
  - intros [H | []]; discriminate.
  - intros [[= _ _ <-] | [H | []]]; [| discriminate].
    split; [reflexivity | discriminate].
Qed.

Lemma no_fig_in_prints (ws : list string) path title t :
  ~ In (SaveFig path title t) (map Print ws).
Proof.
  intro H. apply in_map_iff in H. destruct H as [x [H _]]. discriminate.
Qed.

(** A run of [main] that reaches its end, after the data file was read,
    has as its last two events the writing of the CORE and of the ELECTIVE
    table; these are the tables that [process_rankings] computes with the
    map parsed from the table's own headers; and before them a chart was
    saved only for a table that has rows. *)
Theorem main_normal_run
    (sort_values : list ResultRow -> list ResultRow) (df : DataFrame)
    (trace : list Event) :
  main sort_values true (ReadOk df) = (trace, None) ->
  exists core elective out,
    trace = (out ++ [ToCsv "outputs/core_rankings.csv" core;
                     ToCsv "outputs/elective_rankings.csv" elective])%list
    /\ eval (process_rankings sort_values "CORE")
            (mkWorld df (fst (parse_columns (columns df)))) = Ok core
    /\ eval (process_rankings sort_values "ELECTIVE")
            (mkWorld df (fst (parse_columns (columns df)))) = Ok elective
    /\ forall path title t,
         In (SaveFig path title t) out ->
         t <> [] /\ (t = core \/ t = elective).
Proof.
  unfold main. cbn [negb].
  rewrite (surjective_pairing (parse_columns (columns df))).
  rewrite (run_readonly (process_rankings sort_values "CORE") _
             (readonly_process_rankings sort_values "CORE")).
  destruct (eval (process_rankings sort_values "CORE") _)
    as [core | e] eqn:Hc; [| discriminate].
  rewrite (run_readonly (process_rankings sort_values "ELECTIVE") _
             (readonly_process_rankings sort_values "ELECTIVE")).
  destruct (eval (process_rankings sort_values "ELECTIVE") _)
    as [elective | e] eqn:He; [| discriminate].
  intro Hm. apply (f_equal fst) in Hm. cbn [fst] in Hm. subst trace.
  exists core, elective. eexists.
  split; [rewrite !app_assoc; reflexivity |].
  split; [reflexivity |]. split; [reflexivity |].
  intros path title t Hin.
  repeat (apply in_app_or in Hin; destruct Hin as [Hin | Hin]);
    try (destruct Hin as [Hin | []]; discriminate Hin);
    try (exfalso; exact (no_fig_in_prints _ _ _ _ Hin));
    try (apply plot_saves_nonempty in Hin; destruct Hin as [-> Hne]; auto).
Qed.

Lemma main_normal_run_witness :
  exists core elective out,
    fst (main sort_values_stable true (ReadOk survey))
    = (out ++ [ToCsv "outputs/core_rankings.csv" core;
               ToCsv "outputs/elective_rankings.csv" elective])%list
    /\ eval (process_rankings sort_values_stable "CORE")
            (mkWorld survey (fst (parse_columns (columns survey)))) = Ok core
    /\ eval (process_rankings sort_values_stable "ELECTIVE")
            (mkWorld survey (fst (parse_columns (columns survey))))
       = Ok elective
    /\ forall path title t,
         In (SaveFig path title t) out ->
         t <> [] /\ (t = core \/ t = elective).
Proof.
  apply (main_normal_run sort_values_stable survey).
  vm_compute. reflexivity.
Defined.
